(** * Afterlife: resolution and verification engine

    A shallow embedding of the TypeScript/JavaScript sources of the
    Afterlife site and skills:

    - [lib/tags.ts]     tag index ([tagsToMap], [tagFirst]);
    - [lib/arweave.ts]  ledger query client, gateway list, document fetch
                        client and latest-state resolver;
    - [lib/schema.ts]   the lenient parsers ([parseSelfHead],
                        [parseSelfSnapshot]);
    - [scripts/self.ts] the helpers of the pages ([escapeHtml], [txLink]);
    - [skills/afterlife-verify/scripts/verify.mjs] the strict validators,
                        the chain verifier and the command line;
    - [skills/afterlife-fetch/scripts/fetch.mjs] the tag check and the
                        loop that collects the ideas of a snapshot;
    - [scripts/publish-self.mjs] the input validator, the upload loop and
                        the documents that are published;
    - [skills/arweave-turbo-common/lib/common.mjs] [mergeTags];
    - [skills/arweave-turbo-fetch/scripts/fetch.mjs] [uniqueGateways];
    - [skills/arweave-turbo-save/scripts/save.mjs] [chunkOrFail].

    JavaScript strings are Rocq strings (their UTF-8 bytes), numbers that
    the code computes with are integers in [Z], a [Map] is an association
    list in insertion order, and the network is an oracle threaded through
    a state-and-exception monad. *)

From Stdlib Require Import Ascii.
From stdpp Require Import base numbers strings list gmap pretty sorting.

#[local] Set Warnings "-clear-no-such-hyp,-register-all".

Local Open Scope string_scope.
Local Open Scope list_scope.
Local Open Scope stdpp_scope.

(** ** JavaScript builtins used by the sources *)

Module Js.

(** [Map<string, V>]: iteration follows the order in which keys were first
    inserted; [set] on a key already present keeps its position. *)
Definition Map (V : Type) : Type := list (string * V).

Section MapOps.
Context {V : Type}.

Fixpoint get (k : string) (m : Map V) : option V :=
  match m with
  | [] => None
  | (k', v) :: m' => if decide (k = k') then Some v else get k m'
  end.

Fixpoint set (k : string) (v : V) (m : Map V) : Map V :=
  match m with
  | [] => [(k, v)]
  | (k', v') :: m' =>
      if decide (k = k') then (k, v) :: m' else (k', v') :: set k v m'
  end.

Definition keys (m : Map V) : list string := m.*1.
Definition values (m : Map V) : list V := m.*2.
Definition size (m : Map V) : nat := length m.
End MapOps.

(** [Array.prototype.sort(cmp)]: the sort is stable, so for a consistent
    comparator its result is the one stable ordering of the input.  It is
    computed here by insertion from the right: an element moves behind
    exactly the later elements that [cmp] puts strictly before it. *)
Section Sort.
Context {A : Type} (cmp : A → A → Z).

Fixpoint sort_insert (x : A) (l : list A) : list A :=
  match l with
  | [] => [x]
  | y :: l' => if (0 <? cmp x y)%Z then y :: sort_insert x l' else x :: l
  end.

Definition sort (l : list A) : list A := foldr sort_insert [] l.
End Sort.

(** Truthiness of a string: every string but the empty one. *)
Definition truthy_string (s : string) : bool := bool_decide (s ≠ "").


(** *** JSON documents

    What [JSON.parse] returns.  An object is the list of its own properties
    in enumeration order, each key once.  Numbers are the integers that
    JavaScript represents exactly; the sources never compute with a number
    of a document, they only test it for truthiness and print it. *)
Inductive json : Type :=
| JNull
| JBool (b : bool)
| JNum (n : Z)
| JStr (s : string)
| JArr (items : list json)
| JObj (fields : list (string * json)).

(** A value that may be [undefined] is an [option json]. *)
Definition value : Type := option json.

Fixpoint assoc (k : string) (fields : list (string * json)) : option json :=
  match fields with
  | [] => None
  | (k', v) :: fields' => if decide (k = k') then Some v else assoc k fields'
  end.

(** [v?.k] for the property names the sources read (none of them is a
    builtin property of arrays, strings, numbers or booleans): the own
    property of an object, [undefined] otherwise. *)
Definition prop (v : value) (k : string) : value :=
  match v with
  | Some (JObj fields) => assoc k fields
  | _ => None
  end.

(** [typeof v === "object"], which holds of [null] too. *)
Definition typeof_object (v : value) : bool :=
  match v with
  | Some JNull | Some (JArr _) | Some (JObj _) => true
  | _ => false
  end.

(** [typeof v === "string"] *)
Definition as_string (v : value) : option string :=
  match v with
  | Some (JStr s) => Some s
  | _ => None
  end.

Definition typeof_string (v : value) : bool :=
  match v with
  | Some (JStr _) => true
  | _ => false
  end.

(** [v === s] for a string [s] *)
Definition is_string (v : value) (s : string) : bool :=
  match v with
  | Some (JStr s') => bool_decide (s' = s)
  | _ => false
  end.

(** [Array.isArray(v)] *)
Definition as_array (v : value) : option (list json) :=
  match v with
  | Some (JArr items) => Some items
  | _ => None
  end.

Definition truthy (v : value) : bool :=
  match v with
  | None | Some JNull => false
  | Some (JBool b) => b
  | Some (JNum n) => negb (n =? 0)%Z
  | Some (JStr s) => truthy_string s
  | Some (JArr _) | Some (JObj _) => true
  end.

(** [a || b] *)
Definition or_else (a b : value) : value := if truthy a then a else b.

(** String conversion, as in a template literal [`${v}`]. *)
Fixpoint ToString_json (v : json) : string :=
  match v with
  | JNull => "null"
  | JBool true => "true"
  | JBool false => "false"
  | JNum n => pretty n
  | JStr s => s
  | JArr items =>
      String.concat ","
        (map (λ x, match x with JNull => "" | _ => ToString_json x end) items)
  | JObj _ => "[object Object]"
  end.

Definition ToString (v : value) : string :=
  match v with
  | None => "undefined"
  | Some j => ToString_json j
  end.

(** [JSON.stringify(v)] without indentation. *)
Definition dquote : string := String (Ascii.ascii_of_nat 34) "".

Definition hex_digit (n : nat) : string :=
  String (Ascii.ascii_of_nat (if (n <? 10)%nat then 48 + n else 87 + n)) "".

Definition quote_char (c : Ascii.ascii) : string :=
  let n := Ascii.nat_of_ascii c in
  if (n =? 34)%nat then "\" +:+ dquote
  else if (n =? 92)%nat then "\\"
  else if (n =? 8)%nat then "\b"
  else if (n =? 9)%nat then "\t"
  else if (n =? 10)%nat then "\n"
  else if (n =? 12)%nat then "\f"
  else if (n =? 13)%nat then "\r"
  else if (n <? 32)%nat then "\u00" +:+ hex_digit (n / 16) +:+ hex_digit (n mod 16)
  else String c "".

Fixpoint quote_chars (s : string) : string :=
  match s with
  | EmptyString => EmptyString
  | String c s' => quote_char c +:+ quote_chars s'
  end.

Definition quote_string (s : string) : string :=
  dquote +:+ quote_chars s +:+ dquote.

Fixpoint JSON_stringify (v : json) : string :=
  match v with
  | JNull => "null"
  | JBool true => "true"
  | JBool false => "false"
  | JNum n => pretty n
  | JStr s => quote_string s
  | JArr items => "[" +:+ String.concat "," (map JSON_stringify items) +:+ "]"
  | JObj fields =>
      "{" +:+ String.concat ","
                (map (λ kv, quote_string kv.1 +:+ ":" +:+ JSON_stringify kv.2) fields)
          +:+ "}"
  end.

(** [String.prototype.trim]: white space and line terminators are removed
    from both ends.  The code points concerned are U+0009 to U+000D,
    U+0020, U+00A0, U+1680, U+2000 to U+200A, U+2028, U+2029, U+202F,
    U+205F, U+3000 and U+FEFF, met here in their UTF-8 encoding. *)
Definition ws1 (b : nat) : bool :=
  ((9 <=? b) && (b <=? 13) || (b =? 32))%nat.
Definition ws2 (b1 b2 : nat) : bool :=
  ((b1 =? 194) && (b2 =? 160))%nat.
Definition ws3 (b1 b2 b3 : nat) : bool :=
  ((b1 =? 225) && (b2 =? 154) && (b3 =? 128)
   || (b1 =? 226) && (b2 =? 128)
      && ((128 <=? b3) && (b3 <=? 138) || (b3 =? 168) || (b3 =? 169) || (b3 =? 175))
   || (b1 =? 226) && (b2 =? 129) && (b3 =? 159)
   || (b1 =? 227) && (b2 =? 128) && (b3 =? 128)
   || (b1 =? 239) && (b2 =? 187) && (b3 =? 191))%nat.

(** Drops leading white space from a list of bytes; with [backwards] the
    list is a reversed string and the encodings are read back to front. *)
Fixpoint drop_ws (backwards : bool) (fuel : nat) (l : list nat) : list nat :=
  match fuel with
  | O => l
  | S fuel' =>
      match l with
      | b1 :: r1 =>
          if ws1 b1 then drop_ws backwards fuel' r1
          else match r1 with
               | b2 :: r2 =>
                   if (if backwards then ws2 b2 b1 else ws2 b1 b2)
                   then drop_ws backwards fuel' r2
                   else match r2 with
                        | b3 :: r3 =>
                            if (if backwards then ws3 b3 b2 b1 else ws3 b1 b2 b3)
                            then drop_ws backwards fuel' r3
                            else l
                        | [] => l
                        end
               | [] => l
               end
      | [] => []
      end
  end.

Definition trim (s : string) : string :=
  let bytes := Ascii.nat_of_ascii <$> String.list_ascii_of_string s in
  let front := drop_ws false (length bytes) bytes in
  let back := drop_ws true (length front) (reverse front) in
  String.string_of_list_ascii (Ascii.ascii_of_nat <$> reverse back).

Global Arguments prop : simpl never.
Global Arguments as_string : simpl never.
Global Arguments as_array : simpl never.
Global Arguments typeof_string : simpl never.
Global Arguments is_string : simpl never.
Global Arguments truthy : simpl never.
Global Arguments ToString : simpl never.
Global Arguments JSON_stringify : simpl never.
Global Arguments trim : simpl never.

End Js.

(** ** Asynchronous code and the network

    An [async] function is a computation that threads the state of the
    outside world, may raise, and leaves a trace of what it asked of the
    world.  The world answers each request through an oracle; the time a
    request takes is not modelled, a request that runs into its timeout is
    one that the oracle rejects. *)

Module Async.

(** Every value the sources throw or catch is an [Error] object: they
    construct it with [new Error], or it is the [TypeError], [AbortError]
    or [SyntaxError] that [fetch], [res.json], [res.text] and [JSON.parse]
    raise. *)
Record Error : Type := mkError { message : string }.

(** A [Response]: [body] is what reading and parsing the body gives, the
    parsed value or the error raised on the way. *)
Record Response (B : Type) : Type :=
  mkResponse { ok : bool; status : Z; body : Error + B }.
Global Arguments mkResponse {_} _ _ _.
Global Arguments ok {_} _.
Global Arguments status {_} _.
Global Arguments body {_} _.

Inductive fetched (B : Type) : Type :=
| Rejected (err : Error)
| Responded (res : Response B).
Global Arguments Rejected {_} _.
Global Arguments Responded {_} _.

(** The body of a GraphQL request, [JSON.stringify({ query, variables })]. *)
Record GraphqlBody : Type := { query : string; variables : Js.json }.

(** [{ data?: D; errors?: Array<{ message: string }> }]; [errors] holds the
    message of each declared error.  [D] is an object type, so a [data]
    that is present is truthy. *)
Record GraphqlResponse (D : Type) : Type :=
  { data : option D; errors : option (list string) }.
Global Arguments data {_} _.
Global Arguments errors {_} _.

Record Network (W D : Type) : Type := {
  post : W → string → GraphqlBody → fetched (GraphqlResponse D) * W;
  get : W → string → fetched Js.json * W
}.
Global Arguments post {_ _} _ _ _ _.
Global Arguments get {_ _} _ _ _.

Inductive event : Type :=
| POST (endpoint : string) (body : GraphqlBody)
| GET (url : string)
| Sleep (ms : Z).

Record State (W : Type) : Type := mkState { world : W; trace : list event }.
Global Arguments mkState {_} _ _.
Global Arguments world {_} _.
Global Arguments trace {_} _.

Definition M (W A : Type) : Type := State W → (Error + A) * State W.

Section Monad.
Context {W : Type}.

Definition ret {A} (a : A) : M W A := λ st, (inr a, st).

Definition bind {A B} (m : M W A) (f : A → M W B) : M W B :=
  λ st, match m st with
        | (inl e, st') => (inl e, st')
        | (inr a, st') => f a st'
        end.

Definition throw {A} (e : Error) : M W A := λ st, (inl e, st).

(** [try { m } catch (err) { h err }] *)
Definition try_catch {A} (m : M W A) (h : Error → M W A) : M W A :=
  λ st, match m st with
        | (inl e, st') => h e st'
        | (inr a, st') => (inr a, st')
        end.

Definition log (ev : event) (st : State W) : State W :=
  mkState (world st) (trace st ++ [ev]).

(** [new Promise((r) => setTimeout(r, ms))] *)
Definition sleep (ms : Z) : M W () := λ st, (inr (), log (Sleep ms) st).

Context {D : Type} (net : Network W D).

(** [fetch(endpoint, { method: "POST", body })] *)
Definition fetch_post (endpoint : string) (b : GraphqlBody)
  : M W (Response (GraphqlResponse D)) :=
  λ st, let '(r, w) := post net (world st) endpoint b in
        let st' := mkState w (trace st ++ [POST endpoint b]) in
        match r with
        | Rejected e => (inl e, st')
        | Responded res => (inr res, st')
        end.

(** [fetch(url)] *)
Definition fetch_get (url : string) : M W (Response Js.json) :=
  λ st, let '(r, w) := get net (world st) url in
        let st' := mkState w (trace st ++ [GET url]) in
        match r with
        | Rejected e => (inl e, st')
        | Responded res => (inr res, st')
        end.

(** [await res.json()], and [JSON.parse(await res.text())] *)
Definition read_json {B} (res : Response B) : M W B :=
  match body res with
  | inl e => throw e
  | inr v => ret v
  end.
End Monad.

Global Instance M_ret {W} : MRet (M W) := @ret W.
Global Instance M_bind {W} : MBind (M W) := λ A B f m, bind m f.

(** The requests of a trace, in order. *)
Definition is_request (ev : event) : bool :=
  match ev with
  | Sleep _ => false
  | _ => true
  end.

Definition requests (t : list event) : list event :=
  filter (λ ev, is_request ev) t.

End Async.

(** ** lib/tags.ts *)

Module Tags.

Record ArweaveTag : Type := { name : string; value : string }.

Definition TagMap : Type := Js.Map (list string).

(** [existing.push(tag.value); map.set(tag.name, existing)] *)
Definition add_tag (map : TagMap) (tag : ArweaveTag) : TagMap :=
  let existing := default [] (Js.get (name tag) map) in
  Js.set (name tag) (existing ++ [value tag]) map.

(** The argument is [ArweaveTag[] | null | undefined]; [None] stands for
    both absent forms. *)
Definition tagsToMap (tags : option (list ArweaveTag)) : TagMap :=
  match tags with
  | None => []
  | Some tags => foldl add_tag [] tags
  end.

(** [tags.get(name)?.[0]] *)
Definition tagFirst (tags : TagMap) (name : string) : option string :=
  Js.get name tags ≫= head.

End Tags.

(** ** lib/arweave.ts *)

Module Arweave.
Import Tags Js Async.

Definition AFTERLIFE_TAGS_appName : string := "ar//afterlife".
Definition AFTERLIFE_TAGS_appTag : string := "afterlife".
Definition AFTERLIFE_TAGS_schemaVersion : string := "1".
Definition AFTERLIFE_TAGS_entity_selfHead : string := "SelfHead".

Record Owner : Type := { address : string }.
Record Block : Type := { height : Z; timestamp : Z }.

Record ArweaveTxNode : Type := {
  id : string;
  owner : Owner;
  block : option Block;
  tags : list ArweaveTag
}.

Record ArweaveTxEdge : Type := { cursor : string; node : ArweaveTxNode }.

(** [{ transactions: { edges: ArweaveTxEdge[] } }], the [data] of both
    queries; [edges] may come back null. *)
Record Transactions : Type := { edges : option (list ArweaveTxEdge) }.
Record TransactionsData : Type := { transactions : Transactions }.

(** *** Arrays that are shared

    [DEFAULT_GATEWAYS] is one array object, created when the module is
    loaded.  The store maps the location of an array to its elements;
    [getGateways] returns the location of the array it creates. *)
Abbreviation loc := nat.
Abbreviation store := (gmap nat (list string)).

Definition DEFAULT_GRAPHQL_ENDPOINTS : list string :=
  ["https://arweave.net/graphql"; "https://ar-io.dev/graphql"].

Definition DEFAULT_GATEWAYS : loc := 0%nat.
Definition DEFAULT_GATEWAYS_init : list string :=
  ["https://arweave.net"; "https://ar-io.dev"].

(** The store once the module is loaded. *)
Definition module_store : store := {[ DEFAULT_GATEWAYS := DEFAULT_GATEWAYS_init ]}.

(** A new array holding [elements]. *)
Definition new_array (elements : list string) (σ : store) : loc * store :=
  let l := fresh (dom σ) in (l, <[ l := elements ]> σ).

(** [localStorage] is [None] where the global is undefined; [getItem]
    gives null for a key that is not stored. *)
Definition getGateways (localStorage : option (gmap string string)) (σ : store)
  : loc * store :=
  let override : option string :=
    match localStorage with
    | Some items => items !! "afterlifeGatewayUrl"
    | None => None
    end in
  let cleaned := trim <$> override in
  let defaults := default [] (σ !! DEFAULT_GATEWAYS) in
  match cleaned with
  | Some cleaned =>
      if truthy_string cleaned then new_array (cleaned :: defaults) σ
      else new_array defaults σ
  | None => new_array defaults σ
  end.

(** *** The ledger query client and the document fetch client *)

(** [gw.replace(/\/$/, EMPTY)]: one slash at the very end is removed. *)
Fixpoint stripTrailingSlash (s : string) : string :=
  match s with
  | EmptyString => EmptyString
  | String c EmptyString => if decide (c = "/"%char) then EmptyString else s
  | String c s' => String c (stripTrailingSlash s')
  end.

Section Client.
Context {W D : Type} (net : Network W D).

(** [fetchWithTimeout]: the request of [fetch], aborted (so rejected)
    when it outlasts [timeoutMs]. *)
Definition fetchWithTimeout_post (endpoint : string) (b : GraphqlBody)
  : M W (Response (GraphqlResponse D)) := fetch_post net endpoint b.
Definition fetchWithTimeout_get (url : string)
  : M W (Response json) := fetch_get net url.

(** The [try] block of [graphqlRequest]. *)
Definition graphqlAttempt (query : string) (variables : json) (endpoint : string)
  : M W D :=
  res ← fetchWithTimeout_post endpoint {| query := query; variables := variables |};
  if negb (ok res)
  then throw (mkError ("GraphQL " +:+ endpoint +:+ " HTTP " +:+ pretty (status res)))
  else
    json ← read_json res;
    if bool_decide (0 < length (default [] (errors json)))%nat
    then throw (mkError (String.concat "; " (default [] (errors json))))
    else match data json with
         | None => throw (mkError ("GraphQL " +:+ endpoint +:+ " missing data"))
         | Some d => mret d
         end.

(** The loop of [graphqlRequest] over the endpoints still to try. *)
Fixpoint graphqlRequest_from (query : string) (variables : json)
    (endpoints : list string) (lastErr : option Error) : M W D :=
  match endpoints with
  | [] => throw (default (mkError "GraphQL request failed") lastErr)
  | endpoint :: rest =>
      try_catch (graphqlAttempt query variables endpoint)
        (λ err, _ ← sleep 120; graphqlRequest_from query variables rest (Some err))
  end.

Definition graphqlRequest (query : string) (variables : json)
    (endpoints : list string) : M W D :=
  graphqlRequest_from query variables endpoints None.

(** The [try] block of [fetchTxJson]. *)
Definition fetchTxJsonAttempt (txId gw : string) : M W json :=
  let url := stripTrailingSlash gw +:+ "/" +:+ txId in
  res ← fetchWithTimeout_get url;
  if negb (ok res)
  then throw (mkError ("Gateway " +:+ gw +:+ " HTTP " +:+ pretty (status res)))
  else read_json res.

Fixpoint fetchTxJson_from (txId : string) (gateways : list string)
    (lastErr : option Error) : M W json :=
  match gateways with
  | [] => throw (default (mkError "Failed to fetch tx JSON") lastErr)
  | gw :: rest =>
      try_catch (fetchTxJsonAttempt txId gw)
        (λ err, _ ← sleep 120; fetchTxJson_from txId rest (Some err))
  end.

(** [gateways] defaults to the array that [getGateways()] returns. *)
Definition fetchTxJson (txId : string) (gateways : list string) : M W json :=
  fetchTxJson_from txId gateways None.
End Client.

Definition LIST_HEADS_QUERY : string := "
query AfterlifeHeads($tags: [TagFilter!], $first: Int!, $after: String) {
  transactions(tags: $tags, first: $first, after: $after, sort: HEIGHT_DESC) {
    edges {
      cursor
      node {
        id
        owner { address }
        block { height timestamp }
        tags { name value }
      }
    }
  }
}
".

Definition tagFilter (name value : string) : json :=
  JObj [("name", JStr name); ("values", JArr [JStr value])].

Definition commonAfterlifeHeadTags : list json :=
  [ tagFilter "App-Name" AFTERLIFE_TAGS_appName;
    tagFilter "App-Tag" AFTERLIFE_TAGS_appTag;
    tagFilter "Schema-Version" AFTERLIFE_TAGS_schemaVersion;
    tagFilter "Entity" AFTERLIFE_TAGS_entity_selfHead ].

Definition listSelfHeadEdges {W} (net : Network W TransactionsData)
    (first : Z) (after : option string) : M W (list ArweaveTxEdge) :=
  data ← graphqlRequest net LIST_HEADS_QUERY
            (JObj [("tags", JArr commonAfterlifeHeadTags);
                   ("first", JNum first);
                   ("after", from_option JStr JNull after)])
            DEFAULT_GRAPHQL_ENDPOINTS;
  mret (default [] (edges (transactions data))).

Definition LATEST_HEAD_FOR_SELF_QUERY : string := "
query LatestHeadForSelf($tags: [TagFilter!]) {
  transactions(tags: $tags, first: 1, sort: HEIGHT_DESC) {
    edges {
      node {
        id
        owner { address }
        block { height timestamp }
        tags { name value }
      }
    }
  }
}
".

(** [{ transactions: { edges: Array<{ node: ArweaveTxNode }> } }], the
    [data] of the query for the latest head of one self. *)
Module Latest.
Record Edge : Type := { node : ArweaveTxNode }.
Record Transactions : Type := { edges : option (list Edge) }.
Record Data : Type := { transactions : Transactions }.
End Latest.

(** [data.transactions.edges?.[0]?.node ?? null] *)
Definition getLatestSelfHead {W} (net : Network W Latest.Data) (selfId : string)
  : M W (option ArweaveTxNode) :=
  let tags := commonAfterlifeHeadTags ++ [tagFilter "Self-Id" selfId] in
  data ← graphqlRequest net LATEST_HEAD_FOR_SELF_QUERY
            (JObj [("tags", JArr tags)])
            DEFAULT_GRAPHQL_ENDPOINTS;
  mret (Latest.node <$> (Latest.edges (Latest.transactions data) ≫= head)).

(** [fetchTxJson(txId)], the call that leaves [gateways] to its default:
    [getGateways()] is evaluated when the call is made, and the loop runs
    over the array it returns.  The result is the computation of the
    fetch and the store after the call. *)
Definition fetchTxJson_default {W D} (net : Network W D)
    (localStorage : option (gmap string string)) (txId : string) (σ : store)
  : M W json * store :=
  let '(gateways, σ') := getGateways localStorage σ in
  (fetchTxJson net txId (default [] (σ' !! gateways)), σ').

(** *** The latest-state resolver *)

(** [node.block?.height ?? -1] *)
Definition heightOrMinus1 (n : ArweaveTxNode) : Z :=
  match block n with
  | Some b => height b
  | None => -1
  end.

(** [tagFirst(tagsToMap(node.tags), "Self-Id") ?? ""] *)
Definition selfIdOf (n : ArweaveTxNode) : string :=
  default "" (tagFirst (tagsToMap (Some (tags n))) "Self-Id").

(** One iteration of the loop over [edges]. *)
Definition groupStep (byId : Js.Map ArweaveTxNode) (edge : ArweaveTxEdge)
  : Js.Map ArweaveTxNode :=
  let node := node edge in
  let selfId := selfIdOf node in
  if negb (Js.truthy_string selfId) then byId
  else
    let existing := Js.get selfId byId in
    let nodeHeight := heightOrMinus1 node in
    let existingHeight := from_option heightOrMinus1 (-1)%Z existing in
    if negb (bool_decide (is_Some existing)) || (existingHeight <? nodeHeight)%Z
    then Js.set selfId node byId
    else byId.

(** [(a, b) => (b.block?.height ?? -1) - (a.block?.height ?? -1)] *)
Definition byHeightDesc (a b : ArweaveTxNode) : Z :=
  (heightOrMinus1 b - heightOrMinus1 a)%Z.

Definition groupLatestHeadsBySelfId (edges : list ArweaveTxEdge)
  : list ArweaveTxNode :=
  let byId := foldl groupStep [] edges in
  Js.sort byHeightDesc (Js.values byId).

End Arweave.

(** ** lib/schema.ts: the lenient snapshot parser *)

Module Schema.
Import Js.

(** [SnapshotEdgeType] is a union of five string literals. *)
Definition SnapshotEdgeType : Type := string.

Record IdeaRef : Type := { idea_id : string; tx_id : string }.

Record SnapshotEdge : Type := {
  from_idea_id : string;
  to_idea_id : string;
  type : SnapshotEdgeType
}.

Record SelfSnapshot : Type := {
  schema : string;
  self_id : string;
  parent_snapshot_tx : option string;
  ideas : list IdeaRef;
  edges : option (list SnapshotEdge);
  notes : option string;
  created_at : option string
}.

(** [{ ok: true; value: T } | { ok: false; error: string }] *)
Inductive ParseResult (T : Type) : Type :=
| Ok (value : T)
| Err (error : string).
Global Arguments Ok {_} _.
Global Arguments Err {_} _.

(** [typeof value === "object" && value !== null] *)
Definition isRecord (v : value) : bool :=
  match v with
  | Some (JArr _) | Some (JObj _) => true
  | _ => false
  end.

Definition getString (obj : value) (key : string) : option string :=
  as_string (prop obj key).

(** A string that is present and not empty, as [if (s)] tests it. *)
Definition nonEmpty (s : option string) : option string :=
  s ≫= λ s, if truthy_string s then Some s else None.

(** The body of the loop over [ideasRaw]: what is pushed, if anything. *)
Definition parseIdea (idea : json) : option IdeaRef :=
  if isRecord (Some idea) then
    match nonEmpty (getString (Some idea) "idea_id"),
          nonEmpty (getString (Some idea) "tx_id") with
    | Some idea_id, Some tx_id => Some {| idea_id := idea_id; tx_id := tx_id |}
    | _, _ => None
    end
  else None.

Definition allowed : gset string :=
  {[ "supports"; "contradicts"; "refines"; "depends-on"; "derived-from" ]}.

(** The body of the loop over [edgesRaw]. *)
Definition parseEdge (edge : json) : option SnapshotEdge :=
  if isRecord (Some edge) then
    match nonEmpty (getString (Some edge) "from_idea_id"),
          nonEmpty (getString (Some edge) "to_idea_id"),
          nonEmpty (getString (Some edge) "type") with
    | Some from_idea_id, Some to_idea_id, Some typeRaw =>
        if bool_decide (typeRaw ∈ allowed)
        then Some {| from_idea_id := from_idea_id; to_idea_id := to_idea_id;
                     type := typeRaw |}
        else None
    | _, _, _ => None
    end
  else None.

Definition parseSelfSnapshot (document : json) : ParseResult SelfSnapshot :=
  let json : value := Some document in
  if negb (isRecord json) then Err "SelfSnapshot is not an object" else
  let schema := getString json "schema" in
  if negb (bool_decide (schema = Some "afterlife.snapshot@1"))
  then Err ("Unexpected SelfSnapshot schema: " +:+ default "missing" schema) else
  match nonEmpty (getString json "self_id") with
  | None => Err "SelfSnapshot.self_id missing"
  | Some self_id =>
      match as_array (prop json "ideas") with
      | None => Err "SelfSnapshot.ideas missing"
      | Some ideasRaw =>
          let ideas : list IdeaRef := omap parseIdea ideasRaw in
          if bool_decide (length ideas = 0%nat)
          then Err "SelfSnapshot.ideas empty/invalid" else
          let edges : option (list SnapshotEdge) :=
            (λ edgesRaw : list Js.json, omap parseEdge edgesRaw)
              <$> as_array (prop json "edges") in
          let parent_snapshot_tx := getString json "parent_snapshot_tx" in
          let notes := getString json "notes" in
          let created_at := getString json "created_at" in
          Ok {| schema := "afterlife.snapshot@1";
                self_id := self_id;
                parent_snapshot_tx := parent_snapshot_tx;
                ideas := ideas;
                edges := edges;
                notes := notes;
                created_at := created_at |}
      end
  end.

(** *** The head parser *)

Module Head.
Record ForkOf : Type := { source_self_id : string; source_head_tx : string }.

(** [{ repo, homepage }]: either may be undefined, or an empty string. *)
Record Links : Type := { repo : option string; homepage : option string }.

Record SelfHead : Type := {
  schema : string;
  self_id : string;
  name : string;
  description : option string;
  snapshot_tx : string;
  fork_of : option ForkOf;
  owner_address : option string;
  updated_at : option string;
  links : option Links
}.
End Head.

(** The block that reads [json["fork_of"]]. *)
Definition parseForkOf (forkObj : value) : option Head.ForkOf :=
  if isRecord forkObj then
    match nonEmpty (getString forkObj "source_self_id"),
          nonEmpty (getString forkObj "source_head_tx") with
    | Some source_self_id, Some source_head_tx =>
        Some {| Head.source_self_id := source_self_id;
                Head.source_head_tx := source_head_tx |}
    | _, _ => None
    end
  else None.

(** The block that reads [json["links"]]. *)
Definition parseLinks (linksObj : value) : option Head.Links :=
  if isRecord linksObj then
    let repo := getString linksObj "repo" in
    let homepage := getString linksObj "homepage" in
    if truthy_string (default "" repo) || truthy_string (default "" homepage)
    then Some {| Head.repo := repo; Head.homepage := homepage |}
    else None
  else None.

Definition parseSelfHead (document : json) : ParseResult Head.SelfHead :=
  let json : value := Some document in
  if negb (isRecord json) then Err "SelfHead is not an object" else
  let schema := getString json "schema" in
  if negb (bool_decide (schema = Some "afterlife.selfhead@1"))
  then Err ("Unexpected SelfHead schema: " +:+ default "missing" schema) else
  let self_id := getString json "self_id" in
  let name := getString json "name" in
  let snapshot_tx := getString json "snapshot_tx" in
  match nonEmpty self_id with
  | None => Err "SelfHead.self_id missing"
  | Some self_id =>
      match nonEmpty name with
      | None => Err "SelfHead.name missing"
      | Some name =>
          match nonEmpty snapshot_tx with
          | None => Err "SelfHead.snapshot_tx missing"
          | Some snapshot_tx =>
              let description := getString json "description" in
              let owner_address := getString json "owner_address" in
              let updated_at := getString json "updated_at" in
              let fork_of := parseForkOf (prop json "fork_of") in
              let links := parseLinks (prop json "links") in
              Ok {| Head.schema := "afterlife.selfhead@1";
                    Head.self_id := self_id;
                    Head.name := name;
                    Head.snapshot_tx := snapshot_tx;
                    Head.description := description;
                    Head.fork_of := fork_of;
                    Head.owner_address := owner_address;
                    Head.updated_at := updated_at;
                    Head.links := links |}
          end
      end
  end.

Definition inferSelfNameFromTags (tags : option (list Tags.ArweaveTag))
  : option string :=
  let map := Tags.tagsToMap tags in
  Tags.tagFirst map "Self-Name".

End Schema.

(** ** skills/afterlife-verify/scripts/verify.mjs *)

Module Verify.
Import Tags Js Async.

Definition GRAPHQL_ENDPOINTS : list string :=
  ["https://arweave.net/graphql"; "https://ar-io.dev/graphql"].
Definition GATEWAYS : list string := ["https://arweave.net"; "https://ar-io.dev"].
Definition EDGE_TYPES : gset string :=
  {[ "supports"; "contradicts"; "refines"; "depends-on"; "derived-from" ]}.

(** The script has its own copies of [tagsToMap] and [tagFirst]; its
    [tags] parameter defaults to the empty list. *)
Definition tagsToMap (tags : list ArweaveTag) : TagMap := foldl add_tag [] tags.
Definition tagFirst (tags : TagMap) (name : string) : option string :=
  Js.get name tags ≫= head.

Definition hasAfterlifeNamespace (tags : TagMap) : bool :=
  bool_decide (tagFirst tags "App-Name" = Some "ar//afterlife")
  && bool_decide (tagFirst tags "App-Tag" = Some "afterlife")
  && bool_decide (tagFirst tags "Schema-Version" = Some "1").

(** [set.has(v)] for a set that holds strings only. *)
Definition has (set : gset string) (v : value) : bool :=
  match v with
  | Some (JStr s) => bool_decide (s ∈ set)
  | _ => false
  end.

(** [!v || typeof v !== "object"] *)
Definition notAnObject (v : value) : bool := negb (truthy v) || negb (typeof_object v).

Definition validateHeadPayload (payload : json) : list string :=
  let payload : value := Some payload in
  (if notAnObject payload then ["SelfHead payload is not an object"] else [])
  ++ (if negb (is_string (prop payload "schema") "afterlife.selfhead@1")
      then ["SelfHead schema must be afterlife.selfhead@1"] else [])
  ++ (if negb (typeof_string (prop payload "self_id"))
      then ["SelfHead.self_id missing"] else [])
  ++ (if negb (typeof_string (prop payload "name"))
      then ["SelfHead.name missing"] else [])
  ++ (if negb (typeof_string (prop payload "snapshot_tx"))
      then ["SelfHead.snapshot_tx missing"] else []).

(** The loop over [payload.ideas]: the errors pushed and the set [ids]. *)
Definition ideaStep (acc : list string * gset string) (it : json)
  : list string * gset string :=
  let '(errors, ids) := acc in
  if notAnObject (Some it)
  then (errors ++ ["SelfSnapshot.ideas contains invalid item"], ids)
  else
    match as_string (prop (Some it) "idea_id"), as_string (prop (Some it) "tx_id") with
    | Some idea_id, Some _ =>
        ((if bool_decide (idea_id ∈ ids)
          then errors ++ ["Duplicate idea_id in snapshot: " +:+ idea_id]
          else errors),
         {[ idea_id ]} ∪ ids)
    | _, _ => (errors ++ ["SelfSnapshot.ideas contains invalid item"], ids)
    end.

(** The loop over [payload.edges]. *)
Definition edgeStep (ids : gset string) (errors : list string) (edge : json)
  : list string :=
  if notAnObject (Some edge)
  then errors ++ ["SelfSnapshot.edges contains invalid item"]
  else
    let errors :=
      if negb (has ids (prop (Some edge) "from_idea_id"))
         || negb (has ids (prop (Some edge) "to_idea_id"))
      then errors ++ ["Edge references unknown idea ids: " +:+ JSON_stringify edge]
      else errors in
    if negb (has EDGE_TYPES (prop (Some edge) "type"))
    then errors ++ ["Invalid edge type: " +:+ ToString (prop (Some edge) "type")]
    else errors.

Definition validateSnapshotPayload (payload : json) : list string :=
  let payload : value := Some payload in
  let errors : list string :=
    (if notAnObject payload then ["SelfSnapshot payload is not an object"] else [])
    ++ (if negb (is_string (prop payload "schema") "afterlife.snapshot@1")
        then ["SelfSnapshot schema must be afterlife.snapshot@1"] else [])
    ++ (if negb (typeof_string (prop payload "self_id"))
        then ["SelfSnapshot.self_id missing"] else [])
    ++ (match as_array (prop payload "ideas") with
        | Some (_ :: _) => []
        | _ => ["SelfSnapshot.ideas missing/empty"]
        end) in
  let '(errors, ids) :=
    match as_array (prop payload "ideas") with
    | Some ideas => foldl ideaStep (errors, ∅) ideas
    | None => (errors, ∅)
    end in
  match as_array (prop payload "edges") with
  | Some edges => foldl (edgeStep ids) errors edges
  | None => errors
  end.


(** A node as the two queries of the script return it; the script reads
    its [id] and its [tags]. *)
Record TxNode : Type := { id : string; tags : list ArweaveTag }.

(** The [data] of a response: the nodes of [data.transactions.edges]. *)
Definition TxData : Type := list TxNode.

Module TxReport.
(** [tx_id], [entity] and [tags] are absent from the report of a
    transaction that was not found; [entity] is null when the tag is
    missing or empty. *)
Record t : Type := {
  ok : bool;
  tx_id : option json;
  entity : option string;
  tags : option TagMap;
  errors : list string;
  warnings : list string
}.
End TxReport.

Module IdeaReport.
Record t : Type := {
  idea_id : json;
  tx_id : json;
  ok : bool;
  errors : list string;
  warnings : list string
}.
End IdeaReport.

Module SelfReport.
(** The fields after [self_id] are those of the full report; the two
    early returns leave them out ([head_tx] is in the second). *)
Record t : Type := {
  ok : bool;
  self_id : string;
  discoverable : option bool;
  head_tx : option string;
  snapshot_tx : option string;
  idea_count : option nat;
  idea_reports : option (list IdeaReport.t);
  errors : list string;
  warnings : list string
}.
End SelfReport.

Definition TX_META_QUERY : string := "
query TxMeta($ids: [ID!]!) {
  transactions(ids: $ids) {
    edges {
      node {
        id
        owner { address }
        block { height timestamp }
        tags { name value }
      }
    }
  }
}
".

Definition LATEST_HEAD_QUERY : string := "
query LatestHeadForSelf($tags: [TagFilter!]) {
  transactions(tags: $tags, first: 1, sort: HEIGHT_DESC) {
    edges {
      node {
        id
        tags { name value }
      }
    }
  }
}
".

Definition tagFilter (name : string) (value : json) : json :=
  JObj [("name", JStr name); ("values", JArr [value])].

(** The report of [verifyTx] when the query finds no transaction. *)
Definition txNotFound (txId : json) : TxReport.t :=
  {| TxReport.ok := false;
     TxReport.tx_id := None;
     TxReport.entity := None;
     TxReport.tags := None;
     TxReport.errors := ["Tx not found: " +:+ ToString (Some txId)];
     TxReport.warnings := [] |}.

(** The rest of [verifyTx], once the tags and the payload are there. *)
Definition checkTx (txId : json) (tags : TagMap) (payload : json) : TxReport.t :=
  let errors : list string :=
    if negb (hasAfterlifeNamespace tags)
    then ["Missing required Afterlife namespace tags (App-Name/App-Tag/Schema-Version)"]
    else [] in
  let entity := tagFirst tags "Entity" in
  let errors :=
    if negb (truthy_string (default "" entity))
    then errors ++ ["Missing Entity tag"] else errors in
  let '(errors, warnings) :=
    if bool_decide (entity = Some "SelfHead")
    then (errors ++ validateHeadPayload payload, [])
    else if bool_decide (entity = Some "SelfSnapshot")
    then (errors ++ validateSnapshotPayload payload, [])
    else if bool_decide (entity = Some "Idea")
    then (errors,
          (if negb (is_string (prop (Some payload) "schema") "afterlife.idea@1")
           then ["Idea schema is not afterlife.idea@1"] else [])
          ++ (if negb (typeof_string (prop (Some payload) "idea_id"))
              then ["Idea payload missing idea_id"] else []))
    else (errors,
          ["Unknown or missing entity for tx " +:+ ToString (Some txId)]) in
  {| TxReport.ok := bool_decide (length errors = 0%nat);
     TxReport.tx_id := Some txId;
     TxReport.entity := entity ≫= λ e, if truthy_string e then Some e else None;
     TxReport.tags := Some tags;
     TxReport.errors := errors;
     TxReport.warnings := warnings |}.

(** What the loop over [ideaRefs] carries: [errors], [warnings] and
    [ideaReports]. *)
Abbreviation ideaAcc := (list string * list string * list IdeaReport.t)%type.

(** The three [push]es that follow [verifyTx] in the loop over [ideaRefs]. *)
Definition recordIdea (acc : ideaAcc) (ref : json) (report : TxReport.t) : ideaAcc :=
  let '(errors, warnings, ideaReports) := acc in
  let label :=
    "Idea " +:+ ToString (or_else (prop (Some ref) "idea_id") (prop (Some ref) "tx_id"))
            +:+ ": " in
  let errors :=
    if negb (TxReport.ok report)
    then errors ++ ((λ e, label +:+ e) <$> TxReport.errors report)
    else errors in
  let warnings := warnings ++ ((λ w, label +:+ w) <$> TxReport.warnings report) in
  (errors, warnings,
   ideaReports ++
     [ {| IdeaReport.idea_id :=
            default JNull (or_else (prop (Some ref) "idea_id") (Some JNull));
          IdeaReport.tx_id := default JNull (prop (Some ref) "tx_id");
          IdeaReport.ok := TxReport.ok report;
          IdeaReport.errors := TxReport.errors report;
          IdeaReport.warnings := TxReport.warnings report |} ]).

(** [{ tags }] for the tags that [getLatestHead] filters on. *)
Definition latestHeadVariables (selfId : string) : json :=
  JObj [("tags",
         JArr [ tagFilter "App-Name" (JStr "ar//afterlife");
                tagFilter "App-Tag" (JStr "afterlife");
                tagFilter "Schema-Version" (JStr "1");
                tagFilter "Entity" (JStr "SelfHead");
                tagFilter "Self-Id" (JStr selfId) ])].

Section Chain.
Context {W : Type} (net : Network W TxData).

(** The [try] block of [postGraphql]. *)
Definition postGraphqlAttempt (query : string) (variables : json) (endpoint : string)
  : M W TxData :=
  res ← fetch_post net endpoint {| query := query; variables := variables |};
  if negb (Async.ok res)
  then throw (mkError (endpoint +:+ " HTTP " +:+ pretty (status res)))
  else
    json ← read_json res;
    if bool_decide (0 < length (default [] (Async.errors json)))%nat
    then throw (mkError (String.concat "; " (default [] (Async.errors json))))
    else match data json with
         | None => throw (mkError (endpoint +:+ " missing data"))
         | Some d => mret d
         end.

Fixpoint postGraphql_from (query : string) (variables : json)
    (endpoints : list string) (lastErr : option Error) : M W TxData :=
  match endpoints with
  | [] => throw (default (mkError "GraphQL failed") lastErr)
  | endpoint :: rest =>
      try_catch (postGraphqlAttempt query variables endpoint)
        (λ err, postGraphql_from query variables rest (Some err))
  end.

Definition postGraphql (query : string) (variables : json) : M W TxData :=
  postGraphql_from query variables GRAPHQL_ENDPOINTS None.

(** The [try] block of [fetchJsonByTxId]. *)
Definition fetchJsonAttempt (txId : json) (gw : string) : M W json :=
  let url := gw +:+ "/" +:+ ToString (Some txId) in
  res ← fetch_get net url;
  if negb (Async.ok res)
  then throw (mkError (url +:+ " HTTP " +:+ pretty (status res)))
  else read_json res.

Fixpoint fetchJsonByTxId_from (txId : json) (gateways : list string)
    (lastErr : option Error) : M W json :=
  match gateways with
  | [] => throw (default (mkError ("Failed to fetch tx " +:+ ToString (Some txId)))
                         lastErr)
  | gw :: rest =>
      try_catch (fetchJsonAttempt txId gw)
        (λ err, fetchJsonByTxId_from txId rest (Some err))
  end.

Definition fetchJsonByTxId (txId : json) : M W json :=
  fetchJsonByTxId_from txId GATEWAYS None.

Definition getTxMeta (txIds : list json) : M W (list TxNode) :=
  postGraphql TX_META_QUERY (JObj [("ids", JArr txIds)]).

(** [data?.transactions?.edges?.[0]?.node || null] *)
Definition getLatestHead (selfId : string) : M W (option TxNode) :=
  data ← postGraphql LATEST_HEAD_QUERY (latestHeadVariables selfId);
  mret (head data).

Definition verifyTx (txId : json) : M W TxReport.t :=
  metas ← getTxMeta [txId];
  match head metas with
  | None => mret (txNotFound txId)
  | Some meta =>
      let tags := tagsToMap (tags meta) in
      payload ← fetchJsonByTxId txId;
      mret (checkTx txId tags payload)
  end.

(** The body of the loop over [ideaRefs]. *)
Definition verifyIdeaRef (acc : ideaAcc) (ref : json) : M W ideaAcc :=
  if negb (truthy (prop (Some ref) "tx_id")) then mret acc
  else
    report ← verifyTx (default JNull (prop (Some ref) "tx_id"));
    mret (recordIdea acc ref report).

Fixpoint verifyIdeaRefs (acc : ideaAcc) (ideaRefs : list json) : M W ideaAcc :=
  match ideaRefs with
  | [] => mret acc
  | ref :: rest => acc' ← verifyIdeaRef acc ref; verifyIdeaRefs acc' rest
  end.

Definition verifySelf (selfId : string) : M W SelfReport.t :=
  latest ← getLatestHead selfId;
  match latest ≫= λ n, if truthy_string (id n) then Some (id n) else None with
  | None =>
      mret {| SelfReport.ok := false;
              SelfReport.self_id := selfId;
              SelfReport.discoverable := None;
              SelfReport.head_tx := None;
              SelfReport.snapshot_tx := None;
              SelfReport.idea_count := None;
              SelfReport.idea_reports := None;
              SelfReport.errors := ["No discoverable SelfHead found for Self-Id"];
              SelfReport.warnings := [] |}
  | Some latest_id =>
      head ← verifyTx (JStr latest_id);
      let errors : list string :=
        if negb (TxReport.ok head)
        then (λ e, "Head: " +:+ e) <$> TxReport.errors head else [] in
      let warnings : list string := (λ w, "Head: " +:+ w) <$> TxReport.warnings head in
      headPayload ← fetchJsonByTxId (JStr latest_id);
      match as_string (prop (Some headPayload) "snapshot_tx") with
      | None =>
          mret {| SelfReport.ok := false;
                  SelfReport.self_id := selfId;
                  SelfReport.discoverable := None;
                  SelfReport.head_tx := Some latest_id;
                  SelfReport.snapshot_tx := None;
                  SelfReport.idea_count := None;
                  SelfReport.idea_reports := None;
                  SelfReport.errors := errors ++ ["Head payload missing snapshot_tx"];
                  SelfReport.warnings := warnings |}
      | Some snapshotTx =>
          snapshot ← verifyTx (JStr snapshotTx);
          let errors :=
            if negb (TxReport.ok snapshot)
            then errors ++ ((λ e, "Snapshot: " +:+ e) <$> TxReport.errors snapshot)
            else errors in
          let warnings :=
            warnings ++ ((λ w, "Snapshot: " +:+ w) <$> TxReport.warnings snapshot) in
          snapshotPayload ← fetchJsonByTxId (JStr snapshotTx);
          let ideaRefs := default [] (as_array (prop (Some snapshotPayload) "ideas")) in
          '(errors, warnings, ideaReports) ← verifyIdeaRefs (errors, warnings, []) ideaRefs;
          mret {| SelfReport.ok := bool_decide (length errors = 0%nat);
                  SelfReport.self_id := selfId;
                  SelfReport.discoverable := Some (truthy_string latest_id);
                  SelfReport.head_tx := Some latest_id;
                  SelfReport.snapshot_tx := Some snapshotTx;
                  SelfReport.idea_count := Some (length ideaReports);
                  SelfReport.idea_reports := Some ideaReports;
                  SelfReport.errors := errors;
                  SelfReport.warnings := warnings |}
      end
  end.
End Chain.

(** *** The command line *)

(** [args[key] = v] on the object that [{}] created.  The key [__proto__]
    names the accessor inherited from [Object.prototype], whose setter
    ignores a string: no own property is created for it. *)
Definition assign (key v : string) (args : gmap string string) : gmap string string :=
  if decide (key = "__proto__") then args else <[ key := v ]> args.

(** [part.slice(2)] *)
Definition slice2 (part : string) : string :=
  match part with
  | String _ (String _ rest) => rest
  | _ => ""
  end.

(** The loop of [parseArgs] from index [i] on, [argv] being the elements
    from that index.  After [args[key] = next; i += 1] the loop resumes
    behind [next]; after [continue] it resumes at the next element. *)
Fixpoint parseArgs_from (args : gmap string string) (argv : list string)
  : gmap string string :=
  match argv with
  | [] => args
  | part :: argv' =>
      if negb (String.prefix "--" part) then parseArgs_from args argv'
      else
        let key := slice2 part in
        match argv' with
        | next :: argv'' =>
            if negb (truthy_string next) || String.prefix "--" next
            then parseArgs_from (assign key "true" args) argv'
            else parseArgs_from (assign key next args) argv''
        | [] => assign key "true" args
        end
  end.

(** The loop starts at index 2. *)
Definition parseArgs (argv : list string) : gmap string string :=
  parseArgs_from ∅ (drop 2 argv).

(** What [run] prints: the report of [verifyTx] or that of [verifySelf]. *)
Inductive Result : Type :=
| TxResult (report : TxReport.t)
| SelfResult (report : SelfReport.t).

Definition Result_ok (result : Result) : bool :=
  match result with
  | TxResult report => TxReport.ok report
  | SelfResult report => SelfReport.ok report
  end.

Definition Result_errors (result : Result) : list string :=
  match result with
  | TxResult report => TxReport.errors report
  | SelfResult report => SelfReport.errors report
  end.

(** How the process ends: [stdout] holds the report whose JSON text was
    written there, [stderr] the message of the error printed there. *)
Record Outcome : Type := {
  stdout : option Result;
  stderr : option string;
  exitCode : Z
}.

Section Cli.
Context {W : Type} (net : Network W TxData).

(** [run] up to the report; the write to [stdout] and [process.exit(2)]
    that follow are in [main]. *)
Definition run (argv : list string) : M W Result :=
  let args := parseArgs argv in
  let txId := args !! "tx_id" in
  let selfId := args !! "self_id" in
  if negb (truthy_string (default "" txId)) && negb (truthy_string (default "" selfId))
  then throw (mkError "Pass --tx_id or --self_id")
  else if truthy_string (default "" txId) && truthy_string (default "" selfId)
  then throw (mkError "Use either --tx_id or --self_id, not both")
  else if truthy_string (default "" txId)
  then report ← verifyTx net (JStr (default "" txId)); mret (TxResult report)
  else report ← verifySelf net (default "" selfId); mret (SelfResult report).

(** The script: [run().catch(...)].  A process that is left to end by
    itself exits with code 0. *)
Definition main (argv : list string) (st : State W) : Outcome * State W :=
  match run argv st with
  | (inr result, st') =>
      ({| stdout := Some result;
          stderr := None;
          exitCode := if negb (Result_ok result) then 2 else 0 |}, st')
  | (inl err, st') =>
      ({| stdout := None; stderr := Some (message err); exitCode := 1 |}, st')
  end.
End Cli.

Global Arguments notAnObject : simpl never.
Global Arguments has : simpl never.

End Verify.

(** ** src/scripts/self.ts: helpers of the pages *)

Module Site.
Import Js Arweave.

(** The callback of the global [s.replace] over the ampersand, the two
    angle brackets, the double quote and the apostrophe: what one
    character is replaced with.  The five characters are ASCII, so the
    bytes of the UTF-8 encoding of any other character are left as they
    are. *)
Definition escapeChar (c : Ascii.ascii) : string :=
  if decide (c = "&"%char) then "&amp;"
  else if decide (c = "<"%char) then "&lt;"
  else if decide (c = ">"%char) then "&gt;"
  else if decide (c = Ascii.ascii_of_nat 34) then "&quot;"
  else if decide (c = "'"%char) then "&#39;"
  else String c "".

Fixpoint escapeHtml (s : string) : string :=
  match s with
  | EmptyString => EmptyString
  | String c s' => escapeChar c +:+ escapeHtml s'
  end.

(** [getGateways()[0]] is undefined when the array is empty, and
    [gw.replace] then raises a [TypeError]: [None]. *)
Definition txLink (localStorage : option (gmap string string)) (txId : string)
    (σ : store) : option string * store :=
  let '(gateways, σ') := getGateways localStorage σ in
  (gw ← (σ' !! gateways) ≫= head;
   Some (stripTrailingSlash gw +:+ "/" +:+ txId), σ').

End Site.

(** ** skills/afterlife-fetch/scripts/fetch.mjs *)

Module Fetch.
Import Tags Js Async.

Definition GRAPHQL_ENDPOINTS : list string :=
  ["https://arweave.net/graphql"; "https://ar-io.dev/graphql"].
Definition GATEWAYS : list string := ["https://arweave.net"; "https://ar-io.dev"].

(** The script's own [tagsToMap] and [tagFirst]. *)
Definition tagsToMap (tags : list ArweaveTag) : TagMap := foldl add_tag [] tags.
Definition tagFirst (tags : TagMap) (name : string) : option string :=
  Js.get name tags ≫= head.

(** [v || null] for a string that may be undefined. *)
Definition orNull (v : option string) : option string :=
  v ≫= λ s, if truthy_string s then Some s else None.

Module TagCheck.
Record t : Type := {
  appName : bool;
  appTag : bool;
  schemaVersion : bool;
  entity : option string;
  selfId : option string;
  discoverable : bool
}.
End TagCheck.

Definition tagCheck (tags : TagMap) : TagCheck.t :=
  let appName := bool_decide (tagFirst tags "App-Name" = Some "ar//afterlife") in
  let appTag := bool_decide (tagFirst tags "App-Tag" = Some "afterlife") in
  let schemaVersion := bool_decide (tagFirst tags "Schema-Version" = Some "1") in
  let entity := orNull (tagFirst tags "Entity") in
  let selfId := orNull (tagFirst tags "Self-Id") in
  {| TagCheck.appName := appName;
     TagCheck.appTag := appTag;
     TagCheck.schemaVersion := schemaVersion;
     TagCheck.entity := entity;
     TagCheck.selfId := selfId;
     TagCheck.discoverable :=
       appName && appTag && schemaVersion && bool_decide (is_Some entity) |}.

(** The [data] of a response: the nodes of [data.transactions.edges],
    each with its [id], [owner], [block] and [tags]. *)
Definition TxData : Type := list Arweave.ArweaveTxNode.

Definition TX_META_QUERY : string := "
query TxMeta($ids: [ID!]!) {
  transactions(ids: $ids) {
    edges {
      node {
        id
        owner { address }
        block { height timestamp }
        tags { name value }
      }
    }
  }
}
".

(** The [meta] of an entry of [ideas]. *)
Module Meta.
Record t : Type := {
  id : string;
  owner : Arweave.Owner;
  block : option Arweave.Block;
  tags : TagMap;
  tag_check : TagCheck.t
}.
End Meta.

(** An entry of [ideas]; [meta] is null when the query returned no node
    for the transaction, [payload] is null when its document could not
    be fetched. *)
Module Idea.
Record t : Type := {
  idea_id : json;
  tx_id : json;
  meta : option Meta.t;
  payload : json
}.
End Idea.

Definition metaOf (meta : Arweave.ArweaveTxNode) : Meta.t :=
  {| Meta.id := Arweave.id meta;
     Meta.owner := Arweave.owner meta;
     Meta.block := Arweave.block meta;
     Meta.tags := tagsToMap (Arweave.tags meta);
     Meta.tag_check := tagCheck (tagsToMap (Arweave.tags meta)) |}.

(** [new Map(ideaMetaNodes.map((m) => [m.id, m]))] *)
Definition indexById (ideaMetaNodes : list Arweave.ArweaveTxNode)
  : Js.Map Arweave.ArweaveTxNode :=
  foldl (λ byId m, Js.set (Arweave.id m) m byId) [] ideaMetaNodes.

Section Resolve.
Context {W : Type} (net : Network W TxData).

(** The [try] block of [postGraphql]. *)
Definition postGraphqlAttempt (query : string) (variables : json) (endpoint : string)
  : M W TxData :=
  res ← fetch_post net endpoint {| query := query; variables := variables |};
  if negb (Async.ok res)
  then throw (mkError (endpoint +:+ " HTTP " +:+ pretty (status res)))
  else
    json ← read_json res;
    if bool_decide (0 < length (default [] (Async.errors json)))%nat
    then throw (mkError (String.concat "; " (default [] (Async.errors json))))
    else match data json with
         | None => throw (mkError (endpoint +:+ " missing data"))
         | Some d => mret d
         end.

Fixpoint postGraphql_from (query : string) (variables : json)
    (endpoints : list string) (lastErr : option Error) : M W TxData :=
  match endpoints with
  | [] => throw (default (mkError "GraphQL failed") lastErr)
  | endpoint :: rest =>
      try_catch (postGraphqlAttempt query variables endpoint)
        (λ err, postGraphql_from query variables rest (Some err))
  end.

Definition postGraphql (query : string) (variables : json) : M W TxData :=
  postGraphql_from query variables GRAPHQL_ENDPOINTS None.

(** The [try] block of [fetchJsonByTxId]. *)
Definition fetchJsonAttempt (txId : json) (gw : string) : M W json :=
  let url := gw +:+ "/" +:+ ToString (Some txId) in
  res ← fetch_get net url;
  if negb (Async.ok res)
  then throw (mkError (url +:+ " HTTP " +:+ pretty (status res)))
  else read_json res.

Fixpoint fetchJsonByTxId_from (txId : json) (gateways : list string)
    (lastErr : option Error) : M W json :=
  match gateways with
  | [] => throw (default (mkError ("Failed to fetch tx " +:+ ToString (Some txId)))
                         lastErr)
  | gw :: rest =>
      try_catch (fetchJsonAttempt txId gw)
        (λ err, fetchJsonByTxId_from txId rest (Some err))
  end.

Definition fetchJsonByTxId (txId : json) : M W json :=
  fetchJsonByTxId_from txId GATEWAYS None.

Definition getTxMeta (txIds : list json) : M W (list Arweave.ArweaveTxNode) :=
  postGraphql TX_META_QUERY (JObj [("ids", JArr txIds)]).

(** The body of the loop over [selected] in [run]: the entry pushed, if
    any. *)
Definition ideaEntry (byId : Js.Map Arweave.ArweaveTxNode) (item : json)
  : M W (option Idea.t) :=
  if negb (truthy (prop (Some item) "tx_id")) then mret None
  else
    let tx_id := default JNull (prop (Some item) "tx_id") in
    let meta := as_string (Some tx_id) ≫= λ key, Js.get key byId in
    ideaPayload ← try_catch (fetchJsonByTxId tx_id) (λ _, mret JNull);
    mret (Some {| Idea.idea_id := default JNull (prop (Some item) "idea_id");
                  Idea.tx_id := tx_id;
                  Idea.meta := metaOf <$> meta;
                  Idea.payload := ideaPayload |}).

Fixpoint ideaEntries (byId : Js.Map Arweave.ArweaveTxNode) (ideas : list Idea.t)
    (selected : list json) : M W (list Idea.t) :=
  match selected with
  | [] => mret ideas
  | item :: rest =>
      entry ← ideaEntry byId item;
      ideaEntries byId (ideas ++ option_list entry) rest
  end.

(** The block of [run] that fills [ideas].  [ideasLimit] is the result of
    [Number.parseInt], [None] being NaN: [Math.max(0, NaN)] is NaN, and
    [slice(0, NaN)] is empty. *)
Definition collectIdeas (includeIdeas : bool) (ideasLimit : option Z)
    (snapshotJson : json) : M W (list Idea.t) :=
  match as_array (prop (Some snapshotJson) "ideas") with
  | Some ideas =>
      if includeIdeas then
        let selected := take (Z.to_nat (Z.max 0 (default 0%Z ideasLimit))) ideas in
        let ideaTxs := omap (λ it, as_string (prop (Some it) "tx_id")) selected in
        if bool_decide (0 < length ideaTxs)%nat then
          ideaMetaNodes ← getTxMeta (JStr <$> ideaTxs);
          let byId := indexById ideaMetaNodes in
          ideaEntries byId [] selected
        else mret []
      else mret []
  | None => mret []
  end.
End Resolve.

End Fetch.

(** ** scripts/publish-self.mjs *)

Module Publish.
Import Js Async.

Definition EDGE_TYPES : gset string :=
  {[ "supports"; "contradicts"; "refines"; "depends-on"; "derived-from" ]}.

(** [v == null] *)
Definition nullish (v : value) : bool :=
  match v with
  | None | Some JNull => true
  | _ => false
  end.

(** [typeof v !== "string" || !v.trim()] *)
Definition blank (v : value) : bool :=
  match as_string v with
  | Some s => negb (truthy_string (trim s))
  | None => true
  end.

(** The body of the loop over [input.ideas]: the error thrown, or the
    set [seen] after the iteration. *)
Definition checkIdea (seen : gset string) (idea : json) : Error + gset string :=
  if Verify.notAnObject (Some idea)
  then inl (mkError "Each idea must be an object")
  else if blank (prop (Some idea) "idea_id")
  then inl (mkError "Each idea requires idea_id")
  else
    let idea_id := ToString (prop (Some idea) "idea_id") in
    if Verify.has seen (prop (Some idea) "idea_id")
    then inl (mkError ("Duplicate idea_id: " +:+ idea_id))
    else if negb (truthy (prop (Some idea) "tx_id")) && nullish (prop (Some idea) "content")
    then inl (mkError ("Idea " +:+ idea_id +:+ " must include tx_id or content"))
    else inr ({[ idea_id ]} ∪ seen).

Fixpoint checkIdeas (seen : gset string) (ideas : list json) : Error + gset string :=
  match ideas with
  | [] => inr seen
  | idea :: rest =>
      match checkIdea seen idea with
      | inl err => inl err
      | inr seen' => checkIdeas seen' rest
      end
  end.

(** The body of the loop over [input.edges]. *)
Definition checkEdge (seen : gset string) (edge : json) : option Error :=
  if Verify.notAnObject (Some edge)
  then Some (mkError "Edge entries must be objects")
  else if negb (Verify.has seen (prop (Some edge) "from_idea_id"))
          || negb (Verify.has seen (prop (Some edge) "to_idea_id"))
  then Some (mkError ("Edge references unknown idea id: " +:+ JSON_stringify edge))
  else if negb (Verify.has EDGE_TYPES (prop (Some edge) "type"))
  then Some (mkError ("Invalid edge type '" +:+ ToString (prop (Some edge) "type") +:+ "'"))
  else None.

Fixpoint checkEdges (seen : gset string) (edges : list json) : option Error :=
  match edges with
  | [] => None
  | edge :: rest =>
      match checkEdge seen edge with
      | Some err => Some err
      | None => checkEdges seen rest
      end
  end.

(** [validateInput]: the error it throws, or nothing. *)
Definition validateInput (input : json) : option Error :=
  let input : value := Some input in
  if Verify.notAnObject input then Some (mkError "Input must be a JSON object")
  else if blank (prop input "self_id") then Some (mkError "input.self_id is required")
  else if blank (prop input "name") then Some (mkError "input.name is required")
  else
    match as_array (prop input "ideas") with
    | Some (idea :: ideas) =>
        match checkIdeas ∅ (idea :: ideas) with
        | inl err => Some err
        | inr seen =>
            match as_array (prop input "edges") with
            | Some edges => checkEdges seen edges
            | None => None
            end
        end
    | _ => Some (mkError "input.ideas must be a non-empty array")
    end.

(** An entry of [uploadedIdeas]; [idea_id] is what [idea.idea_id] holds,
    which is undefined when the idea has no such property. *)
Record UploadedIdea : Type := {
  idea_id : value;
  tx_id : json;
  published : bool
}.

(** What the script asks of the host for one idea: to write the file of
    its content (the file name holds a random UUID), and to run the save
    script on that file, which gives the parsed output of the script.
    Either can raise. *)
Record Host (W : Type) : Type := {
  writeIdeaFile : W → json → option Error * W;
  runSave : W → json → (Error + json) * W
}.
Global Arguments writeIdeaFile {_} _ _ _.
Global Arguments runSave {_} _ _ _.

Section Upload.
Context {W : Type} (host : Host W).

Definition write_idea_file (idea : json) : M W () :=
  λ st, let '(r, w) := writeIdeaFile host (world st) idea in
        match r with
        | Some e => (inl e, mkState w (trace st))
        | None => (inr (), mkState w (trace st))
        end.

Definition run_save (idea : json) : M W json :=
  λ st, let '(r, w) := runSave host (world st) idea in (r, mkState w (trace st)).

(** The body of the loop over [input.ideas] in [publish]: the entry it
    pushes.  [publish] reaches the loop only with an input that
    [validateInput] has accepted, so [idea] is an object or an array. *)
Definition uploadIdea (dryRun : bool) (idea : json) : M W UploadedIdea :=
  if truthy (prop (Some idea) "tx_id")
  then mret {| idea_id := prop (Some idea) "idea_id";
               tx_id := default JNull (prop (Some idea) "tx_id");
               published := false |}
  else
    _ ← write_idea_file idea;
    if dryRun
    then mret {| idea_id := prop (Some idea) "idea_id";
                 tx_id := JStr ("<dry-run:" +:+ ToString (prop (Some idea) "idea_id") +:+ ">");
                 published := false |}
    else
      result ← run_save idea;
      if nullish (Some result)
      then throw (mkError "Cannot read properties of null (reading 'tx_id')")
      else if negb (truthy (prop (Some result) "tx_id"))
      then throw (mkError ("Idea upload for " +:+ ToString (prop (Some idea) "idea_id")
                             +:+ " did not return tx_id"))
      else mret {| idea_id := prop (Some idea) "idea_id";
                   tx_id := default JNull (prop (Some result) "tx_id");
                   published := true |}.

Fixpoint uploadIdeas (dryRun : bool) (uploadedIdeas : list UploadedIdea)
    (ideas : list json) : M W (list UploadedIdea) :=
  match ideas with
  | [] => mret uploadedIdeas
  | idea :: rest =>
      uploaded ← uploadIdea dryRun idea;
      uploadIdeas dryRun (uploadedIdeas ++ [uploaded]) rest
  end.
End Upload.

(** A property of an object literal as [JSON.stringify] writes it: left
    out when its value is undefined. *)
Definition field (key : string) (v : value) : list (string * json) :=
  match v with
  | Some j => [(key, j)]
  | None => []
  end.

(** [typeof v === "string" ? v : undefined] *)
Definition stringOrUndefined (v : value) : value :=
  if typeof_string v then v else None.

(** [v ?? undefined] *)
Definition orUndefined (v : value) : value :=
  if nullish v then None else v.

(** [snapshotPayload], as the document that is uploaded. *)
Definition snapshotPayload (input : json) (uploadedIdeas : list UploadedIdea)
    (parentSnapshotTx : json) (created_at : string) : json :=
  let input : value := Some input in
  JObj ([("schema", JStr "afterlife.snapshot@1")]
        ++ field "self_id" (prop input "self_id")
        ++ [("parent_snapshot_tx", parentSnapshotTx);
            ("ideas",
             JArr ((λ it, JObj (field "idea_id" (idea_id it) ++ [("tx_id", tx_id it)]))
                     <$> uploadedIdeas));
            ("edges", match as_array (prop input "edges") with
                      | Some edges => JArr edges
                      | None => JArr []
                      end)]
        ++ field "notes" (stringOrUndefined (prop input "notes"))
        ++ [("created_at", JStr created_at)]).

(** [headPayload], as the document that is uploaded. *)
Definition headPayload (input : json) (snapshotTx : json) (updated_at : string) : json :=
  let input : value := Some input in
  JObj ([("schema", JStr "afterlife.selfhead@1")]
        ++ field "self_id" (prop input "self_id")
        ++ field "name" (prop input "name")
        ++ field "description" (stringOrUndefined (prop input "description"))
        ++ [("snapshot_tx", snapshotTx)]
        ++ field "fork_of" (orUndefined (prop input "fork_of"))
        ++ field "owner_address" (stringOrUndefined (prop input "owner_address"))
        ++ [("updated_at", JStr updated_at)]
        ++ field "links" (orUndefined (prop input "links"))).

End Publish.

(** ** skills/arweave-turbo-common/lib/common.mjs *)

Module Common.
Import Tags.

(** [merged.set(tag.name, { name: tag.name, value: tag.value })] for each
    tag of [[...baseTags, ...extraTags]], then [[...merged.values()]]. *)
Definition mergeTags (baseTags extraTags : list ArweaveTag) : list ArweaveTag :=
  let merged : Js.Map ArweaveTag :=
    foldl (λ merged tag, Js.set (name tag) {| name := name tag; value := value tag |} merged)
          [] (baseTags ++ extraTags) in
  Js.values merged.

End Common.

(** ** skills/arweave-turbo-fetch/scripts/fetch.mjs *)

Module TurboFetch.

(** [[...new Set(list)]]: a value is added to the set the first time it
    is met. *)
Definition setValues (items : list string) : list string :=
  foldl (λ set item, if bool_decide (item ∈ set) then set else set ++ [item]) [] items.

Definition uniqueGateways (primary : string) : list string :=
  let items := [primary; "https://arweave.net"; "https://ar-io.dev"] in
  setValues (Arweave.stripTrailingSlash <$> items).

End TurboFetch.

(** ** skills/arweave-turbo-save/scripts/save.mjs *)

Module Save.

(** [buffer.subarray(begin, end)]: a negative index counts from the end,
    and both indices are clamped to the buffer. *)
Definition subarray {A} (buffer : list A) (begin_ end_ : Z) : list A :=
  let len := Z.of_nat (length buffer) in
  let clamp i := if (i <? 0)%Z then Z.max (len + i) 0 else Z.min i len in
  let b := clamp begin_ in
  let e := clamp end_ in
  take (Z.to_nat (e - b)) (drop (Z.to_nat b) buffer).

(** The loop of [chunkOrFail] from [offset] on.  It runs for as long as
    [offset < buffer.length]; [fuel] bounds the number of iterations, and
    [None] is a loop that has not come to its end within that bound. *)
Fixpoint chunkLoop {A} (fuel : nat) (buffer : list A) (chunkSize offset : Z)
    (chunks : list (list A)) : option (list (list A)) :=
  match fuel with
  | O => None
  | S fuel' =>
      if (offset <? Z.of_nat (length buffer))%Z
      then chunkLoop fuel' buffer chunkSize (offset + chunkSize)
             (chunks ++ [subarray buffer offset
                           (Z.min (offset + chunkSize) (Z.of_nat (length buffer)))])
      else Some chunks
  end.

Definition chunkOrFail {A} (fuel : nat) (buffer : list A) (maxBytes : Z)
  : option (list (list A)) :=
  chunkLoop fuel buffer maxBytes 0 [].

End Save.

(** ** Vocabulary of the statements *)

(** The values of the tags called [n], in the order of the tag list. *)
Definition valuesOf (n : string) (tags : list Tags.ArweaveTag) : list string :=
  Tags.value <$> filter (λ t, Tags.name t = n) tags.

(** [w] stands in [nodes] at a place where every earlier record of its
    identity is strictly lower and every later one is at most as high: it is
    the first record of maximal height in its identity group. *)
Definition earliestHighest (nodes : list Arweave.ArweaveTxNode)
    (w : Arweave.ArweaveTxNode) : Prop :=
  ∃ l1 l2, nodes = l1 ++ w :: l2 ∧
    (∀ n, n ∈ l1 → Arweave.selfIdOf n = Arweave.selfIdOf w →
          (Arweave.heightOrMinus1 n < Arweave.heightOrMinus1 w)%Z) ∧
    (∀ n, n ∈ l2 → Arweave.selfIdOf n = Arweave.selfIdOf w →
          (Arweave.heightOrMinus1 n ≤ Arweave.heightOrMinus1 w)%Z).

(** The elements of [l], each at the place where it first occurs: the
    order in which a [Map] or a [Set] enumerates keys inserted in the order
    of [l]. *)
Fixpoint firstOccurrences (l : list string) : list string :=
  match l with
  | [] => []
  | x :: l' => x :: filter (λ y, y ≠ x) (firstOccurrences l')
  end.

(** The words of a command line, behind the two that [parseArgs] skips,
    made of options: a flag [--key], alone or followed by its value. *)
Definition argvOf (options : list (string * option string)) : list string :=
  flat_map (λ o, ("--" +:+ o.1) :: option_list o.2) options.

(** What the loop of [groupLatestHeadsBySelfId] maintains, [nodes] being the
    records seen so far. *)
Record byId_inv (nodes : list Arweave.ArweaveTxNode)
    (byId : Js.Map Arweave.ArweaveTxNode) : Prop := {
  inv_keys : NoDup (Js.keys byId);
  inv_entry : ∀ k v, Js.get k byId = Some v →
    k ≠ "" ∧ Arweave.selfIdOf v = k ∧ earliestHighest nodes v;
  inv_seen : ∀ n, n ∈ nodes → Arweave.selfIdOf n ≠ "" →
    is_Some (Js.get (Arweave.selfIdOf n) byId)
}.

(** The set [ids] that the strict validator has collected when it reaches
    the edges of [payload]. *)
Definition declaredIdeaIds (payload : Js.json) : gset string :=
  match Js.as_array (Js.prop (Some payload) "ideas") with
  | Some ideas => (foldl Verify.ideaStep ([], ∅) ideas).2
  | None => ∅
  end.

(** An entry of [ideas] that the strict validator takes: an object with a
    string [idea_id] and a string [tx_id]. *)
Definition strictIdeaId (it : Js.json) : option string :=
  if Verify.notAnObject (Some it) then None
  else match Js.as_string (Js.prop (Some it) "idea_id"),
             Js.as_string (Js.prop (Some it) "tx_id") with
       | Some idea_id, Some _ => Some idea_id
       | _, _ => None
       end.









(** ** Example inputs *)

Module Examples.
Import Js.

Definition ideaRef (idea_id tx_id : string) : json :=
  JObj [("idea_id", JStr idea_id); ("tx_id", JStr tx_id)].

Definition snapshotDoc (ideas edges : list json) : json :=
  JObj [("schema", JStr "afterlife.snapshot@1");
        ("self_id", JStr "self-abc");
        ("ideas", JArr ideas);
        ("edges", JArr edges)].

(** Two ideas share the id [mission]. *)
Definition duplicateIdeasDoc : json :=
  snapshotDoc [ideaRef "mission" "TX1"; ideaRef "mission" "TX2"] [].

(** The edge points at [ghost], which is not an idea of the snapshot. *)
Definition ghostEdge : json :=
  JObj [("from_idea_id", JStr "mission");
        ("to_idea_id", JStr "ghost");
        ("type", JStr "supports")].

Definition ghostEdgeDoc : json :=
  snapshotDoc [ideaRef "mission" "TX1"] [ghostEdge].

(** *** Networks *)
Import Async.

Definition okTrue : json := JObj [("ok", JBool true)].

Definition start : State () := mkState () [].

(** The network of the test in [arweave.test.ts]: the first gateway is
    down, the second serves [{ ok: true }]. *)
Definition firstGatewayDown {D} : Network () D := {|
  post := λ _ _ _, (Rejected (mkError "network down"), ());
  get := λ _ url,
    (if String.prefix "https://gw1/" url
     then Rejected (mkError "network down")
     else if String.prefix "https://gw2/" url
     then Responded (mkResponse true 200 (inr okTrue))
     else Rejected (mkError ("unexpected url: " +:+ url)), ())
|}.

(** The first gateway of each client answers with status 200 and a body
    that is not JSON; the second serves [{ ok: true }]. *)
Definition firstGatewayGarbled {D} : Network () D := {|
  post := λ _ _ _, (Rejected (mkError "network down"), ());
  get := λ _ url,
    (if String.prefix "https://gw1/" url || String.prefix "https://arweave.net/" url
     then Responded
            (mkResponse true 200 (inl (mkError "Unexpected token < in JSON at position 0")))
     else Responded (mkResponse true 200 (inr okTrue)), ())
|}.

(** No query endpoint can be reached. *)
Definition endpointsDown {D} : Network () D := {|
  post := λ _ endpoint _, (Rejected (mkError ("fetch failed: " +:+ endpoint)), ());
  get := λ _ _, (Rejected (mkError "network down"), ())
|}.

(** The first query endpoint answers 502, the second finds no record. *)
Definition secondEndpointEmpty : Network () Arweave.TransactionsData := {|
  post := λ _ endpoint _,
    (if String.eqb endpoint "https://arweave.net/graphql"
     then Responded (mkResponse false 502 (inl (mkError "Unexpected end of JSON input")))
     else Responded
            (mkResponse true 200
               (inr {| data := Some {| Arweave.transactions :=
                                         {| Arweave.edges := Some [] |} |};
                       errors := None |})), ());
  get := λ _ _, (Rejected (mkError "network down"), ())
|}.

(** *** Ledgers *)

Definition afterlifeTags (entity : string) : list Tags.ArweaveTag :=
  [ {| Tags.name := "App-Name"; Tags.value := "ar//afterlife" |};
    {| Tags.name := "App-Tag"; Tags.value := "afterlife" |};
    {| Tags.name := "Schema-Version"; Tags.value := "1" |};
    {| Tags.name := "Entity"; Tags.value := entity |};
    {| Tags.name := "Self-Id"; Tags.value := "self-abc" |} ].

Definition headDoc : json :=
  JObj [("schema", JStr "afterlife.selfhead@1");
        ("self_id", JStr "self-abc");
        ("name", JStr "My Self");
        ("snapshot_tx", JStr "SNAP")].

Definition chainSnapshotDoc : json :=
  snapshotDoc [ideaRef "mission" "IDEA1"; ideaRef "vision" "IDEA2"] [].

Definition ideaDoc (idea_id : string) : json :=
  JObj [("schema", JStr "afterlife.idea@1"); ("idea_id", JStr idea_id)].

(** A ledger behind well-behaved services: the query endpoint knows the
    tags of the transactions of [metas] and names [HEAD] as the latest
    head; the first gateway serves the documents of [docs] and answers 404
    for any other transaction, as does the second gateway for all. *)
Definition ledgerNet (metas : Js.Map (list Tags.ArweaveTag))
    (docs : list (string * json)) : Network () Verify.TxData := {|
  post := λ _ _ request,
    (Responded
       (mkResponse true 200
          (inr {| data := Some
                    (if String.eqb (query request) Verify.LATEST_HEAD_QUERY
                     then [ {| Verify.id := "HEAD";
                               Verify.tags := afterlifeTags "SelfHead" |} ]
                     else match variables request with
                          | JObj [(_, JArr [JStr txId])] =>
                              match Js.get txId metas with
                              | Some tags =>
                                  [ {| Verify.id := txId; Verify.tags := tags |} ]
                              | None => []
                              end
                          | _ => []
                          end);
                  errors := None |})), ());
  get := λ _ url,
    (match assoc url (prod_map (λ txId, "https://arweave.net/" +:+ txId) id <$> docs) with
     | Some doc => Responded (mkResponse true 200 (inr doc))
     | None => Responded (mkResponse false 404 (inl (mkError "Unexpected token N in JSON")))
     end, ())
|}.

(** Head, snapshot and the first idea are on the ledger; the transaction
    of the second idea is unknown to the query endpoint. *)
Definition ledgerWithUnknownIdea : Network () Verify.TxData :=
  ledgerNet
    [("HEAD", afterlifeTags "SelfHead");
     ("SNAP", afterlifeTags "SelfSnapshot");
     ("IDEA1", afterlifeTags "Idea")]
    [("HEAD", headDoc); ("SNAP", chainSnapshotDoc); ("IDEA1", ideaDoc "mission")].

(** The query endpoint knows the transaction of the second idea, but no
    gateway has its document. *)
Definition ledgerWithUnfetchableIdea : Network () Verify.TxData :=
  ledgerNet
    [("HEAD", afterlifeTags "SelfHead");
     ("SNAP", afterlifeTags "SelfSnapshot");
     ("IDEA1", afterlifeTags "Idea");
     ("IDEA2", afterlifeTags "Idea")]
    [("HEAD", headDoc); ("SNAP", chainSnapshotDoc); ("IDEA1", ideaDoc "mission")].



(** *** Heads, snapshots and inputs of the publisher *)

(** The head of a fork, with the link to its repository. *)
Definition forkedHeadDoc : json :=
  JObj [("schema", JStr "afterlife.selfhead@1");
        ("self_id", JStr "self-fork");
        ("name", JStr "My Fork");
        ("snapshot_tx", JStr "SNAP2");
        ("fork_of", JObj [("source_self_id", JStr "self-abc");
                          ("source_head_tx", JStr "HEAD")]);
        ("links", JObj [("repo", JStr "https://example.org/my-fork")])].

Definition supportsEdge : json :=
  JObj [("from_idea_id", JStr "mission");
        ("to_idea_id", JStr "vision");
        ("type", JStr "supports")].

Definition linkedSnapshotDoc : json :=
  snapshotDoc [ideaRef "mission" "IDEA1"; ideaRef "vision" "IDEA2"] [supportsEdge].

(** The query endpoint finds no head. *)
Definition noHeadYet : Network () Arweave.Latest.Data := {|
  post := λ _ _ _,
    (Responded
       (mkResponse true 200
          (inr {| data := Some {| Arweave.Latest.transactions :=
                                    {| Arweave.Latest.edges := Some [] |} |};
                  errors := None |})), ());
  get := λ _ _, (Rejected (mkError "network down"), ())
|}.

Definition headNode (id selfId : string) (height : Z) : Arweave.ArweaveTxNode :=
  {| Arweave.id := id;
     Arweave.owner := {| Arweave.address := "OWNER" |};
     Arweave.block := Some {| Arweave.height := height; Arweave.timestamp := 0 |};
     Arweave.tags := [ {| Tags.name := "Self-Id"; Tags.value := selfId |} ] |}.

Definition edgeOf (n : Arweave.ArweaveTxNode) : Arweave.ArweaveTxEdge :=
  {| Arweave.cursor := Arweave.id n; Arweave.node := n |}.

(** Two heads of [self-1], the later one higher, around a head of
    [self-2]. *)
Definition threeHeads : list Arweave.ArweaveTxEdge :=
  [ edgeOf (headNode "A" "self-1" 5);
    edgeOf (headNode "B" "self-2" 9);
    edgeOf (headNode "C" "self-1" 7) ].

(** The first idea is on the ledger already, the second comes with its
    content. *)
Definition publishInput : json :=
  JObj [("self_id", JStr "self-abc");
        ("name", JStr "My Self");
        ("ideas",
         JArr [ideaRef "mission" "IDEA1";
               JObj [("idea_id", JStr "vision");
                     ("content", JObj [("text", JStr "see far")])]]);
        ("edges", JArr [supportsEdge])].

(** A host on which every file is written and every upload gives the
    transaction [UPLOADED]. *)
Definition savingHost : Publish.Host () := {|
  Publish.writeIdeaFile := λ w _, (None, w);
  Publish.runSave := λ w _, (inr (JObj [("ok", JBool true); ("tx_id", JStr "UPLOADED")]), w)
|}.
End Examples.

(** * Properties *)

(** ** The ordered map *)

Section JsMapFacts.
Context {V : Type}.
Implicit Types (m : Js.Map V) (k : string) (v : V).

Lemma get_set_eq m k v : Js.get k (Js.set k v m) = Some v.
Proof.
  induction m as [|[k' v'] m IH]; simpl.
  - by rewrite decide_True.
  - destruct (decide (k = k')) as [->|Hne]; simpl.
    + by rewrite decide_True.
    + by rewrite decide_False.
Qed.

Lemma get_set_ne m k k' v : k ≠ k' → Js.get k' (Js.set k v m) = Js.get k' m.
Proof.
  intros Hne. induction m as [|[k0 v0] m IH]; simpl.
  - by rewrite decide_False.
  - destruct (decide (k = k0)) as [->|Hk]; simpl.
    + by rewrite !(decide_False (P := k' = k0)).
    + by rewrite IH.
Qed.

Lemma get_None m k : Js.get k m = None ↔ k ∉ Js.keys m.
Proof.
  unfold Js.keys. induction m as [|[k' v'] m IH]; simpl.
  - split; [intros _; apply not_elem_of_nil | done].
  - rewrite not_elem_of_cons. destruct (decide (k = k')); [|tauto].
    split; [done|]. by intros [? _].
Qed.

Lemma get_Some_elem m k v : Js.get k m = Some v → (k, v) ∈ m.
Proof.
  induction m as [|[k' v'] m IH]; simpl; [done|].
  destruct (decide (k = k')) as [->|Hne].
  - intros [= ->]. left.
  - intros. right. auto.
Qed.

Lemma elem_get_Some m k v : NoDup (Js.keys m) → (k, v) ∈ m → Js.get k m = Some v.
Proof.
  unfold Js.keys. induction m as [|[k' v'] m IH]; simpl.
  - intros _ H. by apply elem_of_nil in H.
  - rewrite NoDup_cons. intros [Hk Hnd] [[= <- <-]|Hin]%elem_of_cons.
    + by rewrite decide_True.
    + rewrite decide_False; [auto|].
      intros ->. apply Hk. apply list_elem_of_fmap. by exists (k', v).
Qed.

Lemma keys_set m k v :
  Js.keys (Js.set k v m) =
    if Js.get k m is Some _ then Js.keys m else Js.keys m ++ [k].
Proof.
  unfold Js.keys. induction m as [|[k' v'] m IH]; csimpl; [done|].
  destruct (decide (k = k')) as [->|Hne]; csimpl; [done|].
  rewrite IH. by destruct (Js.get k m).
Qed.

Lemma NoDup_keys_set m k v : NoDup (Js.keys m) → NoDup (Js.keys (Js.set k v m)).
Proof.
  intros Hnd. rewrite keys_set. destruct (Js.get k m) eqn:Hg; [done|].
  apply NoDup_app. split_and!; [done| |apply NoDup_singleton].
  intros x Hx ->%list_elem_of_singleton. by apply get_None in Hg.
Qed.

End JsMapFacts.

(** ** The tag index *)

Section TagsFacts.
Import Tags.
Implicit Types (tags : list ArweaveTag) (m : TagMap) (n : string).

Lemma valuesOf_cons n t tags :
  valuesOf n (t :: tags) =
    if decide (name t = n) then value t :: valuesOf n tags else valuesOf n tags.
Proof. unfold valuesOf. rewrite filter_cons. by case_decide. Qed.

Lemma get_foldl_add_tag tags m n :
  Js.get n (foldl add_tag m tags) =
    match valuesOf n tags with
    | [] => Js.get n m
    | vs => Some (default [] (Js.get n m) ++ vs)
    end.
Proof.
  revert m. induction tags as [|t tags IH]; intros m; [done|].
  simpl. rewrite IH, valuesOf_cons. unfold add_tag.
  case_decide as Hn.
  - subst n. rewrite get_set_eq. simpl.
    destruct (valuesOf (name t) tags); simpl; [done|].
    by rewrite <-app_assoc.
  - by rewrite get_set_ne.
Qed.

Lemma keys_foldl_add_tag tags m :
  NoDup (Js.keys m) →
  NoDup (Js.keys (foldl add_tag m tags)) ∧
  ∀ k, k ∈ Js.keys (foldl add_tag m tags) ↔ k ∈ Js.keys m ∨ k ∈ name <$> tags.
Proof.
  revert m. induction tags as [|t tags IH]; intros m Hnd; simpl.
  - split; [done|]. intros k. rewrite elem_of_nil. tauto.
  - destruct (IH (add_tag m t)) as [Hnd' Hk].
    { by apply NoDup_keys_set. }
    split; [done|]. intros k. rewrite Hk, elem_of_cons.
    unfold add_tag. rewrite keys_set.
    destruct (Js.get (name t) m) eqn:Hg.
    + apply get_Some_elem in Hg.
      assert (name t ∈ Js.keys m).
      { apply list_elem_of_fmap. by eexists (_, _). }
      naive_solver.
    + rewrite elem_of_app, list_elem_of_singleton. naive_solver.
Qed.
End TagsFacts.

(** ** The stable sort *)

Section SortFacts.
Context {A : Type} (cmp : A → A → Z).

Lemma sort_insert_perm x l : Js.sort_insert cmp x l ≡ₚ x :: l.
Proof.
  induction l as [|y l IH]; simpl; [done|].
  case_match; [|done]. rewrite IH. apply Permutation_swap.
Qed.

Lemma sort_perm l : Js.sort cmp l ≡ₚ l.
Proof.
  induction l as [|x l IH]; simpl; [done|].
  by rewrite sort_insert_perm, IH.
Qed.

(** A comparator [key b - key a] orders by descending key. *)
Context (key : A → Z) (Hcmp : ∀ a b, cmp a b = (key b - key a)%Z).

Lemma sort_insert_sorted x l :
  StronglySorted (λ a b, (key b ≤ key a)%Z) l →
  StronglySorted (λ a b, (key b ≤ key a)%Z) (Js.sort_insert cmp x l).
Proof.
  induction 1 as [|y l Hs IH Hy]; simpl.
  - repeat constructor.
  - rewrite Hcmp. case_match eqn:Hlt.
    + apply Z.ltb_lt in Hlt. constructor; [done|].
      rewrite sort_insert_perm. constructor; [lia|done].
    + apply Z.ltb_ge in Hlt. constructor; [by constructor|].
      constructor; [lia|]. eapply Forall_impl; [exact Hy|].
      simpl. intros. lia.
Qed.

Lemma sort_sorted l : StronglySorted (λ a b, (key b ≤ key a)%Z) (Js.sort cmp l).
Proof.
  induction l as [|x l IH]; simpl; [constructor|].
  by apply sort_insert_sorted.
Qed.
End SortFacts.

(** ** The latest-state resolver *)

Section ResolverFacts.
Import Tags Arweave.
Implicit Types (byId : Js.Map ArweaveTxNode) (nodes : list ArweaveTxNode).

Lemma byId_inv_nil : byId_inv [] [].
Proof.
  split; [constructor|done|]. intros n Hn. by apply elem_of_nil in Hn.
Qed.

Lemma earliestHighest_snoc_other nodes v x :
  selfIdOf x ≠ selfIdOf v → earliestHighest nodes v → earliestHighest (nodes ++ [x]) v.
Proof.
  intros Hne (l1 & l2 & -> & Hlt & Hle).
  exists l1, (l2 ++ [x]). split; [by rewrite <-app_assoc|]. split; [done|].
  intros n [Hn| ->%list_elem_of_singleton]%elem_of_app Hid; [auto|done].
Qed.

Lemma earliestHighest_snoc_le nodes v x :
  (heightOrMinus1 x ≤ heightOrMinus1 v)%Z →
  earliestHighest nodes v → earliestHighest (nodes ++ [x]) v.
Proof.
  intros Hx (l1 & l2 & -> & Hlt & Hle).
  exists l1, (l2 ++ [x]). split; [by rewrite <-app_assoc|]. split; [done|].
  intros n [Hn| ->%list_elem_of_singleton]%elem_of_app Hid; [auto|done].
Qed.

Lemma earliestHighest_le nodes v n :
  earliestHighest nodes v → n ∈ nodes → selfIdOf n = selfIdOf v →
  (heightOrMinus1 n ≤ heightOrMinus1 v)%Z.
Proof.
  intros (l1 & l2 & -> & Hlt & Hle).
  intros [Hn|[->|Hn]%elem_of_cons]%elem_of_app Hid; [|done|auto].
  specialize (Hlt n Hn Hid). lia.
Qed.

Lemma earliestHighest_elem nodes v : earliestHighest nodes v → v ∈ nodes.
Proof. intros (l1 & l2 & -> & _). set_solver. Qed.

Lemma byId_inv_step nodes byId edge :
  byId_inv nodes byId → byId_inv (nodes ++ [node edge]) (groupStep byId edge).
Proof.
  intros [Hnd Hentry Hseen]. unfold groupStep, Js.truthy_string.
  set (x := node edge). case_bool_decide as Hid; simpl.
  - (* the record carries an identity *)
    destruct (Js.get (selfIdOf x) byId) as [ex|] eqn:Hex; simpl.
    + destruct (Hentry _ _ Hex) as (_ & Hexid & Hexw).
      destruct (Z.ltb_spec (heightOrMinus1 ex) (heightOrMinus1 x)) as [Hlt|Hge].
      * (* strictly higher: it replaces the entry *)
        split.
        -- by apply NoDup_keys_set.
        -- intros k v. destruct (decide (selfIdOf x = k)) as [<-|Hk].
           ++ rewrite get_set_eq. intros [= <-]. split_and!; [done..|].
              exists nodes, []. split_and!; [done| |by intros ? ?%elem_of_nil].
              intros n Hn Hnid.
              pose proof (earliestHighest_le _ _ n Hexw Hn) as Hle.
              rewrite Hexid in Hle. specialize (Hle Hnid). lia.
           ++ rewrite get_set_ne by done. intros Hg.
              destruct (Hentry _ _ Hg) as (? & Hvid & Hvw). split_and!; [done..|].
              apply earliestHighest_snoc_other; [congruence|done].
        -- intros n [Hn| ->%list_elem_of_singleton]%elem_of_app Hnid.
           ++ destruct (decide (selfIdOf x = selfIdOf n)) as [<-|Hk].
              ** rewrite get_set_eq. eauto.
              ** rewrite get_set_ne by done. auto.
           ++ rewrite get_set_eq. eauto.
      * (* not higher: the entry stays *)
        split; [done| |].
        -- intros k v Hg. destruct (Hentry _ _ Hg) as (? & Hvid & Hvw).
           split_and!; [done..|].
           destruct (decide (selfIdOf x = k)) as [<-|Hk].
           ++ assert (v = ex) as -> by congruence.
              by apply earliestHighest_snoc_le.
           ++ apply earliestHighest_snoc_other; [congruence|done].
        -- intros n [Hn| ->%list_elem_of_singleton]%elem_of_app Hnid; [auto|].
           fold x. rewrite Hex. eauto.
    + (* first record of this identity *)
      split.
      * by apply NoDup_keys_set.
      * intros k v. destruct (decide (selfIdOf x = k)) as [<-|Hk].
        -- rewrite get_set_eq. intros [= <-]. split_and!; [done..|].
           exists nodes, []. split_and!; [done| |by intros ? ?%elem_of_nil].
           intros n Hn Hnid. destruct (Hseen n Hn) as [? Hsome]; [congruence|].
           congruence.
        -- rewrite get_set_ne by done. intros Hg.
           destruct (Hentry _ _ Hg) as (? & Hvid & Hvw). split_and!; [done..|].
           apply earliestHighest_snoc_other; [congruence|done].
      * intros n [Hn| ->%list_elem_of_singleton]%elem_of_app Hnid.
        -- destruct (decide (selfIdOf x = selfIdOf n)) as [<-|Hk].
           ++ rewrite get_set_eq. eauto.
           ++ rewrite get_set_ne by done. auto.
        -- rewrite get_set_eq. eauto.
  - (* no identity: the record is skipped *)
    split; [done| |].
    + intros k v Hg. destruct (Hentry _ _ Hg) as (? & Hvid & Hvw).
      split_and!; [done..|].
      apply earliestHighest_snoc_other; [congruence|done].
    + intros n [Hn| ->%list_elem_of_singleton]%elem_of_app Hnid; [auto|done].
Qed.

Lemma byId_inv_foldl edges nodes byId :
  byId_inv nodes byId →
  byId_inv (nodes ++ (node <$> edges)) (foldl groupStep byId edges).
Proof.
  revert nodes byId. induction edges as [|e edges IH]; intros nodes byId Hinv.
  - by rewrite app_nil_r.
  - simpl. rewrite cons_middle, app_assoc. apply IH. by apply byId_inv_step.
Qed.

Lemma byId_inv_group edges :
  byId_inv (node <$> edges) (foldl groupStep [] edges).
Proof. apply (byId_inv_foldl edges [] []), byId_inv_nil. Qed.

Lemma group_perm edges :
  groupLatestHeadsBySelfId edges ≡ₚ Js.values (foldl groupStep [] edges).
Proof. apply sort_perm. Qed.

Lemma elem_of_values byId v :
  NoDup (Js.keys byId) → v ∈ Js.values byId ↔ ∃ k, Js.get k byId = Some v.
Proof.
  intros Hnd. unfold Js.values. rewrite list_elem_of_fmap. split.
  - intros ([k v'] & -> & Hin). exists k. by apply elem_get_Some.
  - intros [k Hg]. exists (k, v). split; [done|]. by apply get_Some_elem.
Qed.

Lemma elem_of_group edges w :
  w ∈ groupLatestHeadsBySelfId edges ↔
  Js.get (selfIdOf w) (foldl groupStep [] edges) = Some w.
Proof.
  destruct (byId_inv_group edges) as [Hnd Hentry Hseen].
  rewrite group_perm, elem_of_values by done. split.
  - intros [k Hg]. destruct (Hentry _ _ Hg) as (_ & <- & _). done.
  - eauto.
Qed.

Lemma selfIds_of_values byId :
  (∀ k v, Js.get k byId = Some v → selfIdOf v = k) → NoDup (Js.keys byId) →
  selfIdOf <$> Js.values byId = Js.keys byId.
Proof.
  unfold Js.values, Js.keys. induction byId as [|[k v] m IH]; intros Hid Hnd; [done|].
  csimpl in *. apply NoDup_cons in Hnd as [Hk Hnd]. f_equal.
  - apply Hid. by rewrite decide_True.
  - apply IH; [|done]. intros k' v' Hg. apply Hid.
    rewrite decide_False; [done|]. intros ->.
    apply Hk, list_elem_of_fmap. exists (k, v'). split; [done|]. by apply get_Some_elem.
Qed.

Lemma group_selfIds edges :
  selfIdOf <$> groupLatestHeadsBySelfId edges ≡ₚ Js.keys (foldl groupStep [] edges).
Proof.
  destruct (byId_inv_group edges) as [Hnd Hentry Hseen].
  rewrite group_perm, selfIds_of_values; [done| |done].
  intros k v Hg. by destruct (Hentry _ _ Hg) as (_ & ? & _).
Qed.
End ResolverFacts.

Section Claims_Tags.
Import Tags.

(** C9.  Tag index round trip: for every name [n] and values [v1], [v2],
    the index built from [(n,v1),(n,v2)] answers [v1] for [n] and has one
    entry; for every tag list the first value of a name is the value of
    the earliest tag of that name, and the size of the index is the number
    of distinct tag names, not the number of tags. *)
Theorem tag_index_first_and_size :
  (∀ n v1 v2,
     let index := tagsToMap (Some [ {| name := n; value := v1 |};
                                    {| name := n; value := v2 |} ]) in
     tagFirst index n = Some v1 ∧ Js.size index = 1%nat) ∧
  (∀ tags n, tagFirst (tagsToMap (Some tags)) n = head (valuesOf n tags)) ∧
  (∀ tags, Js.size (tagsToMap (Some tags))
           = size (list_to_set (name <$> tags) : gset string)).
Proof.
  assert (Hfirst : ∀ tags n,
    tagFirst (tagsToMap (Some tags)) n = head (valuesOf n tags)).
  { intros tags n. unfold tagFirst, tagsToMap.
    rewrite get_foldl_add_tag. by destruct (valuesOf n tags). }
  assert (Hsize : ∀ tags, Js.size (tagsToMap (Some tags))
                          = size (list_to_set (name <$> tags) : gset string)).
  { intros tags. unfold tagsToMap.
    destruct (keys_foldl_add_tag tags []) as [Hnd Hk]; [constructor|].
    unfold Js.size. rewrite <-(length_fmap fst).
    change (foldl add_tag [] tags).*1 with (Js.keys (foldl add_tag [] tags)).
    rewrite <-(size_list_to_set (C := gset string)) by done. f_equal.
    apply set_eq. intros k. rewrite !elem_of_list_to_set, Hk.
    unfold Js.keys. simpl. rewrite elem_of_nil. tauto. }
  split_and!; [|done..].
  intros n v1 v2 index. subst index. split.
  - rewrite Hfirst. unfold valuesOf. simpl.
    rewrite !filter_cons. simpl. by rewrite !decide_True.
  - rewrite Hsize.
    assert ((list_to_set (name <$> [ {| name := n; value := v1 |};
                                      {| name := n; value := v2 |} ]) : gset string)
            = {[ n ]}) as -> by set_solver.
    apply size_singleton.
Qed.
End Claims_Tags.

Section Claims_Resolver.
Import Tags Arweave.

Lemma filter_length_NoDup_fmap {A B} `{EqDecision B} (f : A → B) (l : list A) b :
  NoDup (f <$> l) → b ∈ f <$> l → length (filter (λ a, f a = b) l) = 1%nat.
Proof.
  induction l as [|a l IH]; csimpl; intros Hnd Hin.
  - by apply elem_of_nil in Hin.
  - apply NoDup_cons in Hnd as [Ha Hnd]. rewrite filter_cons.
    case_decide as Hfa.
    + subst b. simpl. f_equal.
      rewrite (elem_of_nil_inv (filter (λ a0, f a0 = f a) l)); [done|].
      intros a' [Heq Ha']%list_elem_of_filter. apply Ha.
      rewrite <-Heq. apply list_elem_of_fmap. eauto.
    + apply elem_of_cons in Hin as [->|Hin]; [done|]. by apply IH.
Qed.

(** C1, amended.  For every input list of edges the resolver returns
    exactly one record for each non-empty identity that occurs in the
    input, the identity of a record being the value of its first Self-Id
    tag; every returned record is an input record with a non-empty
    identity whose height (a null block counting as -1) is the maximum of
    its identity group, so records without a Self-Id tag or with an empty
    one are dropped; and the output is sorted by descending height. *)
Theorem resolver_one_highest_per_identity (edges : list ArweaveTxEdge) :
  let nodes := node <$> edges in
  let out := groupLatestHeadsBySelfId edges in
  (∀ s, s ≠ "" → s ∈ selfIdOf <$> nodes →
        length (filter (λ w, selfIdOf w = s) out) = 1%nat) ∧
  (∀ w, w ∈ out →
        selfIdOf w ≠ "" ∧ w ∈ nodes ∧
        ∀ n, n ∈ nodes → selfIdOf n = selfIdOf w →
             (heightOrMinus1 n ≤ heightOrMinus1 w)%Z) ∧
  StronglySorted (λ a b, (heightOrMinus1 b ≤ heightOrMinus1 a)%Z) out.
Proof.
  intros nodes out. destruct (byId_inv_group edges) as [Hnd Hentry Hseen].
  split_and!.
  - intros s Hs (n & -> & Hn)%list_elem_of_fmap.
    apply filter_length_NoDup_fmap.
    + subst out. by rewrite group_selfIds.
    + subst out. rewrite group_selfIds.
      destruct (Hseen n Hn Hs) as [v Hv].
      destruct (decide (selfIdOf n ∈ Js.keys (foldl groupStep [] edges))) as [|Hnot];
        [done|].
      apply get_None in Hnot. congruence.
  - intros w Hw%elem_of_group.
    destruct (Hentry _ _ Hw) as (Hne & _ & Hwin). split_and!; [done| |].
    + by eapply earliestHighest_elem.
    + intros n Hn Hid. by eapply earliestHighest_le.
  - apply (sort_sorted byHeightDesc heightOrMinus1). done.
Qed.

(** C1 as stated fails: a record whose Self-Id tag has the empty value
    carries the tag, yet the resolver returns no record for that value. *)
Lemma resolver_empty_self_id_dropped :
  ¬ (∀ (edges : list ArweaveTxEdge) (s : string),
       (∃ e, e ∈ edges ∧
             tagFirst (tagsToMap (Some (tags (node e)))) "Self-Id" = Some s) →
       length (filter
                 (λ w, tagFirst (tagsToMap (Some (tags w))) "Self-Id" = Some s)
                 (groupLatestHeadsBySelfId edges)) = 1%nat).
Proof.
  intros H.
  set (e := {| cursor := "c1";
               node := {| id := "tx1"; owner := {| address := "o1" |};
                          block := Some {| height := 10; timestamp := 1 |};
                          tags := [ {| name := "Self-Id"; value := "" |} ] |} |}).
  specialize (H [e] "").
  assert (length (filter
                 (λ w, tagFirst (tagsToMap (Some (tags w))) "Self-Id" = Some "")
                 (groupLatestHeadsBySelfId [e])) = 1%nat) as Hone.
  { apply H. exists e. split; [set_solver|reflexivity]. }
  vm_compute in Hone. discriminate Hone.
Qed.


End Claims_Resolver.

(** ** The gateway list *)

Section Claims_Gateways.
Import Js Arweave.

Lemma new_array_fresh elements σ :
  ∃ r, new_array elements σ = (r, <[ r := elements ]> σ) ∧ σ !! r = None.
Proof.
  unfold new_array. eexists. split; [done|].
  apply not_elem_of_dom, is_fresh.
Qed.

(** C10.  In every store in which the default gateway array holds the two
    default gateways, [getGateways] returns a new array: its location is
    not one of the store, the store changes at that location only, so the
    default array still holds the two defaults afterwards.  The new array
    is never empty: it holds the trimmed override followed by the two
    defaults when an override is stored and is not empty once trimmed, and
    the two defaults alone when [localStorage] is undefined or the
    override is absent, empty or white space. *)
Theorem getGateways_fresh_nonempty
    (localStorage : option (gmap string string)) (σ : store) :
  σ !! DEFAULT_GATEWAYS = Some DEFAULT_GATEWAYS_init →
  ∃ r result,
    getGateways localStorage σ = (r, <[ r := result ]> σ) ∧
    σ !! r = None ∧
    <[ r := result ]> σ !! DEFAULT_GATEWAYS = Some DEFAULT_GATEWAYS_init ∧
    result ≠ [] ∧
    result =
      match localStorage ≫= (λ items, items !! "afterlifeGatewayUrl") with
      | Some override =>
          if bool_decide (trim override ≠ "")
          then trim override :: ["https://arweave.net"; "https://ar-io.dev"]
          else ["https://arweave.net"; "https://ar-io.dev"]
      | None => ["https://arweave.net"; "https://ar-io.dev"]
      end.
Proof.
  intros Hdef. unfold getGateways. rewrite Hdef. simpl.
  set (override := match localStorage with
                   | Some items => items !! "afterlifeGatewayUrl"
                   | None => None
                   end).
  assert (localStorage ≫= (λ items, items !! "afterlifeGatewayUrl") = override)
    as -> by (by destruct localStorage).
  assert (Hnew : ∀ elements, elements ≠ [] →
    ∃ r, new_array elements σ = (r, <[ r := elements ]> σ) ∧ σ !! r = None ∧
         <[ r := elements ]> σ !! DEFAULT_GATEWAYS = Some DEFAULT_GATEWAYS_init ∧
         elements ≠ []).
  { intros elements Hne. destruct (new_array_fresh elements σ) as (r & Hr & Hfresh).
    exists r. split_and!; [done..| |done].
    rewrite lookup_insert_ne; [done|]. intros ->. congruence. }
  destruct override as [o|]; simpl.
  - unfold truthy_string. case_bool_decide.
    + destruct (Hnew (trim o :: DEFAULT_GATEWAYS_init)) as (r & ? & ? & ? & ?); [done|].
      exists r, (trim o :: DEFAULT_GATEWAYS_init). by split_and!.
    + destruct (Hnew DEFAULT_GATEWAYS_init) as (r & ? & ? & ? & ?); [done|].
      exists r, DEFAULT_GATEWAYS_init. by split_and!.
  - destruct (Hnew DEFAULT_GATEWAYS_init) as (r & ? & ? & ? & ?); [done|].
    exists r, DEFAULT_GATEWAYS_init. by split_and!.
Qed.

Lemma getGateways_fresh_nonempty_witness :
  ∃ r result,
    getGateways (Some {[ "afterlifeGatewayUrl" := "  https://my.gateway  " ]})
                module_store
      = (r, <[ r := result ]> module_store) ∧
    module_store !! r = None ∧
    <[ r := result ]> module_store !! DEFAULT_GATEWAYS = Some DEFAULT_GATEWAYS_init ∧
    result ≠ [] ∧
    result = ["https://my.gateway"; "https://arweave.net"; "https://ar-io.dev"].
Proof.
  exact (getGateways_fresh_nonempty
           (Some {[ "afterlifeGatewayUrl" := "  https://my.gateway  " ]})
           module_store eq_refl).
Defined.
End Claims_Gateways.

(** ** The snapshot validators *)

Section ValidatorFacts.
Import Js Verify.

Lemma ideaStep_errors_app errs ids it :
  (ideaStep (errs, ids) it).1 = errs ++ (ideaStep ([], ids) it).1 ∧
  (ideaStep (errs, ids) it).2 = (ideaStep ([], ids) it).2.
Proof.
  unfold ideaStep. destruct (notAnObject (Some it)); simpl; [by split|].
  destruct (as_string (prop (Some it) "idea_id")); simpl; [|by split].
  destruct (as_string (prop (Some it) "tx_id")); simpl; [|by split].
  case_bool_decide; simpl; [by split|]. by rewrite app_nil_r.
Qed.

Lemma foldl_ideaStep_errors_app ideas errs ids :
  (foldl ideaStep (errs, ids) ideas).1 = errs ++ (foldl ideaStep ([], ids) ideas).1 ∧
  (foldl ideaStep (errs, ids) ideas).2 = (foldl ideaStep ([], ids) ideas).2.
Proof.
  revert errs ids. induction ideas as [|it ideas IH]; intros errs ids; cbn [foldl].
  - by rewrite app_nil_r.
  - destruct (ideaStep_errors_app errs ids it) as [He Hi].
    destruct (ideaStep (errs, ids) it) as [e1 i1].
    destruct (ideaStep ([], ids) it) as [e0 i0]. simpl in He, Hi. rewrite He, Hi.
    destruct (IH (errs ++ e0) i0) as [He1 Hi1].
    destruct (IH e0 i0) as [He0 Hi0].
    rewrite He1, Hi1, He0, Hi0. by rewrite app_assoc.
Qed.

Lemma edgeStep_errors_app ids errs edge :
  edgeStep ids errs edge = errs ++ edgeStep ids [] edge.
Proof.
  unfold edgeStep. destruct (notAnObject (Some edge)); [done|].
  destruct (negb (has ids (prop (Some edge) "from_idea_id"))
            || negb (has ids (prop (Some edge) "to_idea_id")));
    destruct (negb (has EDGE_TYPES (prop (Some edge) "type")));
    simpl; by rewrite ?app_nil_r, <-?app_assoc.
Qed.

Lemma foldl_edgeStep_errors_app ids edges errs :
  foldl (edgeStep ids) errs edges = errs ++ foldl (edgeStep ids) [] edges.
Proof.
  revert errs. induction edges as [|e edges IH]; intros errs; cbn [foldl].
  - by rewrite app_nil_r.
  - rewrite IH, (IH (edgeStep ids [] e)), app_assoc. f_equal.
    apply edgeStep_errors_app.
Qed.



Lemma ideaStep_strict ids it :
  ideaStep ([], ids) it =
    match strictIdeaId it with
    | Some idea_id =>
        (if bool_decide (idea_id ∈ ids)
         then ["Duplicate idea_id in snapshot: " +:+ idea_id] else [],
         {[ idea_id ]} ∪ ids)
    | None => (["SelfSnapshot.ideas contains invalid item"], ids)
    end.
Proof.
  unfold ideaStep, strictIdeaId. destruct (notAnObject (Some it)); [done|].
  destruct (as_string (prop (Some it) "idea_id")); [|done].
  destruct (as_string (prop (Some it) "tx_id")); [|done].
  by case_bool_decide.
Qed.

Lemma foldl_ideaStep_cons it ideas ids0 :
  foldl ideaStep ([], ids0) (it :: ideas) =
    ((ideaStep ([], ids0) it).1 ++ (foldl ideaStep ([], (ideaStep ([], ids0) it).2) ideas).1,
     (foldl ideaStep ([], (ideaStep ([], ids0) it).2) ideas).2).
Proof.
  cbn [foldl].
  destruct (foldl_ideaStep_errors_app ideas (ideaStep ([], ids0) it).1
              (ideaStep ([], ids0) it).2) as [He Hi].
  rewrite <-surjective_pairing in He, Hi.
  rewrite <-He, <-Hi. apply surjective_pairing.
Qed.

(** What the loop over the ideas has established when it pushed nothing. *)
Lemma foldl_ideaStep_clean ideas ids0 :
  (foldl ideaStep ([], ids0) ideas).1 = [] →
  ∃ idea_ids,
    Forall2 (λ it idea_id, strictIdeaId it = Some idea_id) ideas idea_ids ∧
    NoDup idea_ids ∧
    (∀ idea_id, idea_id ∈ idea_ids → idea_id ∉ ids0) ∧
    (foldl ideaStep ([], ids0) ideas).2 = list_to_set idea_ids ∪ ids0.
Proof.
  revert ids0. induction ideas as [|it ideas IH]; intros ids0.
  - intros _. exists []. split_and!; [constructor|constructor|set_solver|set_solver].
  - rewrite foldl_ideaStep_cons, ideaStep_strict. cbn [fst snd].
    destruct (strictIdeaId it) as [idea_id|] eqn:Hstrict; cbn [fst snd]; [|done].
    case_bool_decide as Hdup; [done|]. cbn [app].
    intros Hrest. destruct (IH _ Hrest) as (rest_ids & Hall & Hnd & Hfresh & Hset).
    exists (idea_id :: rest_ids). split_and!.
    + by constructor.
    + constructor; [|done]. intros Hin. apply (Hfresh _ Hin). set_solver.
    + intros x [->|Hx]%elem_of_cons; [done|]. specialize (Hfresh _ Hx). set_solver.
    + rewrite Hset. set_solver.
Qed.


(** The shape of the result of the strict validator: what it pushed
    before the loops, in the loop over the ideas, and in the loop over
    the edges. *)
Lemma validateSnapshotPayload_parts payload :
  validateSnapshotPayload payload =
    ((if notAnObject (Some payload)
      then ["SelfSnapshot payload is not an object"] else [])
     ++ (if negb (is_string (prop (Some payload) "schema") "afterlife.snapshot@1")
         then ["SelfSnapshot schema must be afterlife.snapshot@1"] else [])
     ++ (if negb (typeof_string (prop (Some payload) "self_id"))
         then ["SelfSnapshot.self_id missing"] else [])
     ++ (match as_array (prop (Some payload) "ideas") with
         | Some (_ :: _) => []
         | _ => ["SelfSnapshot.ideas missing/empty"]
         end))
    ++ (match as_array (prop (Some payload) "ideas") with
        | Some ideas => (foldl ideaStep ([], ∅) ideas).1
        | None => []
        end)
    ++ (match as_array (prop (Some payload) "edges") with
        | Some edges => foldl (edgeStep (declaredIdeaIds payload)) [] edges
        | None => []
        end).
Proof.
  unfold validateSnapshotPayload, declaredIdeaIds.
  set (errs0 := (_ ++ _ ++ _ ++ _)).
  destruct (as_array (prop (Some payload) "ideas")) as [ideas|].
  - destruct (foldl_ideaStep_errors_app ideas errs0 ∅) as [He Hi].
    destruct (foldl ideaStep (errs0, ∅) ideas) as [e1 i1]. simpl in *. subst.
    destruct (as_array (prop (Some payload) "edges")) as [edges|].
    + by rewrite foldl_edgeStep_errors_app, app_assoc.
    + by rewrite app_nil_r.
  - destruct (as_array (prop (Some payload) "edges")) as [edges|].
    + by rewrite foldl_edgeStep_errors_app.
    + by rewrite !app_nil_r.
Qed.
End ValidatorFacts.

Section ParserFacts.
Import Js Schema.

(** When the lenient parser accepts, and what it returns then. *)
Lemma parseSelfSnapshot_Ok doc v :
  parseSelfSnapshot doc = Ok v ↔
  isRecord (Some doc) = true ∧
  getString (Some doc) "schema" = Some "afterlife.snapshot@1" ∧
  ∃ self_id ideasRaw,
    nonEmpty (getString (Some doc) "self_id") = Some self_id ∧
    as_array (prop (Some doc) "ideas") = Some ideasRaw ∧
    omap parseIdea ideasRaw ≠ [] ∧
    v = {| schema := "afterlife.snapshot@1";
           self_id := self_id;
           parent_snapshot_tx := getString (Some doc) "parent_snapshot_tx";
           ideas := omap parseIdea ideasRaw;
           edges := (λ edgesRaw : list json, omap parseEdge edgesRaw)
                      <$> as_array (prop (Some doc) "edges");
           notes := getString (Some doc) "notes";
           created_at := getString (Some doc) "created_at" |}.
Proof.
  unfold parseSelfSnapshot.
  destruct (isRecord (Some doc)); simpl; [|by split; [|intros [? _]]].
  case_bool_decide as Hschema; simpl; [|by split; [|intros (_ & ? & _)]].
  destruct (nonEmpty (getString (Some doc) "self_id")) as [self_id|];
    [|by split; [|intros (_ & _ & ? & ? & ? & _)]].
  destruct (as_array (prop (Some doc) "ideas")) as [ideasRaw|];
    [|by split; [|intros (_ & _ & ? & ? & _ & ? & _)]].
  case_bool_decide as Hlen.
  - split; [done|]. intros (_ & _ & ? & ? & _ & [= <-] & Hne & _).
    by apply nil_length_inv in Hlen.
  - split.
    + intros [= <-]. split_and!; [done..|].
      exists self_id, ideasRaw. split_and!; [done..| |done].
      intros Hnil. apply Hlen. by rewrite Hnil.
    + intros (_ & _ & ? & ? & [= <-] & [= <-] & _ & ->). done.
Qed.

Lemma parseEdge_well_formed edge from_id to_id ty :
  getString (Some edge) "from_idea_id" = Some from_id → from_id ≠ "" →
  getString (Some edge) "to_idea_id" = Some to_id → to_id ≠ "" →
  getString (Some edge) "type" = Some ty → ty ∈ allowed →
  parseEdge edge =
    Some {| from_idea_id := from_id; to_idea_id := to_id; type := ty |}.
Proof.
  intros Hf Hfne Ht Htne Hty Hallowed. unfold parseEdge.
  assert (isRecord (Some edge) = true) as ->.
  { unfold getString, prop in Hf. by destruct edge. }
  assert (ty ≠ "") as Htyne.
  { intros ->. unfold allowed in Hallowed. set_solver. }
  rewrite Hf, Ht, Hty. unfold nonEmpty, truthy_string. simpl.
  by rewrite !bool_decide_true by done.
Qed.
End ParserFacts.

Section Claims_Validators.
Import Js Schema Verify Examples.

Lemma strictIdeaId_Some it idea_id :
  strictIdeaId it = Some idea_id →
  as_string (prop (Some it) "idea_id") = Some idea_id.
Proof.
  unfold strictIdeaId. destruct (notAnObject (Some it)); [done|].
  destruct (as_string (prop (Some it) "idea_id")); [|done].
  by destruct (as_string (prop (Some it) "tx_id")).
Qed.

Lemma validateSnapshotPayload_clean payload :
  validateSnapshotPayload payload = [] →
  ∃ ideas idea_ids,
    as_array (prop (Some payload) "ideas") = Some ideas ∧ ideas ≠ [] ∧
    Forall2 (λ it idea_id, strictIdeaId it = Some idea_id) ideas idea_ids ∧
    NoDup idea_ids.
Proof.
  rewrite validateSnapshotPayload_parts.
  intros [[_ [_ [_ Hne]%app_eq_nil]%app_eq_nil]%app_eq_nil [Hideas _]%app_eq_nil]%app_eq_nil.
  destruct (as_array (prop (Some payload) "ideas")) as [ideas|]; [|done].
  destruct (foldl_ideaStep_clean _ _ Hideas) as (idea_ids & Hall & Hnd & _).
  exists ideas, idea_ids. split_and!; [done| |done..]. by destruct ideas.
Qed.

(** C6, amended.  The strict validator [validateSnapshotPayload] rejects
    every snapshot whose ideas list contains two entries sharing the same
    [idea_id]: in every snapshot that it accepts the ideas list is not
    empty, each entry is an object with a string [idea_id] and a string
    [tx_id], and the [idea_id] values are pairwise distinct.  The lenient
    parser [parseSelfSnapshot] keeps the entries that have a non-empty
    string [idea_id] and [tx_id], in order, and ensures only that the list
    it returns is not empty. *)
Theorem snapshot_idea_ids_unique_in_strict_path :
  (∀ payload, validateSnapshotPayload payload = [] →
     ∃ ideas idea_ids,
       as_array (prop (Some payload) "ideas") = Some ideas ∧ ideas ≠ [] ∧
       Forall2 (λ it idea_id, strictIdeaId it = Some idea_id) ideas idea_ids ∧
       NoDup idea_ids) ∧
  (∀ payload ideas (i j : nat) x y v,
     as_array (prop (Some payload) "ideas") = Some ideas →
     i ≠ j → ideas !! i = Some x → ideas !! j = Some y →
     prop (Some x) "idea_id" = Some v → prop (Some y) "idea_id" = Some v →
     validateSnapshotPayload payload ≠ []) ∧
  (∀ doc v, parseSelfSnapshot doc = Ok v →
     ∃ ideasRaw,
       as_array (prop (Some doc) "ideas") = Some ideasRaw ∧
       ideas v = omap parseIdea ideasRaw ∧ ideas v ≠ []).
Proof.
  split_and!.
  - apply validateSnapshotPayload_clean.
  - intros payload ideas i j x y v Hideas Hij Hx Hy Hxv Hyv Hclean.
    destruct (validateSnapshotPayload_clean _ Hclean)
      as (ideas' & idea_ids & Hideas' & _ & Hall & Hnd).
    assert (ideas' = ideas) as -> by congruence.
    destruct (Forall2_lookup_l _ _ _ _ _ Hall Hx) as (a & Ha & Hsa).
    destruct (Forall2_lookup_l _ _ _ _ _ Hall Hy) as (b & Hb & Hsb).
    apply strictIdeaId_Some in Hsa, Hsb. rewrite Hxv in Hsa. rewrite Hyv in Hsb.
    assert (a = b) as -> by congruence.
    apply Hij. by eapply NoDup_lookup.
  - intros doc v (_ & _ & self_id & ideasRaw & _ & Hraw & Hne & ->)%parseSelfSnapshot_Ok.
    by exists ideasRaw.
Qed.

Lemma snapshot_idea_ids_unique_in_strict_path_witness :
  validateSnapshotPayload duplicateIdeasDoc ≠ [].
Proof.
  apply (proj1 (proj2 snapshot_idea_ids_unique_in_strict_path)
           duplicateIdeasDoc
           [ideaRef "mission" "TX1"; ideaRef "mission" "TX2"]
           0%nat 1%nat (ideaRef "mission" "TX1") (ideaRef "mission" "TX2")
           (JStr "mission"));
    [reflexivity|lia|reflexivity..].
Defined.

(** C6 as stated fails for the lenient parser: it accepts a snapshot in
    which two ideas share the id [mission] and returns both entries. *)
Lemma parseSelfSnapshot_accepts_duplicate_idea_ids :
  ∃ v, parseSelfSnapshot duplicateIdeasDoc = Ok v ∧
       ideas v = [ {| idea_id := "mission"; tx_id := "TX1" |};
                   {| idea_id := "mission"; tx_id := "TX2" |} ].
Proof. eexists. split; reflexivity. Qed.



End Claims_Validators.

(** ** The fallback loops *)

Section ClientFacts.
Import Js Async Arweave.
Context {W D : Type} (net : Network W D).
Implicit Types (st : State W) (lastErr : option Error).

(** An attempt asks the endpoint once, whatever comes of it. *)
Lemma graphqlAttempt_trace query variables endpoint st :
  trace (graphqlAttempt net query variables endpoint st).2 =
    trace st ++ [POST endpoint {| query := query; variables := variables |}].
Proof.
  unfold graphqlAttempt, fetchWithTimeout_post, fetch_post, mbind, M_bind, bind.
  destruct (post net (world st) endpoint _) as [[e|res] w]; [done|].
  destruct (ok res); simpl; [|done].
  unfold read_json. destruct (body res) as [e|json]; [done|]. simpl.
  case_bool_decide; [done|]. by destruct (data json).
Qed.

Lemma fetchTxJsonAttempt_trace txId gw st :
  trace (fetchTxJsonAttempt net txId gw st).2 =
    trace st ++ [GET (stripTrailingSlash gw +:+ "/" +:+ txId)].
Proof.
  unfold fetchTxJsonAttempt, fetchWithTimeout_get, fetch_get, mbind, M_bind, bind.
  destruct (get net (world st) _) as [[e|res] w]; [done|].
  destruct (ok res); simpl; [|done].
  unfold read_json. by destruct (body res).
Qed.

Lemma graphqlRequest_from_fail query variables endpoint rest lastErr st e st1 :
  graphqlAttempt net query variables endpoint st = (inl e, st1) →
  graphqlRequest_from net query variables (endpoint :: rest) lastErr st =
    graphqlRequest_from net query variables rest (Some e) (log (Sleep 120) st1).
Proof. intros H. simpl. unfold try_catch. by rewrite H. Qed.

Lemma graphqlRequest_from_ok query variables endpoint rest lastErr st d st1 :
  graphqlAttempt net query variables endpoint st = (inr d, st1) →
  graphqlRequest_from net query variables (endpoint :: rest) lastErr st = (inr d, st1).
Proof. intros H. simpl. unfold try_catch. by rewrite H. Qed.

Lemma fetchTxJson_from_fail txId gw rest lastErr st e st1 :
  fetchTxJsonAttempt net txId gw st = (inl e, st1) →
  fetchTxJson_from net txId (gw :: rest) lastErr st =
    fetchTxJson_from net txId rest (Some e) (log (Sleep 120) st1).
Proof. intros H. simpl. unfold try_catch. by rewrite H. Qed.

Lemma fetchTxJson_from_ok txId gw rest lastErr st doc st1 :
  fetchTxJsonAttempt net txId gw st = (inr doc, st1) →
  fetchTxJson_from net txId (gw :: rest) lastErr st = (inr doc, st1).
Proof. intros H. simpl. unfold try_catch. by rewrite H. Qed.

(** Running the loop over endpoints that all fail. *)
Lemma graphqlRequest_from_all_fail query variables endpoints :
  (∀ endpoint st, endpoint ∈ endpoints →
     ∃ e st1, graphqlAttempt net query variables endpoint st = (inl e, st1)) →
  ∀ lastErr st,
    let r := graphqlRequest_from net query variables endpoints lastErr st in
    trace r.2 = trace st ++
      flat_map (λ endpoint,
                  [POST endpoint {| query := query; variables := variables |};
                   Sleep 120]) endpoints ∧
    ∃ err, r.1 = inl err ∧
      (endpoints = [] → err = default (mkError "GraphQL request failed") lastErr) ∧
      (∀ pre last, endpoints = pre ++ [last] →
         (graphqlAttempt net query variables last
            (graphqlRequest_from net query variables pre lastErr st).2).1 = inl err).
Proof.
  induction endpoints as [|endpoint rest IH]; intros Hfail lastErr st r.
  - subst r. simpl. split; [by rewrite app_nil_r|].
    eexists. split_and!; [done..|]. by intros [|??] ? ?.
  - destruct (Hfail endpoint st) as (e & st1 & Hattempt); [left|].
    pose proof (graphqlAttempt_trace query variables endpoint st) as Htrace.
    rewrite Hattempt in Htrace. simpl in Htrace.
    subst r. rewrite (graphqlRequest_from_fail _ _ _ _ _ _ _ _ Hattempt).
    assert (Hrest : ∀ ep st', ep ∈ rest →
              ∃ e' st2, graphqlAttempt net query variables ep st' = (inl e', st2)).
    { intros ep st' Hin. apply Hfail. by right. }
    destruct (IH Hrest (Some e) (log (Sleep 120) st1))
      as (Htr & err & Herr & Hnil & Hlast).
    split.
    + rewrite Htr. simpl. rewrite Htrace. by rewrite <-!app_assoc.
    + exists err. split_and!; [done|done|].
      intros pre last Heq. destruct pre as [|p pre].
      * simpl in Heq. injection Heq as -> ->.
        change (graphqlRequest_from net query variables [] lastErr st).2 with st.
        rewrite Hattempt. simpl. by rewrite (Hnil eq_refl).
      * simpl in Heq. injection Heq as -> ->.
        rewrite (graphqlRequest_from_fail _ _ _ _ _ _ _ _ Hattempt). by apply Hlast.
Qed.

(** Running the loop over endpoints of which the first ones fail. *)
Lemma graphqlRequest_from_prefix_fails query variables pre rest :
  (∀ endpoint st, endpoint ∈ pre →
     ∃ e st1, graphqlAttempt net query variables endpoint st = (inl e, st1)) →
  ∀ lastErr st, ∃ lastErr',
    graphqlRequest_from net query variables (pre ++ rest) lastErr st =
      graphqlRequest_from net query variables rest lastErr'
        (graphqlRequest_from net query variables pre lastErr st).2.
Proof.
  induction pre as [|endpoint pre IH]; intros Hfail lastErr st.
  - by exists lastErr.
  - destruct (Hfail endpoint st) as (e & st1 & Hattempt); [left|].
    rewrite <-app_comm_cons, !(graphqlRequest_from_fail _ _ _ _ _ _ _ _ Hattempt).
    apply IH. intros ep st' Hin. apply Hfail. by right.
Qed.

Lemma fetchTxJson_from_prefix_fails txId pre rest :
  (∀ gw st, gw ∈ pre → ∃ e st1, fetchTxJsonAttempt net txId gw st = (inl e, st1)) →
  ∀ lastErr st, ∃ lastErr',
    fetchTxJson_from net txId (pre ++ rest) lastErr st =
      fetchTxJson_from net txId rest lastErr' (fetchTxJson_from net txId pre lastErr st).2.
Proof.
  induction pre as [|gw pre IH]; intros Hfail lastErr st.
  - by exists lastErr.
  - destruct (Hfail gw st) as (e & st1 & Hattempt); [left|].
    rewrite <-app_comm_cons, !(fetchTxJson_from_fail _ _ _ _ _ _ _ Hattempt).
    apply IH. intros g st' Hin. apply Hfail. by right.
Qed.

Lemma fetchTxJson_from_all_fail_trace txId gateways :
  (∀ gw st, gw ∈ gateways → ∃ e st1, fetchTxJsonAttempt net txId gw st = (inl e, st1)) →
  ∀ lastErr st,
    trace (fetchTxJson_from net txId gateways lastErr st).2 = trace st ++
      flat_map (λ gw, [GET (stripTrailingSlash gw +:+ "/" +:+ txId); Sleep 120]) gateways.
Proof.
  induction gateways as [|gw rest IH]; intros Hfail lastErr st.
  - simpl. by rewrite app_nil_r.
  - destruct (Hfail gw st) as (e & st1 & Hattempt); [left|].
    pose proof (fetchTxJsonAttempt_trace txId gw st) as Htrace.
    rewrite Hattempt in Htrace. simpl in Htrace.
    rewrite (fetchTxJson_from_fail _ _ _ _ _ _ _ Hattempt), IH.
    + simpl. rewrite Htrace. by rewrite <-!app_assoc.
    + intros g st' Hin. apply Hfail. by right.
Qed.
End ClientFacts.

Section Claims_Clients.
Import Js Async Arweave Examples.

Lemma requests_attempts {A} (f : A → event) (l : list A) (t : list event) :
  (∀ a, is_request (f a) = true) →
  requests (t ++ flat_map (λ a, [f a; Sleep 120]) l) = requests t ++ (f <$> l).
Proof.
  intros Hf. unfold requests. rewrite filter_app. f_equal.
  induction l as [|a l IH]; [done|]. cbn [flat_map app].
  rewrite filter_cons_True by (by rewrite Hf).
  rewrite filter_cons_False by (simpl; auto). csimpl. by rewrite IH.
Qed.

(** C7.  When each of the N endpoints fails, whatever the state of the
    world, [graphqlRequest] asks each endpoint once, in the order of the
    list, sleeping after each failure, and then raises; for N at least 1
    the error raised is the error of the attempt on the last endpoint,
    made in the state that the earlier attempts have left. *)
Theorem graphqlRequest_exhaustion {W D} (net : Network W D)
    (query : string) (variables : json) (endpoints : list string) (st : State W) :
  (∀ endpoint st', endpoint ∈ endpoints →
     ∃ e st1, graphqlAttempt net query variables endpoint st' = (inl e, st1)) →
  let attempt endpoint := POST endpoint {| query := query; variables := variables |} in
  let r := graphqlRequest net query variables endpoints st in
  requests (trace r.2) = requests (trace st) ++ (attempt <$> endpoints) ∧
  trace r.2 = trace st ++ flat_map (λ endpoint, [attempt endpoint; Sleep 120]) endpoints ∧
  ∃ err, r.1 = inl err ∧
    (endpoints = [] → err = mkError "GraphQL request failed") ∧
    (∀ pre last, endpoints = pre ++ [last] →
       (graphqlAttempt net query variables last
          (graphqlRequest net query variables pre st).2).1 = inl err).
Proof.
  intros Hfail attempt r.
  destruct (graphqlRequest_from_all_fail net query variables endpoints Hfail None st)
    as (Htrace & err & Herr & Hnil & Hlast).
  split_and!.
  - subst r. unfold graphqlRequest. rewrite Htrace.
    by apply (requests_attempts attempt).
  - done.
  - by exists err.
Qed.

Lemma graphqlRequest_exhaustion_witness :
  let net : Network () TransactionsData := endpointsDown in
  let attempt endpoint :=
    POST endpoint {| query := LIST_HEADS_QUERY; variables := JObj [] |} in
  let r := graphqlRequest net LIST_HEADS_QUERY (JObj []) DEFAULT_GRAPHQL_ENDPOINTS start in
  requests (trace r.2) = requests (trace start) ++ (attempt <$> DEFAULT_GRAPHQL_ENDPOINTS) ∧
  trace r.2 = trace start ++
    flat_map (λ endpoint, [attempt endpoint; Sleep 120]) DEFAULT_GRAPHQL_ENDPOINTS ∧
  ∃ err, r.1 = inl err ∧
    (DEFAULT_GRAPHQL_ENDPOINTS = [] → err = mkError "GraphQL request failed") ∧
    (∀ pre last, DEFAULT_GRAPHQL_ENDPOINTS = pre ++ [last] →
       (graphqlAttempt net LIST_HEADS_QUERY (JObj []) last
          (graphqlRequest net LIST_HEADS_QUERY (JObj []) pre start).2).1 = inl err).
Proof.
  apply (graphqlRequest_exhaustion (endpointsDown (D := TransactionsData))
           LIST_HEADS_QUERY (JObj []) DEFAULT_GRAPHQL_ENDPOINTS start).
  intros endpoint st' _. eexists _, _. reflexivity.
Defined.

(** C8.  When the attempts on the first endpoints fail and the attempt on
    the next one succeeds, [graphqlRequest] and [fetchTxJson] return the
    data of that endpoint and have asked exactly those endpoints, in
    order, and none after it; with one failing endpoint before the
    successful one that is two requests.  A response whose data holds
    zero records is a success: [listSelfHeadEdges] returns the empty list
    after a single request. *)
Theorem fallback_stops_at_first_success {W : Type} :
  (∀ D (net : Network W D) query variables pre endpoint rest st d,
     (∀ ep st', ep ∈ pre →
        ∃ e st1, graphqlAttempt net query variables ep st' = (inl e, st1)) →
     (graphqlAttempt net query variables endpoint
        (graphqlRequest net query variables pre st).2).1 = inr d →
     let attempt ep := POST ep {| query := query; variables := variables |} in
     let r := graphqlRequest net query variables (pre ++ endpoint :: rest) st in
     r.1 = inr d ∧
     requests (trace r.2) = requests (trace st) ++ (attempt <$> pre ++ [endpoint])) ∧
  (∀ D (net : Network W D) txId pre gw rest st doc,
     (∀ g st', g ∈ pre → ∃ e st1, fetchTxJsonAttempt net txId g st' = (inl e, st1)) →
     (fetchTxJsonAttempt net txId gw (fetchTxJson net txId pre st).2).1 = inr doc →
     let attempt g := GET (stripTrailingSlash g +:+ "/" +:+ txId) in
     let r := fetchTxJson net txId (pre ++ gw :: rest) st in
     r.1 = inr doc ∧
     requests (trace r.2) = requests (trace st) ++ (attempt <$> pre ++ [gw])) ∧
  (∀ (net : Network W TransactionsData) first after st status declared w',
     let request :=
       {| query := LIST_HEADS_QUERY;
          variables := JObj [("tags", JArr commonAfterlifeHeadTags);
                             ("first", JNum first);
                             ("after", from_option JStr JNull after)] |} in
     post net (world st) "https://arweave.net/graphql" request =
       (Responded
          (mkResponse true status
             (inr {| data := Some {| transactions := {| edges := Some [] |} |};
                     errors := declared |})), w') →
     length (default [] declared) = 0%nat →
     listSelfHeadEdges net first after st =
       (inr [], mkState w' (trace st ++ [POST "https://arweave.net/graphql" request]))).
Proof.
  split_and!.
  - intros D net query variables pre endpoint rest st d Hfail Hok attempt r.
    subst r. unfold graphqlRequest in *.
    destruct (graphqlRequest_from_prefix_fails net query variables pre
                (endpoint :: rest) Hfail None st) as [lastErr' ->].
    destruct (graphqlRequest_from_all_fail net query variables pre Hfail None st)
      as (Htrace & _).
    pose proof (graphqlAttempt_trace net query variables endpoint
                  (graphqlRequest_from net query variables pre None st).2) as Hatt.
    destruct (graphqlAttempt net query variables endpoint _) as [[e|d'] st1] eqn:Hrun;
      simpl in Hok; [done|]. injection Hok as ->.
    rewrite (graphqlRequest_from_ok _ _ _ _ _ _ _ _ _ Hrun). split; [done|].
    simpl in *. rewrite Hatt, Htrace. unfold requests at 1.
    rewrite filter_app. fold (requests (trace st ++
      flat_map (λ ep, [attempt ep; Sleep 120]) pre)).
    rewrite (requests_attempts attempt) by done.
    rewrite fmap_app, app_assoc. done.
  - intros D net txId pre gw rest st doc Hfail Hok attempt r.
    subst r. unfold fetchTxJson in *.
    destruct (fetchTxJson_from_prefix_fails net txId pre (gw :: rest) Hfail None st)
      as [lastErr' ->].
    pose proof (fetchTxJson_from_all_fail_trace net txId pre Hfail None st) as Htrace.
    pose proof (fetchTxJsonAttempt_trace net txId gw
                  (fetchTxJson_from net txId pre None st).2) as Hatt.
    destruct (fetchTxJsonAttempt net txId gw _) as [[e|doc'] st1] eqn:Hrun;
      simpl in Hok; [done|]. injection Hok as ->.
    rewrite (fetchTxJson_from_ok _ _ _ _ _ _ _ _ Hrun). split; [done|].
    simpl in *. rewrite Hatt, Htrace. unfold requests at 1.
    rewrite filter_app. fold (requests (trace st ++
      flat_map (λ g, [attempt g; Sleep 120]) pre)).
    rewrite (requests_attempts attempt) by done.
    rewrite fmap_app, app_assoc. done.
  - intros net first after st status declared w' request Hpost Hnone.
    assert (graphqlAttempt net LIST_HEADS_QUERY (variables request)
              "https://arweave.net/graphql" st =
            (inr {| transactions := {| edges := Some [] |} |},
             mkState w' (trace st ++ [POST "https://arweave.net/graphql" request])))
      as Hrun.
    { unfold graphqlAttempt, fetchWithTimeout_post, fetch_post, mbind, M_bind, bind.
      change {| query := LIST_HEADS_QUERY; variables := variables request |} with request.
      rewrite Hpost. simpl. unfold read_json. simpl.
      rewrite bool_decide_false by lia. done. }
    unfold listSelfHeadEdges, graphqlRequest, DEFAULT_GRAPHQL_ENDPOINTS.
    unfold mbind at 1, M_bind, bind.
    change (JObj _) with (variables request).
    by rewrite (graphqlRequest_from_ok _ _ _ _ _ _ _ _ _ Hrun).
Qed.

Lemma fallback_stops_at_first_success_witness :
  let r := fetchTxJson (firstGatewayDown (D := ())) "TX"
             ["https://gw1"; "https://gw2"] start in
  r.1 = inr okTrue ∧
  requests (trace r.2) = [GET "https://gw1/TX"; GET "https://gw2/TX"].
Proof.
  apply (proj1 (proj2 (fallback_stops_at_first_success (W := ())))
           unit firstGatewayDown "TX" ["https://gw1"] "https://gw2" [] start okTrue).
  - intros g st' ->%list_elem_of_singleton. eexists _, _. reflexivity.
  - reflexivity.
Defined.

(** C4, amended.  A body that fails to parse after a gateway answered
    with a success status is one more failed attempt: [fetchTxJson] and
    [fetchJsonByTxId] keep the parse error as the last error and go on
    with the gateways that remain ([fetchTxJson] after its pause); the
    parse error is raised only when no gateway remains. *)
Theorem parse_failure_falls_back_to_next_gateway {W : Type} :
  (∀ D (net : Network W D) txId gw rest lastErr st status e w',
     let url := stripTrailingSlash gw +:+ "/" +:+ txId in
     get net (world st) url = (Responded (mkResponse true status (inl e)), w') →
     fetchTxJson_from net txId (gw :: rest) lastErr st =
       fetchTxJson_from net txId rest (Some e)
         (mkState w' (trace st ++ [GET url; Sleep 120]))) ∧
  (∀ (net : Network W Verify.TxData) txId gw rest lastErr st status e w',
     let url := gw +:+ "/" +:+ ToString (Some txId) in
     get net (world st) url = (Responded (mkResponse true status (inl e)), w') →
     Verify.fetchJsonByTxId_from net txId (gw :: rest) lastErr st =
       Verify.fetchJsonByTxId_from net txId rest (Some e)
         (mkState w' (trace st ++ [GET url]))) ∧
  (∀ D (net : Network W D) txId e st,
     fetchTxJson_from net txId [] (Some e) st = (inl e, st)) ∧
  (∀ (net : Network W Verify.TxData) txId e st,
     Verify.fetchJsonByTxId_from net txId [] (Some e) st = (inl e, st)).
Proof.
  split_and!; [| |done..].
  - intros D net txId gw rest lastErr st status e w' url Hget.
    erewrite fetchTxJson_from_fail.
    2:{ unfold fetchTxJsonAttempt, fetchWithTimeout_get, fetch_get, mbind, M_bind, bind.
        fold url. rewrite Hget. simpl. reflexivity. }
    unfold log. simpl. by rewrite <-app_assoc.
  - intros net txId gw rest lastErr st status e w' url Hget.
    simpl. unfold try_catch, Verify.fetchJsonAttempt, fetch_get, mbind, M_bind, bind.
    fold url. rewrite Hget. simpl. reflexivity.
Qed.

Lemma parse_failure_falls_back_to_next_gateway_witness :
  fetchTxJson_from (firstGatewayGarbled (D := ())) "TX"
      ["https://gw1"; "https://gw2"] None start =
    fetchTxJson_from (firstGatewayGarbled (D := ())) "TX" ["https://gw2"]
      (Some (mkError "Unexpected token < in JSON at position 0"))
      (mkState () [GET "https://gw1/TX"; Sleep 120]).
Proof.
  apply (proj1 (parse_failure_falls_back_to_next_gateway (W := ()))
           unit firstGatewayGarbled "TX" "https://gw1" ["https://gw2"] None start 200%Z
           (mkError "Unexpected token < in JSON at position 0") ()).
  reflexivity.
Defined.

(** C4 as stated fails: the first gateway answers with status 200 and a
    body that is not JSON, and both clients go on to the second gateway
    and return its document instead of raising. *)
Lemma parse_failure_is_not_a_hard_failure :
  (get (firstGatewayGarbled (D := ())) () "https://gw1/TX").1 =
    Responded (mkResponse true 200
                 (inl (mkError "Unexpected token < in JSON at position 0"))) ∧
  fetchTxJson (firstGatewayGarbled (D := ())) "TX" ["https://gw1"; "https://gw2"] start =
    (inr okTrue, mkState () [GET "https://gw1/TX"; Sleep 120; GET "https://gw2/TX"]) ∧
  (get (firstGatewayGarbled (D := Verify.TxData)) () "https://arweave.net/TX").1 =
    Responded (mkResponse true 200
                 (inl (mkError "Unexpected token < in JSON at position 0"))) ∧
  Verify.fetchJsonByTxId firstGatewayGarbled (JStr "TX") start =
    (inr okTrue, mkState () [GET "https://arweave.net/TX"; GET "https://ar-io.dev/TX"]).
Proof. split_and!; reflexivity. Qed.
End Claims_Clients.

(** ** The chain verifier *)

Section ChainFacts.
Import Js Async Verify.
Context {W : Type} (net : Network W TxData).
Implicit Types (st : State W).

Lemma run_bind {A B} (m : M W A) (f : A → M W B) st :
  (m ≫= f) st =
    match m st with
    | (inl e, st') => (inl e, st')
    | (inr a, st') => f a st'
    end.
Proof. done. Qed.







(** An exception in the verification of one idea leaves the loop. *)
Lemma verifyIdeaRefs_raises acc ref rest st e st' :
  truthy (prop (Some ref) "tx_id") = true →
  verifyTx net (default JNull (prop (Some ref) "tx_id")) st = (inl e, st') →
  verifyIdeaRefs net acc (ref :: rest) st = (inl e, st').
Proof.
  intros Htruthy Hraise. cbn [verifyIdeaRefs]. rewrite run_bind.
  unfold verifyIdeaRef. rewrite Htruthy. cbn [negb]. rewrite run_bind.
  by rewrite Hraise.
Qed.
End ChainFacts.

Section Claims_Chain.
Import Js Async Verify Examples.

(** Runs the next [await] with the equation [H] of its outcome. *)
Local Ltac run H :=
  lazymatch goal with
  | |- (?m ≫= ?f) ?st = _ => rewrite (run_bind m f st), H; cbv beta iota
  end.




(** C3.  The code does not isolate an idea whose document cannot be
    fetched.  On this ledger the metadata query finds both ideas of the
    snapshot, and every gateway answers 404 for the document of the second
    one.  [verifyTx] passes the first idea and raises for the second one,
    since it awaits [fetchJsonByTxId] outside any [try]; the loop of
    [verifySelf] has no [try] either, so that [verifySelf] raises with that
    error where the claim has it return a report with one failed idea, and
    the script prints the error and ends with the exit code 1. *)
Theorem verifySelf_raises_when_idea_is_unfetchable :
  (∀ gw, gw ∈ GATEWAYS →
     ∃ e, (fetchJsonAttempt ledgerWithUnfetchableIdea (JStr "IDEA2") gw start).1 = inl e) ∧
  (∃ report,
     (verifyTx ledgerWithUnfetchableIdea (JStr "IDEA1") start).1 = inr report ∧
     TxReport.ok report = true ∧ TxReport.errors report = []) ∧
  (verifyTx ledgerWithUnfetchableIdea (JStr "IDEA2") start).1 =
    inl (mkError "https://ar-io.dev/IDEA2 HTTP 404") ∧
  (verifySelf ledgerWithUnfetchableIdea "self-abc" start).1 =
    inl (mkError "https://ar-io.dev/IDEA2 HTTP 404") ∧
  (main ledgerWithUnfetchableIdea ["node"; "verify.mjs"; "--self_id"; "self-abc"] start).1 =
    {| stdout := None;
       stderr := Some "https://ar-io.dev/IDEA2 HTTP 404";
       exitCode := 1 |}.
Proof.
  split_and!.
  - intros gw Hgw. unfold GATEWAYS in Hgw.
    apply elem_of_cons in Hgw as [->|Hgw]; [by eexists|].
    apply list_elem_of_singleton in Hgw as ->. by eexists.
  - eexists. split_and!; vm_compute; reflexivity.
  - vm_compute. reflexivity.
  - vm_compute. reflexivity.
  - vm_compute. reflexivity.
Qed.
End Claims_Chain.

(** * Further properties of the sources *)

Section TagIndexFacts.
Import Tags.

Lemma keys_set_fresh {V} (m : Js.Map V) k v :
  Js.keys (Js.set k v m) = if decide (k ∈ Js.keys m) then Js.keys m else Js.keys m ++ [k].
Proof.
  rewrite keys_set. destruct (Js.get k m) eqn:Hg.
  - rewrite decide_True; [done|]. destruct (decide (k ∈ Js.keys m)); [done|].
    apply get_None in n. congruence.
  - apply get_None in Hg. by rewrite decide_False.
Qed.

Lemma keys_foldl_add_tag_order tags m :
  Js.keys (foldl add_tag m tags) =
    Js.keys m ++ filter (λ n, n ∉ Js.keys m) (firstOccurrences (name <$> tags)).
Proof.
  revert m. induction tags as [|t tags IH]; intros m.
  - simpl. by rewrite app_nil_r.
  - cbn [foldl]. rewrite IH. unfold add_tag.
    rewrite (keys_set_fresh m (name t)).
    csimpl. rewrite filter_cons.
    destruct (decide (name t ∈ Js.keys m)) as [Hin|Hnin].
    + destruct (decide (name t ∉ Js.keys m)) as [?|_]; [done|].
      f_equal. rewrite list_filter_filter. apply list_filter_iff.
      intros x. simpl. split; [intros Hx; split; [done|by intros ->] | by intros [? _]].
    + destruct (decide (name t ∉ Js.keys m)) as [_|?]; [|done]. rewrite <-app_assoc. f_equal. simpl. f_equal.
      rewrite list_filter_filter. apply list_filter_iff.
      intros x. simpl. rewrite elem_of_app, list_elem_of_singleton. tauto.
Qed.

Lemma filter_all {A} (P : A → Prop) `{∀ x, Decision (P x)} (l : list A) :
  (∀ x, x ∈ l → P x) → filter P l = l.
Proof.
  induction l as [|x l IH]; intros Hall; [done|].
  rewrite filter_cons_True by (apply Hall; left). f_equal. apply IH.
  intros y Hy. apply Hall. by right.
Qed.

Lemma firstOccurrences_elem l x : x ∈ firstOccurrences l ↔ x ∈ l.
Proof.
  induction l as [|y l IH]; [done|]. simpl.
  rewrite !elem_of_cons, list_elem_of_filter, IH.
  destruct (decide (x = y)); tauto.
Qed.

Lemma firstOccurrences_NoDup l : NoDup (firstOccurrences l).
Proof.
  induction l as [|y l IH]; simpl; constructor.
  - rewrite list_elem_of_filter. tauto.
  - by apply NoDup_filter.
Qed.

Lemma concat_values_set (m : TagMap) k v :
  length (concat (Js.values (Js.set k (default [] (Js.get k m) ++ [v]) m))) =
    S (length (concat (Js.values m))).
Proof.
  unfold Js.values. induction m as [|[k' vs] m IH]; csimpl; [done|].
  destruct (decide (k = k')) as [->|Hne]; csimpl.
  - rewrite !length_app. simpl. lia.
  - rewrite !length_app, IH. lia.
Qed.

Lemma concat_values_foldl_add_tag tags (m : TagMap) :
  length (concat (Js.values (foldl add_tag m tags))) =
    (length (concat (Js.values m)) + length tags)%nat.
Proof.
  revert m. induction tags as [|t tags IH]; intros m; simpl; [lia|].
  rewrite IH. unfold add_tag. rewrite concat_values_set. lia.
Qed.

(** X1.  [tagFirst] finds nothing in the index of a null or undefined tag
    list. The index of a tag list has an entry for a name exactly when a tag
    bears that name, and the entry holds the values of all the tags of that
    name, in the order of the list; the names are enumerated in the order in
    which they first occur; and the entries hold together as many values as
    the list has tags. *)
Theorem tag_index_keeps_every_value :
  (∀ n, tagFirst (tagsToMap None) n = None) ∧
  (∀ tags n vs,
     Js.get n (tagsToMap (Some tags)) = Some vs ↔ vs = valuesOf n tags ∧ vs ≠ []) ∧
  (∀ tags, Js.keys (tagsToMap (Some tags)) = firstOccurrences (name <$> tags)) ∧
  (∀ tags, length (concat (Js.values (tagsToMap (Some tags)))) = length tags).
Proof.
  split_and!.
  - done.
  - intros tags n vs. unfold tagsToMap. rewrite get_foldl_add_tag. simpl.
    destruct (valuesOf n tags) as [|v l]; split.
    + done.
    + by intros [-> ?].
    + by intros [= <-].
    + by intros [-> _].
  - intros tags. unfold tagsToMap. rewrite keys_foldl_add_tag_order. simpl.
    apply filter_all. intros x _. apply not_elem_of_nil.
  - intros tags. unfold tagsToMap. by rewrite concat_values_foldl_add_tag.
Qed.
End TagIndexFacts.

Section HeadParserFacts.
Import Js Schema Verify.

(** When the head parser accepts, and what it returns then. *)
Lemma parseSelfHead_Ok doc v :
  parseSelfHead doc = Ok v ↔
  isRecord (Some doc) = true ∧
  getString (Some doc) "schema" = Some "afterlife.selfhead@1" ∧
  ∃ self_id name snapshot_tx,
    nonEmpty (getString (Some doc) "self_id") = Some self_id ∧
    nonEmpty (getString (Some doc) "name") = Some name ∧
    nonEmpty (getString (Some doc) "snapshot_tx") = Some snapshot_tx ∧
    v = {| Head.schema := "afterlife.selfhead@1";
           Head.self_id := self_id;
           Head.name := name;
           Head.snapshot_tx := snapshot_tx;
           Head.description := getString (Some doc) "description";
           Head.fork_of := parseForkOf (prop (Some doc) "fork_of");
           Head.owner_address := getString (Some doc) "owner_address";
           Head.updated_at := getString (Some doc) "updated_at";
           Head.links := parseLinks (prop (Some doc) "links") |}.
Proof.
  unfold parseSelfHead.
  destruct (isRecord (Some doc)); simpl; [|by split; [|intros [? _]]].
  case_bool_decide as Hschema; simpl; [|by split; [|intros (_ & ? & _)]].
  destruct (nonEmpty (getString (Some doc) "self_id")) as [self_id|];
    [|by split; [|intros (_ & _ & ? & ? & ? & ? & _)]].
  destruct (nonEmpty (getString (Some doc) "name")) as [name|];
    [|by split; [|intros (_ & _ & ? & ? & ? & _ & ? & _)]].
  destruct (nonEmpty (getString (Some doc) "snapshot_tx")) as [snapshot_tx|];
    [|by split; [|intros (_ & _ & ? & ? & ? & _ & _ & ? & _)]].
  split.
  - intros [= <-]. split_and!; [done..|]. by exists self_id, name, snapshot_tx.
  - intros (_ & _ & ? & ? & ? & [= <-] & [= <-] & [= <-] & ->). done.
Qed.

Lemma nonEmpty_Some s x : nonEmpty s = Some x ↔ s = Some x ∧ x ≠ "".
Proof.
  unfold nonEmpty, truthy_string. destruct s as [y|]; simpl; [|naive_solver].
  case_bool_decide; naive_solver.
Qed.

Lemma isRecord_notAnObject doc : isRecord (Some doc) = negb (notAnObject (Some doc)).
Proof.
  unfold notAnObject, truthy, typeof_object, isRecord.
  destruct doc as [|[]| | | |]; try done; cbn; by rewrite ?orb_true_r.
Qed.

Lemma getString_Some v k s : getString v k = Some s ↔ prop v k = Some (JStr s).
Proof.
  unfold getString, as_string. destruct (prop v k) as [[]|]; naive_solver.
Qed.

Lemma typeof_string_getString v k :
  typeof_string (prop v k) = true ↔ is_Some (getString v k).
Proof.
  unfold getString, as_string, typeof_string.
  destruct (prop v k) as [[]|]; split; try done; by intros [? ?].
Qed.

Lemma is_string_getString v k s :
  is_string (prop v k) s = true ↔ getString v k = Some s.
Proof.
  unfold getString, as_string, is_string.
  destruct (prop v k) as [[]|]; try (split; done).
  rewrite bool_decide_eq_true. naive_solver.
Qed.

(** The strict head validator pushes nothing exactly when the payload is
    an object or an array whose schema is right and whose [self_id],
    [name] and [snapshot_tx] are strings. *)
Lemma validateHeadPayload_nil doc :
  validateHeadPayload doc = [] ↔
  isRecord (Some doc) = true ∧
  getString (Some doc) "schema" = Some "afterlife.selfhead@1" ∧
  is_Some (getString (Some doc) "self_id") ∧
  is_Some (getString (Some doc) "name") ∧
  is_Some (getString (Some doc) "snapshot_tx").
Proof.
  unfold validateHeadPayload. rewrite isRecord_notAnObject.
  rewrite <-is_string_getString, <-!typeof_string_getString.
  destruct (notAnObject (Some doc)); simpl; [naive_solver|].
  destruct (is_string _ _); simpl; [|naive_solver].
  destruct (typeof_string (prop (Some doc) "self_id")); simpl; [|naive_solver].
  destruct (typeof_string (prop (Some doc) "name")); simpl; [|naive_solver].
  destruct (typeof_string (prop (Some doc) "snapshot_tx")); simpl; naive_solver.
Qed.

(** X2.  [parseSelfHead] accepts exactly the documents for which the strict
    validator [validateHeadPayload] has no error and whose [self_id], [name]
    and [snapshot_tx] are not the empty string. *)
Theorem parseSelfHead_accepts_iff_strict_and_nonempty (doc : json) :
  (∃ v, parseSelfHead doc = Ok v) ↔
  validateHeadPayload doc = [] ∧
  getString (Some doc) "self_id" ≠ Some "" ∧
  getString (Some doc) "name" ≠ Some "" ∧
  getString (Some doc) "snapshot_tx" ≠ Some "".
Proof.
  rewrite validateHeadPayload_nil. split.
  - intros [v (Hrec & Hschema & self_id & name & snapshot_tx
               & [Hs ?]%nonEmpty_Some & [Hn ?]%nonEmpty_Some & [Ht ?]%nonEmpty_Some
               & _)%parseSelfHead_Ok].
    rewrite Hs, Hn, Ht. split_and!; try done; congruence.
  - intros ((Hrec & Hschema & [s Hs] & [n Hn] & [t Ht]) & Hsne & Hnne & Htne).
    eexists. apply parseSelfHead_Ok. split_and!; [done..|].
    exists s, n, t. split_and!; try (apply nonEmpty_Some; split; congruence). done.
Qed.

(** X3.  A head that [parseSelfHead] returns has the schema
    afterlife.selfhead@1 and the strings [self_id], [name] and [snapshot_tx]
    of the document, none of them empty. It has a [fork_of] exactly when the
    [fork_of] of the document holds two strings that are not empty, which it
    keeps; it has [links] exactly when the [links] of the document holds a
    string [repo] or a string [homepage] that is not empty, and it keeps both
    as they are. *)
Theorem parseSelfHead_fields (doc : json) (v : Head.SelfHead) :
  parseSelfHead doc = Ok v →
  Head.schema v = "afterlife.selfhead@1" ∧
  (prop (Some doc) "self_id" = Some (JStr (Head.self_id v)) ∧ Head.self_id v ≠ "") ∧
  (prop (Some doc) "name" = Some (JStr (Head.name v)) ∧ Head.name v ≠ "") ∧
  (prop (Some doc) "snapshot_tx" = Some (JStr (Head.snapshot_tx v))
   ∧ Head.snapshot_tx v ≠ "") ∧
  (∀ f, Head.fork_of v = Some f ↔
        (prop (prop (Some doc) "fork_of") "source_self_id"
           = Some (JStr (Head.source_self_id f)) ∧ Head.source_self_id f ≠ "") ∧
        (prop (prop (Some doc) "fork_of") "source_head_tx"
           = Some (JStr (Head.source_head_tx f)) ∧ Head.source_head_tx f ≠ "")) ∧
  (∀ l, Head.links v = Some l ↔
        Head.repo l = getString (prop (Some doc) "links") "repo" ∧
        Head.homepage l = getString (prop (Some doc) "links") "homepage" ∧
        (is_Some (nonEmpty (Head.repo l)) ∨ is_Some (nonEmpty (Head.homepage l)))).
Proof.
  intros (Hrec & Hschema & self_id & name & snapshot_tx
          & [Hs ?]%nonEmpty_Some & [Hn ?]%nonEmpty_Some & [Ht ?]%nonEmpty_Some
          & ->)%parseSelfHead_Ok.
  apply getString_Some in Hs, Hn, Ht. cbn.
  split_and!; try done.
  - intros [a b]. cbn. unfold parseForkOf.
    set (forkObj := prop (Some doc) "fork_of").
    destruct (isRecord forkObj) eqn:Hfork.
    + destruct (nonEmpty (getString forkObj "source_self_id")) as [a'|] eqn:Ha.
      * destruct (nonEmpty (getString forkObj "source_head_tx")) as [b'|] eqn:Hb.
        -- apply nonEmpty_Some in Ha as [Ha ?], Hb as [Hb ?].
           apply getString_Some in Ha, Hb. rewrite Ha, Hb. naive_solver.
        -- split; [done|]. intros (_ & Hb' & ?).
           apply getString_Some in Hb'.
           assert (nonEmpty (getString forkObj "source_head_tx") = Some b)
             by (by apply nonEmpty_Some). congruence.
      * split; [done|]. intros ((Ha' & ?) & _).
        apply getString_Some in Ha'.
        assert (nonEmpty (getString forkObj "source_self_id") = Some a)
          by (by apply nonEmpty_Some). congruence.
    + split; [done|]. intros ((Ha' & _) & _).
      unfold prop in Ha'. by destruct forkObj as [[]|].
  - intros [r h]. cbn. unfold parseLinks.
    set (linksObj := prop (Some doc) "links").
    destruct (isRecord linksObj) eqn:Hlinks.
    + set (repo := getString linksObj "repo").
      set (homepage := getString linksObj "homepage").
      assert (truthy_string (default "" repo) = true ↔ is_Some (nonEmpty repo)) as Hr.
      { unfold nonEmpty. destruct repo as [x|]; simpl.
        - destruct (truthy_string x); split; try done; by intros [? ?].
        - split; [done|]. by intros [? ?]. }
      assert (truthy_string (default "" homepage) = true ↔ is_Some (nonEmpty homepage))
        as Hh.
      { unfold nonEmpty. destruct homepage as [x|]; simpl.
        - destruct (truthy_string x); split; try done; by intros [? ?].
        - split; [done|]. by intros [? ?]. }
      destruct (truthy_string (default "" repo) || truthy_string (default "" homepage))
        eqn:Hor.
      * apply orb_true_iff in Hor. split.
        -- intros [= <- <-]. split_and!; [done..|]. tauto.
        -- intros (-> & -> & _). done.
      * apply orb_false_iff in Hor as [Hor1 Hor2]. split; [done|].
        intros (-> & -> & [?%Hr|?%Hh]); congruence.
    + split; [done|]. intros (-> & -> & Hsome).
      assert (getString linksObj "repo" = None ∧ getString linksObj "homepage" = None)
        as [Hr Hh].
      { unfold getString, prop. by destruct linksObj as [[]|]. }
      rewrite Hr, Hh in Hsome. by destruct Hsome as [[? ?]|[? ?]].
Qed.
End HeadParserFacts.

Section HeadParserFactsCases.
Import Js Async Arweave Schema Verify Examples.

Lemma parseSelfHead_fields_witness :
  ∃ v, parseSelfHead forkedHeadDoc = Ok v ∧
    Head.schema v = "afterlife.selfhead@1" ∧
    (prop (Some forkedHeadDoc) "self_id" = Some (JStr (Head.self_id v)) ∧ Head.self_id v ≠ "").
Proof.
  eexists. split; [vm_compute; reflexivity|].
  refine (let H := parseSelfHead_fields forkedHeadDoc _ _ in conj (proj1 H) (proj1 (proj2 H))).
  vm_compute; reflexivity.
Defined.

End HeadParserFactsCases.

Section SnapshotParserMore.
Import Js Schema Verify.

Lemma parseIdea_Some idea i :
  parseIdea idea = Some i ↔
  (prop (Some idea) "idea_id" = Some (JStr (idea_id i)) ∧ idea_id i ≠ "") ∧
  (prop (Some idea) "tx_id" = Some (JStr (tx_id i)) ∧ tx_id i ≠ "").
Proof.
  unfold parseIdea. destruct i as [a b]. cbn [idea_id tx_id].
  destruct (isRecord (Some idea)) eqn:Hrec.
  - destruct (nonEmpty (getString (Some idea) "idea_id")) as [a'|] eqn:Ha.
    + destruct (nonEmpty (getString (Some idea) "tx_id")) as [b'|] eqn:Hb.
      * apply nonEmpty_Some in Ha as [Ha ?], Hb as [Hb ?].
        apply getString_Some in Ha, Hb. rewrite Ha, Hb. split.
        -- by intros [= <- <-].
        -- intros ((Ha' & _) & (Hb' & _)). congruence.
      * split; [done|]. intros (_ & Hb' & ?). apply getString_Some in Hb'.
        assert (nonEmpty (getString (Some idea) "tx_id") = Some b)
          by (by apply nonEmpty_Some). congruence.
    + split; [done|]. intros ((Ha' & ?) & _). apply getString_Some in Ha'.
      assert (nonEmpty (getString (Some idea) "idea_id") = Some a)
        by (by apply nonEmpty_Some). congruence.
  - split; [done|]. intros ((Ha' & _) & _). unfold prop in Ha'. by destruct idea.
Qed.

Lemma parseEdge_Some edge e :
  parseEdge edge = Some e ↔
  (prop (Some edge) "from_idea_id" = Some (JStr (from_idea_id e)) ∧ from_idea_id e ≠ "") ∧
  (prop (Some edge) "to_idea_id" = Some (JStr (to_idea_id e)) ∧ to_idea_id e ≠ "") ∧
  (prop (Some edge) "type" = Some (JStr (type e)) ∧ type e ∈ allowed).
Proof.
  split.
  - unfold parseEdge. destruct (isRecord (Some edge)); [|done].
    destruct (nonEmpty (getString (Some edge) "from_idea_id")) as [a|] eqn:Ha; [|done].
    destruct (nonEmpty (getString (Some edge) "to_idea_id")) as [b|] eqn:Hb; [|done].
    destruct (nonEmpty (getString (Some edge) "type")) as [c|] eqn:Hc; [|done].
    case_bool_decide; [|done]. intros [= <-]. cbn.
    apply nonEmpty_Some in Ha as [Ha ?], Hb as [Hb ?], Hc as [Hc ?].
    apply getString_Some in Ha, Hb, Hc. done.
  - destruct e as [a b c]. cbn. intros ((Ha & ?) & (Hb & ?) & (Hc & ?)).
    apply getString_Some in Ha, Hb, Hc. by apply parseEdge_well_formed.
Qed.

Lemma omap_Forall {A B} (f : A → option B) (P : B → Prop) (l : list A) :
  (∀ a b, f a = Some b → P b) → Forall P (omap f l).
Proof.
  intros Hf. induction l as [|a l IH]; csimpl; [constructor|].
  destruct (f a) eqn:Hfa; [|done]. constructor; [by eapply Hf|done].
Qed.

Lemma omap_length_le {A B} (f : A → option B) (l : list A) :
  (length (omap f l) ≤ length l)%nat.
Proof. induction l as [|a l IH]; csimpl; [done|]. destruct (f a); simpl; lia. Qed.

Lemma omap_all_Some {A B} (f : A → option B) (R : A → B → Prop) (l : list A) :
  (∀ a, a ∈ l → ∃ b, f a = Some b ∧ R a b) → Forall2 R l (omap f l).
Proof.
  induction l as [|a l IH]; intros Hall; csimpl; [constructor|].
  destruct (Hall a) as (b & -> & HR); [left|].
  constructor; [done|]. apply IH. intros a' Ha'. apply Hall. by right.
Qed.

(** X4.  A snapshot that [parseSelfSnapshot] returns has the schema
    afterlife.snapshot@1, the string [self_id] of the document, which is not
    empty, at least one idea, only ideas whose [idea_id] and [tx_id] are not
    empty, and no more ideas than the document lists. It has a list of edges
    exactly when [edges] is an array in the document, and every edge it keeps
    has endpoints that are not empty and one of the five allowed types. *)
Theorem parseSelfSnapshot_result_well_formed (doc : json) (v : SelfSnapshot) :
  parseSelfSnapshot doc = Ok v →
  schema v = "afterlife.snapshot@1" ∧
  (prop (Some doc) "self_id" = Some (JStr (self_id v)) ∧ self_id v ≠ "") ∧
  ideas v ≠ [] ∧
  Forall (λ i, idea_id i ≠ "" ∧ tx_id i ≠ "") (ideas v) ∧
  (∀ ideasRaw, as_array (prop (Some doc) "ideas") = Some ideasRaw →
     (length (ideas v) ≤ length ideasRaw)%nat) ∧
  (Schema.edges v = None ↔ as_array (prop (Some doc) "edges") = None) ∧
  (∀ es, Schema.edges v = Some es →
     Forall (λ e, from_idea_id e ≠ "" ∧ to_idea_id e ≠ "" ∧ type e ∈ allowed) es).
Proof.
  intros (_ & _ & sid & ideasRaw & [Hs ?]%nonEmpty_Some & Hraw & Hne & ->)%parseSelfSnapshot_Ok.
  apply getString_Some in Hs. cbn. split_and!; try done.
  - apply omap_Forall. intros a b (( _ & ?) & (_ & ?))%parseIdea_Some. done.
  - intros ? Heq. rewrite Hraw in Heq. injection Heq as <-. apply omap_length_le.
  - by destruct (as_array (prop (Some doc) "edges")).
  - intros es. destruct (as_array (prop (Some doc) "edges")) as [edgesRaw|]; [|done].
    intros [= <-]. apply omap_Forall.
    intros a b ((_ & ?) & (_ & ?) & (_ & ?))%parseEdge_Some. done.
Qed.

Lemma edgeStep_nil ids edge :
  edgeStep ids [] edge = [] ↔
  notAnObject (Some edge) = false ∧
  has ids (prop (Some edge) "from_idea_id") = true ∧
  has ids (prop (Some edge) "to_idea_id") = true ∧
  has EDGE_TYPES (prop (Some edge) "type") = true.
Proof.
  unfold edgeStep. destruct (notAnObject (Some edge)); [naive_solver|].
  destruct (has ids (prop (Some edge) "from_idea_id"));
    destruct (has ids (prop (Some edge) "to_idea_id"));
    destruct (has EDGE_TYPES (prop (Some edge) "type")); simpl; naive_solver.
Qed.

Lemma foldl_edgeStep_nil ids edges :
  foldl (edgeStep ids) [] edges = [] ↔ ∀ edge, edge ∈ edges → edgeStep ids [] edge = [].
Proof.
  induction edges as [|e edges IH].
  - split; [|done]. intros _ ? ?%elem_of_nil. done.
  - cbn [foldl]. rewrite foldl_edgeStep_errors_app. split.
    + intros [He Hrest]%app_eq_nil e' [->|Hin]%elem_of_cons; [done|]. by apply IH.
    + intros Hall. rewrite (Hall e) by left. simpl. apply IH.
      intros e' Hin. apply Hall. by right.
Qed.

Lemma has_Some ids v : has ids v = true ↔ ∃ s, v = Some (JStr s) ∧ s ∈ ids.
Proof.
  unfold has. destruct v as [[]|]; try (split; [done|by intros (? & ? & _)]).
  rewrite bool_decide_eq_true. naive_solver.
Qed.
End SnapshotParserMore.

Section SnapshotParserMoreCases.
Import Js Async Arweave Schema Verify Examples.

Lemma parseSelfSnapshot_result_well_formed_witness :
  ∃ v, parseSelfSnapshot ghostEdgeDoc = Ok v ∧
    schema v = "afterlife.snapshot@1" ∧
    (prop (Some ghostEdgeDoc) "self_id" = Some (JStr (self_id v)) ∧ self_id v ≠ "") ∧
    ideas v ≠ [].
Proof.
  eexists. split; [vm_compute; reflexivity|].
  refine (let H := parseSelfSnapshot_result_well_formed ghostEdgeDoc _ _ in
          conj (proj1 H) (conj (proj1 (proj2 H)) (proj1 (proj2 (proj2 H))))).
  vm_compute; reflexivity.
Defined.

End SnapshotParserMoreCases.

Section StrictThenLenient.
Import Js Schema Verify.

Lemma strictIdeaId_props it idea_id :
  strictIdeaId it = Some idea_id →
  prop (Some it) "idea_id" = Some (JStr idea_id) ∧
  ∃ tx_id, prop (Some it) "tx_id" = Some (JStr tx_id).
Proof.
  unfold strictIdeaId. destruct (notAnObject (Some it)); [done|].
  destruct (as_string (prop (Some it) "idea_id")) as [a|] eqn:Ha; [|done].
  destruct (as_string (prop (Some it) "tx_id")) as [b|] eqn:Hb; [|done].
  intros [= <-]. split; [by apply getString_Some|].
  exists b. by apply getString_Some.
Qed.

Lemma validateSnapshotPayload_nil_parts payload :
  validateSnapshotPayload payload = [] →
  isRecord (Some payload) = true ∧
  getString (Some payload) "schema" = Some "afterlife.snapshot@1" ∧
  is_Some (getString (Some payload) "self_id") ∧
  (∃ ideas idea_ids,
     as_array (prop (Some payload) "ideas") = Some ideas ∧ ideas ≠ [] ∧
     Forall2 (λ it idea_id, strictIdeaId it = Some idea_id) ideas idea_ids ∧
     NoDup idea_ids ∧
     declaredIdeaIds payload = list_to_set idea_ids) ∧
  (∀ edges edge, as_array (prop (Some payload) "edges") = Some edges → edge ∈ edges →
     edgeStep (declaredIdeaIds payload) [] edge = []).
Proof.
  rewrite validateSnapshotPayload_parts.
  intros [[Hobj [Hschema [Hself Hne]%app_eq_nil]%app_eq_nil]%app_eq_nil
           [Hideas Hedges]%app_eq_nil]%app_eq_nil.
  split_and!.
  - rewrite isRecord_notAnObject. by destruct (notAnObject (Some payload)).
  - apply is_string_getString. by destruct (is_string _ _).
  - apply typeof_string_getString. by destruct (typeof_string _).
  - unfold declaredIdeaIds.
    destruct (as_array (prop (Some payload) "ideas")) as [ideas|]; [|done].
    destruct (foldl_ideaStep_clean _ _ Hideas) as (idea_ids & Hall & Hnd & _ & Hset).
    exists ideas, idea_ids. split_and!; [done| |done..|].
    + by destruct ideas.
    + rewrite Hset. set_solver.
  - intros edges edge Hraw Hin. rewrite Hraw in Hedges.
    exact (proj1 (foldl_edgeStep_nil _ _) Hedges _ Hin).
Qed.

Lemma strict_ideas_parse ideasRaw idea_ids :
  Forall2 (λ it idea_id, strictIdeaId it = Some idea_id) ideasRaw idea_ids →
  (∀ it, it ∈ ideasRaw →
     prop (Some it) "idea_id" ≠ Some (JStr "") ∧ prop (Some it) "tx_id" ≠ Some (JStr "")) →
  Forall2 (λ it i, parseIdea it = Some i) ideasRaw (omap parseIdea ideasRaw) ∧
  idea_id <$> omap parseIdea ideasRaw = idea_ids.
Proof.
  induction 1 as [|it id its ids Hit Hrest IH]; intros Hideas; [by split; [constructor|]|].
  destruct (strictIdeaId_props _ _ Hit) as (Ha & tx & Hb).
  destruct (Hideas it) as [Hane Hbne]; [left|].
  assert (parseIdea it = Some {| idea_id := id; tx_id := tx |}) as Hp.
  { apply parseIdea_Some. cbn. split_and!; try done; intros ->; congruence. }
  destruct IH as [IH1 IH2].
  { intros it' Hin. apply Hideas. by right. }
  csimpl. rewrite Hp. csimpl. split; [by constructor|]. by rewrite IH2.
Qed.

(** X5.  A document that the strict validator passes, whose [self_id], idea
    ids and transaction ids are not the empty string, is accepted by
    [parseSelfSnapshot] with nothing dropped: the ideas and the edges of the
    result are those of the document, one for one and in order, the idea ids
    are pairwise distinct, and every edge joins two ideas of the snapshot with
    an allowed type. *)
Theorem strictly_valid_snapshot_parses_without_loss (doc : json) :
  validateSnapshotPayload doc = [] →
  getString (Some doc) "self_id" ≠ Some "" →
  (∀ ideasRaw it, as_array (prop (Some doc) "ideas") = Some ideasRaw → it ∈ ideasRaw →
     prop (Some it) "idea_id" ≠ Some (JStr "") ∧ prop (Some it) "tx_id" ≠ Some (JStr "")) →
  ∃ v ideasRaw,
    parseSelfSnapshot doc = Ok v ∧
    as_array (prop (Some doc) "ideas") = Some ideasRaw ∧
    Forall2 (λ it i, prop (Some it) "idea_id" = Some (JStr (idea_id i)) ∧
                     prop (Some it) "tx_id" = Some (JStr (tx_id i)))
            ideasRaw (ideas v) ∧
    NoDup (idea_id <$> ideas v) ∧
    ∀ edgesRaw, as_array (prop (Some doc) "edges") = Some edgesRaw →
      ∃ es, Schema.edges v = Some es ∧
        Forall2 (λ raw e,
                   prop (Some raw) "from_idea_id" = Some (JStr (from_idea_id e)) ∧
                   prop (Some raw) "to_idea_id" = Some (JStr (to_idea_id e)) ∧
                   prop (Some raw) "type" = Some (JStr (type e)))
                edgesRaw es ∧
        Forall (λ e, from_idea_id e ∈ idea_id <$> ideas v ∧
                     to_idea_id e ∈ idea_id <$> ideas v ∧
                     type e ∈ allowed) es.
Proof.
  intros (Hrec & Hschema & [sid Hsid] & (ideasRaw & idea_ids & Hraw & Hne & Hall & Hnd & Hids)
          & Hedges)%validateSnapshotPayload_nil_parts Hself Hideas.
  specialize (Hideas ideasRaw).
  destruct (strict_ideas_parse ideasRaw idea_ids Hall) as [Hparsed Hparsed_ids].
  { intros it Hin. by apply Hideas. }
  assert (omap parseIdea ideasRaw ≠ []) as Hnonempty.
  { intros Hnil. rewrite Hnil in Hparsed. inversion Hparsed. by subst. }
  eexists _, ideasRaw. split; [|split_and!].
  - apply parseSelfSnapshot_Ok. split_and!; [done..|].
    exists sid, ideasRaw. split_and!; [|done..].
    apply nonEmpty_Some. split; [done|]. intros ->. done.
  - done.
  - cbn. eapply Forall2_impl; [exact Hparsed|].
    intros it i ((? & _) & (? & _))%parseIdea_Some. done.
  - cbn. by rewrite Hparsed_ids.
  - intros edgesRaw Hrawe. cbn. rewrite Hrawe. cbn.
    specialize (Hedges edgesRaw).
    assert (Hne_ids : ∀ x, x ∈ idea_ids → x ≠ "").
    { intros x Hx. rewrite <-Hparsed_ids in Hx.
      apply list_elem_of_fmap in Hx as (i & -> & Hin').
      assert (Forall (λ i, idea_id i ≠ "") (omap parseIdea ideasRaw)) as Hall'.
      { apply omap_Forall. by intros ? ? ((_ & ?) & _)%parseIdea_Some. }
      by apply (proj1 (Forall_forall _ _) Hall'). }
    assert (Hboth : Forall2 (λ raw e,
              (prop (Some raw) "from_idea_id" = Some (JStr (from_idea_id e)) ∧
               prop (Some raw) "to_idea_id" = Some (JStr (to_idea_id e)) ∧
               prop (Some raw) "type" = Some (JStr (type e))) ∧
              (from_idea_id e ∈ idea_ids ∧ to_idea_id e ∈ idea_ids ∧ type e ∈ allowed))
              edgesRaw (omap parseEdge edgesRaw)).
    { apply omap_all_Some. intros raw Hin.
      destruct (proj1 (edgeStep_nil _ _) (Hedges raw Hrawe Hin))
        as (_ & (a & Ha & Hain)%has_Some & (b & Hb & Hbin)%has_Some
            & (c & Hc & Hcin)%has_Some).
      rewrite Hids in Hain, Hbin. apply elem_of_list_to_set in Hain, Hbin.
      exists {| from_idea_id := a; to_idea_id := b; type := c |}.
      split; [|done]. apply parseEdge_Some. cbn. split_and!; auto. }
    eexists. split; [done|]. rewrite Hparsed_ids. split.
    + eapply Forall2_impl; [exact Hboth|]. by intros ? ? [? _].
    + eapply Forall2_Forall_r; [exact Hboth|].
      apply Forall_forall. by intros ? _ ? [_ ?].
Qed.
End StrictThenLenient.

Section StrictThenLenientCases.
Import Js Async Arweave Schema Verify Examples.

Lemma strictly_valid_snapshot_parses_without_loss_witness :
  ∃ v, parseSelfSnapshot linkedSnapshotDoc = Ok v ∧ NoDup (idea_id <$> ideas v).
Proof.
  destruct (strictly_valid_snapshot_parses_without_loss linkedSnapshotDoc)
    as (v & ideasRaw & Hparse & _ & _ & Hnodup & _).
  - vm_compute; reflexivity.
  - discriminate.
  - intros ideasRaw it [= <-] Hin.
    repeat (apply elem_of_cons in Hin as [->|Hin]; [split; discriminate|]).
    by apply elem_of_nil in Hin.
  - by exists v.
Defined.

End StrictThenLenientCases.

Section StrictValidatorExact.
Import Js Schema Verify.

Lemma strictIdeaId_iff it idea_id :
  strictIdeaId it = Some idea_id ↔
  prop (Some it) "idea_id" = Some (JStr idea_id) ∧
  ∃ tx_id, prop (Some it) "tx_id" = Some (JStr tx_id).
Proof.
  split; [apply strictIdeaId_props|].
  intros (Ha & tx & Hb). unfold strictIdeaId.
  assert (notAnObject (Some it) = false) as ->.
  { unfold prop in Ha. destruct it; try done. }
  apply getString_Some in Ha, Hb. unfold getString in Ha, Hb. by rewrite Ha, Hb.
Qed.

Lemma foldl_ideaStep_unique ideas idea_ids ids0 :
  Forall2 (λ it idea_id, strictIdeaId it = Some idea_id) ideas idea_ids →
  NoDup idea_ids →
  (∀ idea_id, idea_id ∈ idea_ids → idea_id ∉ ids0) →
  (foldl ideaStep ([], ids0) ideas).1 = [].
Proof.
  intros Hall. revert ids0.
  induction Hall as [|it id its ids Hit Hrest IH]; intros ids0 Hnd Hfresh; [done|].
  apply NoDup_cons in Hnd as [Hid Hnd].
  rewrite foldl_ideaStep_cons, ideaStep_strict, Hit. cbn [fst snd].
  rewrite bool_decide_false by (apply Hfresh; left). cbn [app].
  apply IH; [done|]. intros x Hx.
  assert (x ∉ ids0) by (apply Hfresh; by right).
  assert (x ≠ id) by (by intros ->).
  set_solver.
Qed.

Lemma validateSnapshotPayload_nil_iff (payload : json) :
  validateSnapshotPayload payload = [] ↔
  isRecord (Some payload) = true ∧
  prop (Some payload) "schema" = Some (JStr "afterlife.snapshot@1") ∧
  (∃ self_id, prop (Some payload) "self_id" = Some (JStr self_id)) ∧
  ∃ ideas idea_ids,
    prop (Some payload) "ideas" = Some (JArr ideas) ∧ ideas ≠ [] ∧
    Forall2 (λ it idea_id,
               prop (Some it) "idea_id" = Some (JStr idea_id) ∧
               ∃ tx_id, prop (Some it) "tx_id" = Some (JStr tx_id))
            ideas idea_ids ∧
    NoDup idea_ids ∧
    ∀ edges edge, prop (Some payload) "edges" = Some (JArr edges) → edge ∈ edges →
      ∃ from_id to_id ty,
        prop (Some edge) "from_idea_id" = Some (JStr from_id) ∧ from_id ∈ idea_ids ∧
        prop (Some edge) "to_idea_id" = Some (JStr to_id) ∧ to_id ∈ idea_ids ∧
        prop (Some edge) "type" = Some (JStr ty) ∧ ty ∈ EDGE_TYPES.
Proof.
  assert (Harr : ∀ v l, as_array v = Some l ↔ v = Some (JArr l)).
  { intros v l. unfold as_array. destruct v as [[]|]; naive_solver. }
  split.
  - intros (Hrec & Hschema & [sid Hsid] & (ideas & idea_ids & Hraw & Hne & Hall & Hnd & Hids)
            & Hedges)%validateSnapshotPayload_nil_parts.
    split_and!; [done|by apply getString_Some|by exists sid; apply getString_Some|].
    exists ideas, idea_ids. split_and!; [by apply Harr|done| |done|].
    + eapply Forall2_impl; [exact Hall|]. by intros ? ? ?%strictIdeaId_iff.
    + intros edges edge Hraw_e%Harr Hin.
      destruct (proj1 (edgeStep_nil _ _) (Hedges edges edge Hraw_e Hin))
        as (_ & (a & Ha & Hain)%has_Some & (b & Hb & Hbin)%has_Some
            & (c & Hc & Hcin)%has_Some).
      rewrite Hids in Hain, Hbin. apply elem_of_list_to_set in Hain, Hbin.
      by exists a, b, c.
  - intros (Hrec & Hschema%getString_Some & [sid Hsid%getString_Some]
            & ideas & idea_ids & Hraw%Harr & Hne & Hall & Hnd & Hedges).
    assert (Hstrict : Forall2 (λ it idea_id, strictIdeaId it = Some idea_id) ideas idea_ids).
    { eapply Forall2_impl; [exact Hall|]. by intros ? ? ?%strictIdeaId_iff. }
    assert (Hclean : (foldl ideaStep ([], ∅) ideas).1 = []).
    { apply (foldl_ideaStep_unique ideas idea_ids); [done..|]. set_solver. }
    assert (Hids : declaredIdeaIds payload = list_to_set idea_ids).
    { unfold declaredIdeaIds. rewrite Hraw.
      destruct (foldl_ideaStep_clean _ _ Hclean) as (ids' & Hall' & _ & _ & ->).
      assert (ids' = idea_ids) as ->.
      { clear -Hstrict Hall'. revert ids' Hall'.
        induction Hstrict; intros ids' Hall'; inversion Hall'; subst; [done|].
        f_equal; [congruence|auto]. }
      set_solver. }
    rewrite validateSnapshotPayload_parts.
    rewrite isRecord_notAnObject in Hrec.
    destruct (notAnObject (Some payload)); [done|].
    apply is_string_getString in Hschema. rewrite Hschema.
    assert (typeof_string (prop (Some payload) "self_id") = true) as ->.
    { apply typeof_string_getString. by rewrite Hsid. }
    rewrite Hraw, Hclean. destruct ideas; [done|]. simpl.
    destruct (as_array (prop (Some payload) "edges")) as [edges|] eqn:Hraw_e; [|done].
    apply foldl_edgeStep_nil. intros edge Hin. apply edgeStep_nil.
    destruct (Hedges edges edge (proj1 (Harr _ _) Hraw_e) Hin)
      as (a & b & c & Ha & Hain & Hb & Hbin & Hc & Hcin).
    split_and!.
    + unfold prop in Ha. by destruct edge.
    + apply has_Some. exists a. split; [done|]. rewrite Hids. set_solver.
    + apply has_Some. exists b. split; [done|]. rewrite Hids. set_solver.
    + apply has_Some. by exists c.
Qed.

(** X6.  [validateSnapshotPayload] has no error exactly for the payloads that
    are objects with the schema afterlife.snapshot@1, a string [self_id], an
    array [ideas] that is not empty and holds objects with a string [idea_id]
    and a string [tx_id], the idea ids being pairwise distinct, and, when
    [edges] is an array, only edges whose endpoints are idea ids of the
    snapshot and whose type is one of the five edge types. *)
Theorem validateSnapshotPayload_passes_iff (payload : json) :
  validateSnapshotPayload payload = [] ↔
  isRecord (Some payload) = true ∧
  prop (Some payload) "schema" = Some (JStr "afterlife.snapshot@1") ∧
  (∃ self_id, prop (Some payload) "self_id" = Some (JStr self_id)) ∧
  ∃ ideas idea_ids,
    prop (Some payload) "ideas" = Some (JArr ideas) ∧ ideas ≠ [] ∧
    Forall2 (λ it idea_id,
               prop (Some it) "idea_id" = Some (JStr idea_id) ∧
               ∃ tx_id, prop (Some it) "tx_id" = Some (JStr tx_id))
            ideas idea_ids ∧
    NoDup idea_ids ∧
    ∀ edges edge, prop (Some payload) "edges" = Some (JArr edges) → edge ∈ edges →
      ∃ from_id to_id ty,
        prop (Some edge) "from_idea_id" = Some (JStr from_id) ∧ from_id ∈ idea_ids ∧
        prop (Some edge) "to_idea_id" = Some (JStr to_id) ∧ to_id ∈ idea_ids ∧
        prop (Some edge) "type" = Some (JStr ty) ∧ ty ∈ EDGE_TYPES.
Proof. apply validateSnapshotPayload_nil_iff. Qed.
End StrictValidatorExact.

Section ClientFootprint.
Import Js Async Arweave.
Context {W D : Type} (net : Network W D).
Implicit Types (st : State W) (lastErr : option Error).

(** The loop of [graphqlRequest], whatever the network does: it stops at
    the first endpoint whose attempt succeeds, having asked the endpoints
    before it once each, in order, with a pause after each failure; or it
    has asked every endpoint and raises. *)
Lemma graphqlRequest_from_footprint query variables endpoints lastErr st :
  let attempt ep := POST ep {| query := query; variables := variables |} in
  let r := graphqlRequest_from net query variables endpoints lastErr st in
  (∃ pre ep rest d,
     endpoints = pre ++ ep :: rest ∧ r.1 = inr d ∧
     trace r.2 = trace st ++ flat_map (λ e, [attempt e; Sleep 120]) pre ++ [attempt ep]) ∨
  (∃ err, r.1 = inl err ∧
     trace r.2 = trace st ++ flat_map (λ e, [attempt e; Sleep 120]) endpoints).
Proof.
  intros attempt. revert lastErr st.
  induction endpoints as [|endpoint rest IH]; intros lastErr st r.
  - right. eexists. split; [done|]. simpl. by rewrite app_nil_r.
  - pose proof (graphqlAttempt_trace net query variables endpoint st) as Htrace.
    destruct (graphqlAttempt net query variables endpoint st) as [[e|d] st1] eqn:Hrun.
    + subst r. rewrite (graphqlRequest_from_fail _ _ _ _ _ _ _ _ _ Hrun).
      simpl in Htrace.
      destruct (IH (Some e) (log (Sleep 120) st1))
        as [(pre & ep & rest' & d & -> & Hd & Htr)|(err & Herr & Htr)].
      * left. exists (endpoint :: pre), ep, rest', d. split_and!; [done..|].
        rewrite Htr. simpl. rewrite Htrace. by rewrite <-!app_assoc.
      * right. exists err. split; [done|].
        rewrite Htr. simpl. rewrite Htrace. by rewrite <-!app_assoc.
    + subst r. rewrite (graphqlRequest_from_ok _ _ _ _ _ _ _ _ _ Hrun).
      left. exists [], endpoint, rest, d. by split_and!.
Qed.

Lemma fetchTxJson_from_footprint txId gateways lastErr st :
  let attempt gw := GET (stripTrailingSlash gw +:+ "/" +:+ txId) in
  let r := fetchTxJson_from net txId gateways lastErr st in
  (∃ pre gw rest doc,
     gateways = pre ++ gw :: rest ∧ r.1 = inr doc ∧
     trace r.2 = trace st ++ flat_map (λ g, [attempt g; Sleep 120]) pre ++ [attempt gw]) ∨
  (∃ err, r.1 = inl err ∧
     trace r.2 = trace st ++ flat_map (λ g, [attempt g; Sleep 120]) gateways).
Proof.
  intros attempt. revert lastErr st.
  induction gateways as [|gw rest IH]; intros lastErr st r.
  - right. eexists. split; [done|]. simpl. by rewrite app_nil_r.
  - pose proof (fetchTxJsonAttempt_trace net txId gw st) as Htrace.
    destruct (fetchTxJsonAttempt net txId gw st) as [[e|d] st1] eqn:Hrun.
    + subst r. rewrite (fetchTxJson_from_fail _ _ _ _ _ _ _ _ Hrun).
      simpl in Htrace.
      destruct (IH (Some e) (log (Sleep 120) st1))
        as [(pre & g & rest' & d & -> & Hd & Htr)|(err & Herr & Htr)].
      * left. exists (gw :: pre), g, rest', d. split_and!; [done..|].
        rewrite Htr. simpl. rewrite Htrace. by rewrite <-!app_assoc.
      * right. exists err. split; [done|].
        rewrite Htr. simpl. rewrite Htrace. by rewrite <-!app_assoc.
    + subst r. rewrite (fetchTxJson_from_ok _ _ _ _ _ _ _ _ Hrun).
      left. exists [], gw, rest, d. by split_and!.
Qed.

(** X7.  Whatever the network does, [graphqlRequest] and [fetchTxJson] ask a
    prefix of their list, in the order of the list and each entry once, and
    sleep 120 ms after each failed attempt: either an attempt succeeds, and
    the trace ends with its request, or the call raises and every entry of the
    list was asked. *)
Theorem fallback_loops_ask_a_prefix_in_order :
  (∀ query variables endpoints st,
     let attempt ep := POST ep {| query := query; variables := variables |} in
     let r := graphqlRequest net query variables endpoints st in
     (∃ pre ep rest d,
        endpoints = pre ++ ep :: rest ∧ r.1 = inr d ∧
        trace r.2 =
          trace st ++ flat_map (λ e, [attempt e; Sleep 120]) pre ++ [attempt ep]) ∨
     (∃ err, r.1 = inl err ∧
        trace r.2 = trace st ++ flat_map (λ e, [attempt e; Sleep 120]) endpoints)) ∧
  (∀ txId gateways st,
     let attempt gw := GET (stripTrailingSlash gw +:+ "/" +:+ txId) in
     let r := fetchTxJson net txId gateways st in
     (∃ pre gw rest doc,
        gateways = pre ++ gw :: rest ∧ r.1 = inr doc ∧
        trace r.2 =
          trace st ++ flat_map (λ g, [attempt g; Sleep 120]) pre ++ [attempt gw]) ∨
     (∃ err, r.1 = inl err ∧
        trace r.2 = trace st ++ flat_map (λ g, [attempt g; Sleep 120]) gateways)).
Proof.
  split.
  - intros. apply graphqlRequest_from_footprint.
  - intros. apply fetchTxJson_from_footprint.
Qed.
End ClientFootprint.

Section LatestHeadAndLinks.
Import Js Async Arweave.

(** X8.  When the first endpoint answers the query for the latest head of
    [selfId] (the four head tag filters and the filter on Self-Id) with data
    and no errors, [getLatestSelfHead] makes that one request and returns the
    node of the first edge, or null when the edges are empty or null. *)
Theorem getLatestSelfHead_first_edge_or_null {W} (net : Network W Latest.Data)
    (selfId : string) (st : State W) (status : Z)
    (edges : option (list Latest.Edge)) (declared : option (list string)) (w' : W) :
  let request :=
    {| query := LATEST_HEAD_FOR_SELF_QUERY;
       variables :=
         JObj [("tags", JArr (commonAfterlifeHeadTags ++ [tagFilter "Self-Id" selfId]))] |} in
  post net (world st) "https://arweave.net/graphql" request =
    (Responded
       (mkResponse true status
          (inr {| data := Some {| Latest.transactions := {| Latest.edges := edges |} |};
                  errors := declared |})), w') →
  length (default [] declared) = 0%nat →
  getLatestSelfHead net selfId st =
    (inr (Latest.node <$> (edges ≫= head)),
     mkState w' (trace st ++ [POST "https://arweave.net/graphql" request])).
Proof.
  intros request Hpost Hnone.
  assert (graphqlAttempt net LATEST_HEAD_FOR_SELF_QUERY (variables request)
            "https://arweave.net/graphql" st =
          (inr {| Latest.transactions := {| Latest.edges := edges |} |},
           mkState w' (trace st ++ [POST "https://arweave.net/graphql" request])))
    as Hrun.
  { unfold graphqlAttempt, fetchWithTimeout_post, fetch_post, mbind, M_bind, bind.
    change {| query := LATEST_HEAD_FOR_SELF_QUERY; variables := variables request |}
      with request.
    rewrite Hpost. simpl. unfold read_json. simpl.
    rewrite bool_decide_false by lia. done. }
  unfold getLatestSelfHead, graphqlRequest, DEFAULT_GRAPHQL_ENDPOINTS.
  unfold mbind at 1, M_bind, bind.
  change (JObj _) with (variables request).
  by rewrite (graphqlRequest_from_ok _ _ _ _ _ _ _ _ _ Hrun).
Qed.

Lemma getGateways_result localStorage σ :
  σ !! DEFAULT_GATEWAYS = Some DEFAULT_GATEWAYS_init →
  ∃ r,
    let first :=
      match localStorage ≫= (λ items, items !! "afterlifeGatewayUrl") with
      | Some override => if bool_decide (trim override ≠ "") then [trim override] else []
      | None => []
      end in
    getGateways localStorage σ = (r, <[ r := first ++ DEFAULT_GATEWAYS_init ]> σ) ∧
    σ !! r = None.
Proof.
  intros Hdef. unfold getGateways. rewrite Hdef. simpl.
  destruct localStorage as [items|]; simpl.
  - destruct (items !! "afterlifeGatewayUrl") as [o|]; simpl.
    + unfold truthy_string. case_bool_decide; apply new_array_fresh.
    + apply new_array_fresh.
  - apply new_array_fresh.
Qed.

Lemma fetchTxJson_first_request {W D} (net : Network W D) txId gw rest (st : State W) :
  ∃ more, trace (fetchTxJson net txId (gw :: rest) st).2 =
            trace st ++ GET (stripTrailingSlash gw +:+ "/" +:+ txId) :: more.
Proof.
  destruct (fetchTxJson_from_footprint net txId (gw :: rest) None st)
    as [(pre & g & rest' & d & Heq & _ & Htr)|(err & _ & Htr)];
    unfold fetchTxJson; rewrite Htr.
  - destruct pre as [|p pre]; simpl in Heq; injection Heq as -> ->.
    + by eexists.
    + simpl. by eexists.
  - simpl. by eexists.
Qed.

(** X9.  As long as the shared array of default gateways holds its two initial
    entries, the link that [txLink] gives for a transaction is the URL that
    [fetchTxJson], left to its default gateways, requests first: the stored
    gateway override, trimmed, when it is not blank, and https://arweave.net
    otherwise, without one trailing slash, then a slash and the transaction
    id. Neither call changes the shared array of default gateways. *)
Theorem txLink_is_first_url_fetched {W D} (net : Network W D)
    (localStorage : option (gmap string string)) (txId : string)
    (σ : store) (st : State W) :
  σ !! DEFAULT_GATEWAYS = Some DEFAULT_GATEWAYS_init →
  let gw :=
    match localStorage ≫= (λ items, items !! "afterlifeGatewayUrl") with
    | Some override =>
        if bool_decide (trim override ≠ "") then trim override else "https://arweave.net"
    | None => "https://arweave.net"
    end in
  let url := stripTrailingSlash gw +:+ "/" +:+ txId in
  (Site.txLink localStorage txId σ).1 = Some url ∧
  (Site.txLink localStorage txId σ).2 !! DEFAULT_GATEWAYS = Some DEFAULT_GATEWAYS_init ∧
  (fetchTxJson_default net localStorage txId σ).2 !! DEFAULT_GATEWAYS
    = Some DEFAULT_GATEWAYS_init ∧
  ∃ more,
    trace ((fetchTxJson_default net localStorage txId σ).1 st).2
      = trace st ++ GET url :: more.
Proof.
  intros Hdef gw url.
  destruct (getGateways_result localStorage σ Hdef) as (r & Hget & Hfresh).
  cbv zeta in Hget.
  assert (r ≠ DEFAULT_GATEWAYS) as Hr by (intros ->; congruence).
  unfold Site.txLink, fetchTxJson_default. rewrite Hget. cbn [fst snd].
  rewrite lookup_insert_eq, lookup_insert_ne by done. cbn [default].
  subst url gw.
  destruct (localStorage ≫= λ items, items !! "afterlifeGatewayUrl") as [o|];
    [case_bool_decide|]; (split_and!; [done..|]).
  - exact (fetchTxJson_first_request net txId (trim o) DEFAULT_GATEWAYS_init st).
  - exact (fetchTxJson_first_request net txId "https://arweave.net" ["https://ar-io.dev"] st).
  - exact (fetchTxJson_first_request net txId "https://arweave.net" ["https://ar-io.dev"] st).
Qed.
End LatestHeadAndLinks.

Section LatestHeadAndLinksCases.
Import Js Async Arweave Schema Verify Examples.

Lemma getLatestSelfHead_first_edge_or_null_witness :
  (getLatestSelfHead noHeadYet "self-abc" start).1 = inr None.
Proof.
  rewrite (getLatestSelfHead_first_edge_or_null noHeadYet "self-abc" start 200
             (Some []) None () eq_refl eq_refl).
  reflexivity.
Defined.

Lemma txLink_is_first_url_fetched_witness :
  (Site.txLink (Some {[ "afterlifeGatewayUrl" := "  https://my.gateway/  " ]})
               "TX1" module_store).1
  = Some "https://my.gateway/TX1".
Proof.
  exact (proj1 (txLink_is_first_url_fetched (D := ()) firstGatewayDown
                  (Some {[ "afterlifeGatewayUrl" := "  https://my.gateway/  " ]})
                  "TX1" module_store start eq_refl)).
Defined.

End LatestHeadAndLinksCases.

Section ResolverIdempotent.
Import Tags Arweave.

Lemma sort_insert_head {A} (cmp : A → A → Z) x l :
  (∀ y, y ∈ l → (cmp x y ≤ 0)%Z) → Js.sort_insert cmp x l = x :: l.
Proof.
  destruct l as [|y l]; [done|]. intros Hle. simpl.
  specialize (Hle y (list_elem_of_here _ _)).
  destruct (Z.ltb_spec 0 (cmp x y)); [lia|done].
Qed.

Lemma sort_of_sorted l :
  StronglySorted (λ a b, (heightOrMinus1 b ≤ heightOrMinus1 a)%Z) l →
  Js.sort byHeightDesc l = l.
Proof.
  induction 1 as [|x l Hsorted IH Hx]; [done|].
  unfold Js.sort in *. simpl. rewrite IH. apply sort_insert_head.
  intros y Hy. unfold byHeightDesc.
  pose proof (proj1 (Forall_forall _ _) Hx y Hy). simpl in *. lia.
Qed.

Lemma set_fresh {V} (m : Js.Map V) k v : k ∉ Js.keys m → Js.set k v m = m ++ [(k, v)].
Proof.
  unfold Js.keys. induction m as [|[k' v'] m IH]; csimpl; [done|].
  rewrite not_elem_of_cons. intros [Hne Hnin].
  rewrite decide_False by done. by rewrite IH.
Qed.

(** Records of pairwise distinct, non-empty identities are all kept, in
    their order. *)
Lemma foldl_groupStep_distinct edges byId :
  NoDup (selfIdOf <$> (node <$> edges)) →
  (∀ e, e ∈ edges → selfIdOf (node e) ≠ "" ∧ selfIdOf (node e) ∉ Js.keys byId) →
  foldl groupStep byId edges = byId ++ ((λ e, (selfIdOf (node e), node e)) <$> edges).
Proof.
  revert byId. induction edges as [|e edges IH]; intros byId Hnd Hall; csimpl.
  - by rewrite app_nil_r.
  - csimpl in Hnd. apply NoDup_cons in Hnd as [He Hnd].
    destruct (Hall e) as [Hne Hfresh]; [left|].
    assert (groupStep byId e = byId ++ [(selfIdOf (node e), node e)]) as ->.
    { unfold groupStep. unfold Js.truthy_string. rewrite bool_decide_true by done.
      simpl. assert (Js.get (selfIdOf (node e)) byId = None) as -> by (by apply get_None).
      simpl. by apply set_fresh. }
    rewrite IH; [by rewrite <-app_assoc|done|].
    intros e' Hin. destruct (Hall e') as [? Hk]; [by right|]. split; [done|].
    unfold Js.keys in *. rewrite fmap_app, elem_of_app. intros [?|Heq]; [done|].
    simpl in Heq. apply list_elem_of_singleton in Heq.
    apply He. rewrite <-Heq. apply list_elem_of_fmap. exists (node e'). split; [done|].
    apply list_elem_of_fmap. by exists e'.
Qed.

Lemma group_NoDup_selfIds edges :
  NoDup (selfIdOf <$> groupLatestHeadsBySelfId edges).
Proof.
  rewrite group_selfIds. by destruct (byId_inv_group edges).
Qed.

Lemma group_nonempty_selfId edges w :
  w ∈ groupLatestHeadsBySelfId edges → selfIdOf w ≠ "".
Proof.
  intros Hw%elem_of_group. destruct (byId_inv_group edges) as [_ Hentry _].
  by destruct (Hentry _ _ Hw) as (? & _ & _).
Qed.

(** X10.  Resolving what the resolver returned gives it back: edges whose
    nodes are the result of [groupLatestHeadsBySelfId] are resolved to that
    same list, in the same order. *)
Theorem resolver_is_idempotent (edges edges' : list ArweaveTxEdge) :
  node <$> edges' = groupLatestHeadsBySelfId edges →
  groupLatestHeadsBySelfId edges' = groupLatestHeadsBySelfId edges.
Proof.
  intros Hnodes. unfold groupLatestHeadsBySelfId at 1.
  rewrite (foldl_groupStep_distinct edges' []).
  - simpl. unfold Js.values. rewrite <-list_fmap_compose.
    change (snd ∘ _) with (node : ArweaveTxEdge → ArweaveTxNode).
    rewrite Hnodes. apply sort_of_sorted.
    apply (sort_sorted byHeightDesc heightOrMinus1). done.
  - rewrite Hnodes. apply group_NoDup_selfIds.
  - intros e He. split; [|apply not_elem_of_nil].
    apply (group_nonempty_selfId edges). rewrite <-Hnodes.
    apply list_elem_of_fmap. by exists e.
Qed.
End ResolverIdempotent.

Section ResolverIdempotentCases.
Import Js Async Arweave Schema Verify Examples.

Lemma resolver_is_idempotent_witness :
  groupLatestHeadsBySelfId (edgeOf <$> groupLatestHeadsBySelfId threeHeads)
  = groupLatestHeadsBySelfId threeHeads.
Proof.
  apply resolver_is_idempotent. vm_compute; reflexivity.
Defined.

End ResolverIdempotentCases.

Section ChainInvariants.
Import Js Async Verify.
Context {W : Type} (net : Network W TxData).
Implicit Types (st : State W).

Lemma bind_inr {A B} (m : M W A) (f : A → M W B) st b st' :
  (m ≫= f) st = (inr b, st') ↔ ∃ a st1, m st = (inr a, st1) ∧ f a st1 = (inr b, st').
Proof.
  rewrite run_bind. destruct (m st) as [[e|a] st1]; split.
  - done.
  - by intros (? & ? & ? & _).
  - intros H. by exists a, st1.
  - by intros (? & ? & [= <- <-] & ?).
Qed.

Lemma checkTx_ok txId tags payload :
  TxReport.ok (checkTx txId tags payload) = true ↔
  TxReport.errors (checkTx txId tags payload) = [].
Proof.
  unfold checkTx.
  destruct (if bool_decide (tagFirst tags "Entity" = Some "SelfHead") then _ else _)
    as [errors warnings].
  cbn. rewrite bool_decide_eq_true. split; [apply nil_length_inv|by intros ->].
Qed.

Lemma verifyTx_report txId st report st' :
  verifyTx net txId st = (inr report, st') →
  report = txNotFound txId ∨
  ∃ tags payload, report = checkTx txId tags payload.
Proof.
  unfold verifyTx. intros (metas & st1 & _ & Hrest)%bind_inr.
  destruct (head metas) as [meta|].
  - apply bind_inr in Hrest as (payload & st2 & _ & [= <- _]). right. eauto.
  - injection Hrest as <- _. by left.
Qed.

Lemma verifyTx_ok txId st report st' :
  verifyTx net txId st = (inr report, st') →
  TxReport.ok report = true ↔ TxReport.errors report = [].
Proof.
  intros [->|(tags & payload & ->)]%verifyTx_report; [done|apply checkTx_ok].
Qed.

Lemma recordIdea_spec errors warnings reports ref report :
  ∃ label r,
    recordIdea (errors, warnings, reports) ref report =
      (errors ++ (if TxReport.ok report then []
                  else (λ e, label +:+ e) <$> TxReport.errors report),
       warnings ++ ((λ w, label +:+ w) <$> TxReport.warnings report),
       reports ++ [r]) ∧
    IdeaReport.ok r = TxReport.ok report ∧
    IdeaReport.errors r = TxReport.errors report ∧
    IdeaReport.warnings r = TxReport.warnings report ∧
    IdeaReport.tx_id r = default JNull (prop (Some ref) "tx_id").
Proof.
  unfold recordIdea.
  exists ("Idea " +:+ ToString (or_else (prop (Some ref) "idea_id") (prop (Some ref) "tx_id"))
                  +:+ ": "),
    {| IdeaReport.idea_id :=
         default JNull (or_else (prop (Some ref) "idea_id") (Some JNull));
       IdeaReport.tx_id := default JNull (prop (Some ref) "tx_id");
       IdeaReport.ok := TxReport.ok report;
       IdeaReport.errors := TxReport.errors report;
       IdeaReport.warnings := TxReport.warnings report |}.
  split_and!; [|reflexivity..].
  destruct (TxReport.ok report); simpl; [|done]. by rewrite app_nil_r.
Qed.

(** What the loop over the idea references adds, when it comes to its
    end: one report for each reference whose [tx_id] is truthy, in order,
    and errors exactly when one of these reports is not ok. *)
Lemma verifyIdeaRefs_inv refs : ∀ errors warnings reports st errors' warnings' reports' st',
  verifyIdeaRefs net (errors, warnings, reports) refs st
    = (inr (errors', warnings', reports'), st') →
  ∃ added new,
    errors' = errors ++ added ∧ reports' = reports ++ new ∧
    (added = [] ↔ Forall (λ r, IdeaReport.ok r = true) new) ∧
    Forall (λ r, IdeaReport.ok r = true ↔ IdeaReport.errors r = []) new ∧
    IdeaReport.tx_id <$> new =
      omap (λ ref, if truthy (prop (Some ref) "tx_id")
                   then Some (default JNull (prop (Some ref) "tx_id")) else None) refs.
Proof.
  induction refs as [|ref refs IH];
    intros errors warnings reports st errors' warnings' reports' st' Hrun.
  - injection Hrun as <- <- <- <-. exists [], []. rewrite !app_nil_r.
    split_and!; try done.
  - cbn [verifyIdeaRefs] in Hrun.
    apply bind_inr in Hrun as ([[errors1 warnings1] reports1] & st1 & Hstep & Hrest).
    destruct (IH _ _ _ _ _ _ _ _ Hrest) as (added & new & -> & -> & Hok & Hall & Hids).
    unfold verifyIdeaRef in Hstep. csimpl.
    destruct (truthy (prop (Some ref) "tx_id")) eqn:Htruthy; cbn [negb] in Hstep.
    + apply bind_inr in Hstep as (report & st0 & Hverify & Hrec).
      destruct (recordIdea_spec errors warnings reports ref report)
        as (label & r & Heq & Hrok & Hrerr & Hrwarn & Hrid).
      cbn [mret M_ret ret] in Hrec. rewrite Heq in Hrec. injection Hrec as <- <- <- <-.
      pose proof (verifyTx_ok _ _ _ _ Hverify) as Hreport.
      exists ((if TxReport.ok report then []
               else (λ e, label +:+ e) <$> TxReport.errors report) ++ added), (r :: new).
      split_and!.
      * by rewrite <-app_assoc.
      * by rewrite <-app_assoc.
      * rewrite Forall_cons, <-Hok, Hrok. split.
        -- intros [Hhead ->]%app_eq_nil. split; [|done].
           destruct (TxReport.ok report) eqn:Hokr; [done|].
           apply fmap_nil_inv in Hhead. apply Hreport in Hhead. congruence.
        -- intros [-> ->]. done.
      * constructor; [|done]. by rewrite Hrok, Hrerr.
      * csimpl. by rewrite Hrid, Hids.
    + injection Hstep as <- <- <- <-. exists added, new. by split_and!.
Qed.

Lemma verifySelf_inv (selfId : string) (st : State W)
    (report : SelfReport.t) (st' : State W) :
  verifySelf net selfId st = (inr report, st') →
  (SelfReport.ok report = true ↔ SelfReport.errors report = []) ∧
  (SelfReport.idea_reports report = None → SelfReport.ok report = false) ∧
  (∀ ideaReports, SelfReport.idea_reports report = Some ideaReports →
     SelfReport.idea_count report = Some (length ideaReports) ∧
     (SelfReport.ok report = true →
        Forall (λ r, IdeaReport.ok r = true ∧ IdeaReport.errors r = []) ideaReports) ∧
     (∀ r, r ∈ ideaReports → IdeaReport.ok r = false → SelfReport.ok report = false)).
Proof.
  unfold verifySelf. intros (latest & st1 & _ & Hrest)%bind_inr.
  destruct (latest ≫= _) as [latest_id|].
  2:{ injection Hrest as <- _. cbn. split_and!; try done. }
  apply bind_inr in Hrest as (headReport & st2 & _ & Hrest).
  apply bind_inr in Hrest as (headPayload & st3 & _ & Hrest).
  destruct (as_string (prop (Some headPayload) "snapshot_tx")) as [snapshotTx|].
  2:{ injection Hrest as <- _. cbn. split_and!; try done.
      split; [done|]. intros [_ ?]%app_eq_nil. done. }
  apply bind_inr in Hrest as (snapshot & st4 & _ & Hrest).
  apply bind_inr in Hrest as (snapshotPayload & st5 & _ & Hrest).
  apply bind_inr in Hrest as ([[errors warnings] ideaReports] & st6 & Hloop & Hrest).
  injection Hrest as <- _.
  destruct (verifyIdeaRefs_inv _ _ _ _ _ _ _ _ _ Hloop)
    as (added & new & -> & Hnew & Hok & Hall & _).
  simpl in Hnew. subst ideaReports. cbn.
  assert (Hokiff : bool_decide (length (
      (if negb (TxReport.ok snapshot)
       then (if negb (TxReport.ok headReport)
             then (λ e, "Head: " +:+ e) <$> TxReport.errors headReport else [])
            ++ ((λ e, "Snapshot: " +:+ e) <$> TxReport.errors snapshot)
       else if negb (TxReport.ok headReport)
            then (λ e, "Head: " +:+ e) <$> TxReport.errors headReport else [])
      ++ added) = 0%nat) = true → added = []).
  { intros Hlen%bool_decide_eq_true%nil_length_inv. by apply app_eq_nil in Hlen as [_ ?]. }
  split_and!.
  - rewrite bool_decide_eq_true. split; [apply nil_length_inv|by intros ->].
  - done.
  - intros ? [= <-]. split_and!; [done| |].
    + intros Hadded%Hokiff. apply Hok in Hadded.
      apply Forall_forall. intros r Hr.
      pose proof (proj1 (Forall_forall _ _) Hadded r Hr) as Hrok.
      pose proof (proj1 (Forall_forall _ _) Hall r Hr) as Hriff. simpl in *.
      split; [done|]. by apply Hriff.
    + intros r Hr Hfalse. apply not_true_is_false. intros Hb.
      apply Hokiff, Hok in Hb.
      pose proof (proj1 (Forall_forall _ _) Hb r Hr). simpl in *. congruence.
Qed.

(** X11.  In every report that [verifySelf] returns, [ok] is true exactly when
    [errors] is empty. A report without idea reports (no head was found, or
    the head has no [snapshot_tx]) is not ok. In a report with idea reports,
    [idea_count] is their number, [ok] implies that every idea report is ok
    and has no error, and one idea report that is not ok makes the whole
    report not ok. *)
Theorem verifySelf_ok_means_no_error (selfId : string) (st : State W)
    (report : SelfReport.t) (st' : State W) :
  verifySelf net selfId st = (inr report, st') →
  (SelfReport.ok report = true ↔ SelfReport.errors report = []) ∧
  (SelfReport.idea_reports report = None → SelfReport.ok report = false) ∧
  (∀ ideaReports, SelfReport.idea_reports report = Some ideaReports →
     SelfReport.idea_count report = Some (length ideaReports) ∧
     (SelfReport.ok report = true →
        Forall (λ r, IdeaReport.ok r = true ∧ IdeaReport.errors r = []) ideaReports) ∧
     (∀ r, r ∈ ideaReports → IdeaReport.ok r = false → SelfReport.ok report = false)).
Proof. apply verifySelf_inv. Qed.
End ChainInvariants.

Section ChainInvariantsCases.
Import Js Async Arweave Schema Verify Examples.

Lemma verifySelf_ok_means_no_error_witness :
  ∃ report st',
    verifySelf ledgerWithUnknownIdea "self-abc" start = (inr report, st') ∧
    (SelfReport.ok report = true ↔ SelfReport.errors report = []).
Proof.
  eexists _, _. split; [vm_compute; reflexivity|].
  refine (proj1 (verifySelf_ok_means_no_error ledgerWithUnknownIdea "self-abc" start _ _ _)).
  vm_compute; reflexivity.
Defined.

End ChainInvariantsCases.

Section CommandLine.
Import Js Async Verify.

Lemma prefix_dashes part :
  String.prefix "--" part = true → part = "--" +:+ slice2 part.
Proof.
  intros H%String.prefix_correct.
  destruct part as [|a [|b rest]]; simpl in H; try done.
  by destruct rest; simpl in H; injection H as -> ->.
Qed.

Lemma prefix_dashes_app key : String.prefix "--" ("--" +:+ key) = true.
Proof. apply String.prefix_correct. simpl. by destruct key. Qed.

Lemma slice2_app key : slice2 ("--" +:+ key) = key.
Proof. done. Qed.

Lemma assign_lookup key v args k x :
  assign key v args !! k = Some x →
  (k = key ∧ x = v ∧ key ≠ "__proto__") ∨ args !! k = Some x.
Proof.
  unfold assign. case_decide as Hproto; [by right|].
  destruct (decide (k = key)) as [->|Hne].
  - rewrite lookup_insert_eq. intros [= <-]. by left.
  - rewrite lookup_insert_ne by done. by right.
Qed.

(** What [parseArgs] can have stored under a key. *)
Lemma parseArgs_from_lookup argv : ∀ args k x,
  parseArgs_from args argv !! k = Some x →
  args !! k = Some x ∨
  (("--" +:+ k) ∈ argv ∧ k ≠ "__proto__" ∧
   (x = "true" ∨ (x ∈ drop 1 argv ∧ x ≠ "" ∧ String.prefix "--" x = false))).
Proof.
  induction argv as [argv IH] using (induction_ltof1 _ (@length string)).
  unfold ltof in IH. intros args k x.
  destruct argv as [|part argv']; [by left|]. cbn [parseArgs_from].
  assert (Hweaken : ∀ l : list string, x ∈ drop 1 l → x ∈ l).
  { intros [|? l]; [done|]. cbn [drop]. by right. }
  destruct (String.prefix "--" part) eqn:Hpart; cbn [negb].
  - apply prefix_dashes in Hpart.
    destruct argv' as [|next argv''].
    + intros [(-> & -> & ?)|?]%assign_lookup; [|by left].
      right. rewrite <-Hpart. split_and!; [left|done|by left].
    + destruct (negb (truthy_string next) || String.prefix "--" next) eqn:Hnext.
      * intros [Hin|(Hin & ? & Hx)]%IH; [|right|simpl; lia].
        -- apply assign_lookup in Hin as [(-> & -> & ?)|?]; [|by left].
           right. rewrite <-Hpart. split_and!; [left|done|by left].
        -- split_and!; [by right|done|].
           destruct Hx as [?|(? & ? & ?)]; [by left|right].
           split_and!; [|done..]. cbn [drop]. by apply Hweaken.
      * apply orb_false_iff in Hnext as [Htruthy Hdash].
        apply negb_false_iff in Htruthy. unfold truthy_string in Htruthy.
        apply bool_decide_eq_true in Htruthy.
        intros [Hin|(Hin & ? & Hx)]%IH; [|right|simpl; lia].
        -- apply assign_lookup in Hin as [(-> & -> & ?)|?]; [|by left].
           right. rewrite <-Hpart. split_and!; [left|done|].
           right. split_and!; [cbn [drop]; left|done..].
        -- split_and!; [by do 2 right|done|].
           destruct Hx as [?|(? & ? & ?)]; [by left|right].
           split_and!; [|done..]. cbn [drop]. right. by apply Hweaken.
  - intros [?|(Hin & ? & Hx)]%IH; [by left|right|simpl; lia].
    split_and!; [by right|done|].
    destruct Hx as [?|(? & ? & ?)]; [by left|right].
    split_and!; [|done..]. cbn [drop]. by apply Hweaken.
Qed.

(** X12.  What [parseArgs] stores comes from the command line: the key [k] of
    an own property stands as the word --k behind the first two words, it is
    not __proto__, and the value is the string true or a later word that is
    not empty and does not start with two dashes. *)
Theorem parseArgs_stores_only_flags_and_values (argv : list string) (k x : string) :
  parseArgs argv !! k = Some x →
  ("--" +:+ k) ∈ drop 2 argv ∧ k ≠ "__proto__" ∧ x ≠ "" ∧
  (x = "true" ∨ (x ∈ drop 3 argv ∧ String.prefix "--" x = false)).
Proof.
  unfold parseArgs. intros [?%lookup_empty_Some|(Hin & Hproto & Hx)]%parseArgs_from_lookup;
    [done|].
  split_and!; [done..| |].
  - by destruct Hx as [->|(_ & ? & _)].
  - destruct Hx as [?|(Hxin & ? & Hdash)]; [by left|right]. split; [|done].
    by rewrite drop_drop in Hxin.
Qed.
End CommandLine.

Section CommandLineCases.
Import Js Async Arweave Schema Verify Examples.

Lemma parseArgs_stores_only_flags_and_values_witness :
  ("--" +:+ "self_id") ∈ drop 2 ["node"; "verify.mjs"; "--self_id"; "self-abc"] ∧
  "self_id" ≠ "__proto__" ∧ "self-abc" ≠ "" ∧
  ("self-abc" = "true" ∨
   ("self-abc" ∈ drop 3 ["node"; "verify.mjs"; "--self_id"; "self-abc"] ∧
    String.prefix "--" "self-abc" = false)).
Proof.
  apply (parseArgs_stores_only_flags_and_values
           ["node"; "verify.mjs"; "--self_id"; "self-abc"] "self_id" "self-abc").
  vm_compute; reflexivity.
Defined.

End CommandLineCases.

Section CommandLineRoundTrip.
Import Js Async Verify.

Lemma parseArgs_from_options options : ∀ args,
  (∀ k v, (k, v) ∈ options →
     k ≠ "__proto__" ∧ ∀ x, v = Some x → x ≠ "" ∧ String.prefix "--" x = false) →
  parseArgs_from args (argvOf options) =
    foldl (λ m o, <[ o.1 := default "true" o.2 ]> m) args options.
Proof.
  induction options as [|[k v] options IH]; intros args Hwf; [done|].
  destruct (Hwf k v) as [Hproto Hv]; [left|].
  assert (Hrest : ∀ k' v', (k', v') ∈ options →
            k' ≠ "__proto__" ∧ ∀ x, v' = Some x → x ≠ "" ∧ String.prefix "--" x = false).
  { intros k' v' Hin. apply Hwf. by right. }
  assert (Hassign : ∀ x, assign k x args = <[ k := x ]> args).
  { intros x. unfold assign. by rewrite decide_False. }
  unfold argvOf. cbn [flat_map foldl fst snd]. fold (argvOf options).
  destruct v as [x|].
  - change (option_list (Some x)) with [x]. change (default "true" (Some x)) with x.
    cbn [app]. destruct (Hv x eq_refl) as [Hx Hdash].
    cbn [parseArgs_from]. rewrite prefix_dashes_app. cbn [negb]. rewrite slice2_app.
    unfold truthy_string. rewrite bool_decide_true by done. rewrite Hdash. cbn [negb orb].
    rewrite Hassign. by apply IH.
  - change (option_list None) with (@nil string).
    change (default "true" None) with "true". cbn [app].
    destruct options as [|[k' v'] options'].
    + cbn [argvOf flat_map parseArgs_from foldl].
      rewrite prefix_dashes_app. cbn [negb]. by rewrite slice2_app, Hassign.
    + rewrite <-(IH (<[ k := "true" ]> args) Hrest).
      unfold argvOf. cbn [flat_map fst snd app]. fold (argvOf options').
      cbn [parseArgs_from]. rewrite !prefix_dashes_app. cbn [negb].
      rewrite orb_true_r, !slice2_app, Hassign. done.
Qed.

Lemma optionsMap_lookup options k : ∀ (m : gmap string string),
  foldl (λ m o, <[ o.1 := default "true" o.2 ]> m) m options !! k =
    match last (filter (λ o, o.1 = k) options) with
    | Some o => Some (default "true" o.2)
    | None => m !! k
    end.
Proof.
  induction options as [|o options IH]; intros m; [done|].
  cbn [foldl]. rewrite IH, filter_cons.
  destruct (decide (o.1 = k)) as [<-|Hne].
  - rewrite last_cons. destruct (last (filter _ options)); [done|].
    by rewrite lookup_insert_eq.
  - destruct (last (filter _ options)); [done|]. by rewrite lookup_insert_ne.
Qed.

(** X13.  Round trip of the command line: when the words behind the first two
    are options, each a flag --key alone or followed by its value (no key
    __proto__, no value that is empty or starts with two dashes), [parseArgs]
    holds for each key the value of its last occurrence, the string true for a
    flag alone, and nothing for a key that does not occur. *)
Theorem parseArgs_reads_flags_and_values
    (node script : string) (options : list (string * option string)) :
  (∀ k v, (k, v) ∈ options →
     k ≠ "__proto__" ∧ ∀ x, v = Some x → x ≠ "" ∧ String.prefix "--" x = false) →
  ∀ k, parseArgs (node :: script :: argvOf options) !! k =
         (λ o, default "true" o.2) <$> last (filter (λ o, o.1 = k) options).
Proof.
  intros Hwf k. unfold parseArgs. cbn [drop].
  rewrite (parseArgs_from_options options ∅ Hwf), optionsMap_lookup.
  by destruct (last _).
Qed.
End CommandLineRoundTrip.

Section CommandLineRoundTripCases.
Import Js Async Arweave Schema Verify Examples.

Lemma parseArgs_reads_flags_and_values_witness :
  parseArgs ("node" :: "verify.mjs" ::
             argvOf [("self_id", Some "self-abc"); ("verbose", None);
                     ("self_id", Some "self-xyz")]) !! "self_id"
  = Some "self-xyz".
Proof.
  rewrite parseArgs_reads_flags_and_values; [reflexivity|].
  intros k v Hin.
  repeat (apply elem_of_cons in Hin as [[= -> ->]|Hin];
          [split; [discriminate|]; intros x Hx; by simplify_eq|]).
  by apply elem_of_nil in Hin.
Defined.

End CommandLineRoundTripCases.

Section ScriptOutcome.
Import Js Async Verify.
Context {W : Type} (net : Network W TxData).

Lemma run_invalid argv (st : State W) :
  truthy_string (default "" (parseArgs argv !! "tx_id"))
    = truthy_string (default "" (parseArgs argv !! "self_id")) →
  ∃ err, run net argv st = (inl err, st).
Proof.
  unfold run. intros ->.
  destruct (truthy_string (default "" (parseArgs argv !! "self_id"))); by eexists.
Qed.

Lemma run_inr argv (st : State W) result st' :
  run net argv st = (inr result, st') →
  truthy_string (default "" (parseArgs argv !! "tx_id"))
    ≠ truthy_string (default "" (parseArgs argv !! "self_id")) ∧
  ((∃ txId report, verifyTx net txId st = (inr report, st') ∧ result = TxResult report) ∨
   (∃ selfId report,
      verifySelf net selfId st = (inr report, st') ∧ result = SelfResult report)).
Proof.
  unfold run.
  destruct (truthy_string (default "" (parseArgs argv !! "tx_id")));
    destruct (truthy_string (default "" (parseArgs argv !! "self_id")));
    cbn [negb andb]; try done.
  - intros (report & st1 & Hrun & [= <- <-])%bind_inr. split; [done|]. left. eauto.
  - intros (report & st1 & Hrun & [= <- <-])%bind_inr. split; [done|]. right. eauto.
Qed.

Lemma Result_ok_errors argv (st : State W) result st' :
  run net argv st = (inr result, st') →
  Result_ok result = true ↔ Result_errors result = [].
Proof.
  intros [_ [(txId & report & Hrun & ->)|(selfId & report & Hrun & ->)]]%run_inr; cbn.
  - by eapply verifyTx_ok.
  - by eapply verifySelf_inv.
Qed.

(** X14.  The verify script ends with the exit code 0, 1 or 2: with 0 exactly
    when it has printed a report without errors, with 2 exactly when it has
    printed a report with errors, with 1 exactly when it has printed no report
    but an error message. When --tx_id and --self_id are both given or both
    missing it ends with 1 and has made no request; and a self report printed
    with the exit code 0 holds only idea reports that are ok. *)
Theorem main_exit_code (argv : list string) (st : State W) :
  let outcome := (main net argv st).1 in
  let st' := (main net argv st).2 in
  let given name := truthy_string (default "" (parseArgs argv !! name)) in
  (exitCode outcome = 0 ∨ exitCode outcome = 1 ∨ exitCode outcome = 2)%Z ∧
  (exitCode outcome = 0%Z ↔
     ∃ result, stdout outcome = Some result ∧ Result_errors result = []) ∧
  (exitCode outcome = 2%Z ↔
     ∃ result, stdout outcome = Some result ∧ Result_errors result ≠ []) ∧
  (exitCode outcome = 1%Z ↔ stdout outcome = None ∧ is_Some (stderr outcome)) ∧
  (given "tx_id" = given "self_id" → exitCode outcome = 1%Z ∧ trace st' = trace st) ∧
  (∀ report ideaReports,
     stdout outcome = Some (SelfResult report) →
     SelfReport.idea_reports report = Some ideaReports →
     exitCode outcome = 0%Z →
     Forall (λ r, IdeaReport.ok r = true) ideaReports).
Proof.
  intros outcome st' given. subst outcome st'. unfold main.
  destruct (run net argv st) as [[err|result] st1] eqn:Hrun; cbn [fst snd].
  - cbn [exitCode stdout stderr]. split_and!.
    + auto.
    + split; [done|]. by intros (? & ? & _).
    + split; [done|]. by intros (? & ? & _).
    + done.
    + intros Heq. split; [done|].
      destruct (run_invalid argv st Heq) as [err' Hrun']. congruence.
    + done.
  - pose proof (Result_ok_errors _ _ _ _ Hrun) as Hok.
    cbn [exitCode stdout stderr].
    destruct (Result_ok result) eqn:Hres; cbn [negb].
    + split_and!.
      * auto.
      * split; [|done]. intros _. exists result. split; [done|]. by apply Hok.
      * split; [done|]. intros (? & [= <-] & Hne). exfalso. by apply Hne, Hok.
      * split; [done|]. by intros [? _].
      * intros Heq. by destruct (run_inr _ _ _ _ Hrun) as [? _].
      * intros report ideaReports [= ->] Hreports _.
        destruct (run_inr _ _ _ _ Hrun) as [_ [(? & ? & _ & ?)|(selfId & ? & Hself & [= <-])]];
          [done|].
        destruct (verifySelf_inv net _ _ _ _ Hself) as (_ & _ & Hall).
        destruct (Hall _ Hreports) as (_ & Hforall & _).
        eapply Forall_impl; [by apply Hforall|]. by intros ? [? _].
    + split_and!.
      * auto.
      * split; [done|]. intros (? & [= <-] & Hnil). apply Hok in Hnil. congruence.
      * split; [|done]. intros _. exists result. split; [done|].
        intros Hnil%Hok. congruence.
      * split; [done|]. by intros [? _].
      * intros Heq. by destruct (run_inr _ _ _ _ Hrun) as [? _].
      * done.
Qed.
End ScriptOutcome.

Section VerifyFootprint.
Import Js Async Verify.
Context {W : Type} (net : Network W TxData).
Implicit Types (st : State W).

Lemma postGraphqlAttempt_trace query variables endpoint st :
  trace (postGraphqlAttempt net query variables endpoint st).2 =
    trace st ++ [POST endpoint {| query := query; variables := variables |}].
Proof.
  unfold postGraphqlAttempt, fetch_post, mbind, M_bind, bind.
  destruct (post net (world st) endpoint _) as [[e|res] w]; [done|].
  destruct (Async.ok res); simpl; [|done].
  unfold read_json. destruct (body res) as [e|json]; [done|]. simpl.
  case_bool_decide; [done|]. by destruct (data json).
Qed.

Lemma fetchJsonAttempt_trace txId gw st :
  trace (fetchJsonAttempt net txId gw st).2 =
    trace st ++ [GET (gw +:+ "/" +:+ ToString (Some txId))].
Proof.
  unfold fetchJsonAttempt, fetch_get, mbind, M_bind, bind.
  destruct (get net (world st) _) as [[e|res] w]; [done|].
  destruct (Async.ok res); simpl; [|done].
  unfold read_json. by destruct (body res).
Qed.

(** The loop of [postGraphql], whatever the network does. *)
Lemma postGraphql_from_footprint query variables endpoints lastErr st :
  let attempt ep := POST ep {| query := query; variables := variables |} in
  let r := postGraphql_from net query variables endpoints lastErr st in
  (∃ pre ep rest d,
     endpoints = pre ++ ep :: rest ∧ r.1 = inr d ∧
     trace r.2 = trace st ++ (attempt <$> pre ++ [ep])) ∨
  (∃ err, r.1 = inl err ∧ trace r.2 = trace st ++ (attempt <$> endpoints) ∧
     (endpoints = [] → err = default (mkError "GraphQL failed") lastErr) ∧
     (∀ pre last, endpoints = pre ++ [last] →
        ∃ st0, (postGraphqlAttempt net query variables last st0).1 = inl err)).
Proof.
  intros attempt. revert lastErr st.
  induction endpoints as [|endpoint rest IH]; intros lastErr st r.
  - right. eexists. split_and!; [done| |done|].
    + simpl. by rewrite app_nil_r.
    + by intros [|??] ? ?.
  - pose proof (postGraphqlAttempt_trace query variables endpoint st) as Htrace.
    subst r. cbn [postGraphql_from]. unfold try_catch.
    destruct (postGraphqlAttempt net query variables endpoint st) as [[e|d] st1] eqn:Hrun.
    + simpl in Htrace.
      destruct (IH (Some e) st1)
        as [(pre & ep & rest' & d & -> & Hd & Htr)|(err & Herr & Htr & Hnil & Hlast)].
      * left. exists (endpoint :: pre), ep, rest', d. split_and!; [done..|].
        rewrite Htr, Htrace. by rewrite <-app_assoc.
      * right. exists err. split_and!; [done| |done|].
        -- rewrite Htr, Htrace. by rewrite <-app_assoc.
        -- intros pre last Heq. destruct pre as [|p pre]; simpl in Heq.
           ++ injection Heq as -> ->. exists st. rewrite Hrun. simpl.
              by rewrite (Hnil eq_refl).
           ++ injection Heq as -> ->. by eapply Hlast.
    + left. exists [], endpoint, rest, d. by split_and!.
Qed.

Lemma fetchJsonByTxId_from_footprint txId gateways lastErr st :
  let attempt gw := GET (gw +:+ "/" +:+ ToString (Some txId)) in
  let r := fetchJsonByTxId_from net txId gateways lastErr st in
  (∃ pre gw rest doc,
     gateways = pre ++ gw :: rest ∧ r.1 = inr doc ∧
     trace r.2 = trace st ++ (attempt <$> pre ++ [gw])) ∨
  (∃ err, r.1 = inl err ∧ trace r.2 = trace st ++ (attempt <$> gateways) ∧
     (gateways = [] →
        err = default (mkError ("Failed to fetch tx " +:+ ToString (Some txId))) lastErr) ∧
     (∀ pre last, gateways = pre ++ [last] →
        ∃ st0, (fetchJsonAttempt net txId last st0).1 = inl err)).
Proof.
  intros attempt. revert lastErr st.
  induction gateways as [|gw rest IH]; intros lastErr st r.
  - right. eexists. split_and!; [done| |done|].
    + simpl. by rewrite app_nil_r.
    + by intros [|??] ? ?.
  - pose proof (fetchJsonAttempt_trace txId gw st) as Htrace.
    subst r. cbn [fetchJsonByTxId_from]. unfold try_catch.
    destruct (fetchJsonAttempt net txId gw st) as [[e|d] st1] eqn:Hrun.
    + simpl in Htrace.
      destruct (IH (Some e) st1)
        as [(pre & g & rest' & d & -> & Hd & Htr)|(err & Herr & Htr & Hnil & Hlast)].
      * left. exists (gw :: pre), g, rest', d. split_and!; [done..|].
        rewrite Htr, Htrace. by rewrite <-app_assoc.
      * right. exists err. split_and!; [done| |done|].
        -- rewrite Htr, Htrace. by rewrite <-app_assoc.
        -- intros pre last Heq. destruct pre as [|p pre]; simpl in Heq.
           ++ injection Heq as -> ->. exists st. rewrite Hrun. simpl.
              by rewrite (Hnil eq_refl).
           ++ injection Heq as -> ->. by eapply Hlast.
    + left. exists [], gw, rest, d. by split_and!.
Qed.

(** X15.  Whatever the network does, [postGraphql] and [fetchJsonByTxId] of
    the verify script ask the first service, and the second one only when the
    first attempt has failed, with no pause and no second try: when the
    attempt on the first service succeeds, its result is returned after that
    one request; when it fails, the outcome is that of the attempt on the
    second service, made in the state that the first attempt has left, be it
    its result or the error that it raises, after those two requests. *)
Theorem verify_clients_ask_each_service_once :
  (∀ query variables st,
     let attempt ep := POST ep {| query := query; variables := variables |} in
     let first :=
       postGraphqlAttempt net query variables "https://arweave.net/graphql" st in
     let second :=
       postGraphqlAttempt net query variables "https://ar-io.dev/graphql" first.2 in
     postGraphql net query variables st =
       match first.1 with
       | inr data => (inr data, first.2)
       | inl _ => second
       end ∧
     trace first.2 = trace st ++ [attempt "https://arweave.net/graphql"] ∧
     trace second.2 = trace st ++ [attempt "https://arweave.net/graphql";
                                   attempt "https://ar-io.dev/graphql"]) ∧
  (∀ txId st,
     let attempt gw := GET (gw +:+ "/" +:+ ToString (Some txId)) in
     let first := fetchJsonAttempt net txId "https://arweave.net" st in
     let second := fetchJsonAttempt net txId "https://ar-io.dev" first.2 in
     fetchJsonByTxId net txId st =
       match first.1 with
       | inr doc => (inr doc, first.2)
       | inl _ => second
       end ∧
     trace first.2 = trace st ++ [attempt "https://arweave.net"] ∧
     trace second.2 = trace st ++ [attempt "https://arweave.net";
                                   attempt "https://ar-io.dev"]).
Proof.
  split.
  - intros query variables st attempt first second. split_and!.
    + unfold postGraphql, GRAPHQL_ENDPOINTS. cbn [postGraphql_from]. unfold try_catch.
      fold first. destruct first as [[e1|data] st1]; [|done].
      cbn [fst snd] in second. fold second.
      by destruct second as [[e2|data] st2].
    + apply postGraphqlAttempt_trace.
    + subst second. rewrite postGraphqlAttempt_trace. subst first.
      rewrite postGraphqlAttempt_trace. by rewrite <-app_assoc.
  - intros txId st attempt first second. split_and!.
    + unfold fetchJsonByTxId, GATEWAYS. cbn [fetchJsonByTxId_from]. unfold try_catch.
      fold first. destruct first as [[e1|doc] st1]; [|done].
      cbn [fst snd] in second. fold second.
      by destruct second as [[e2|doc] st2].
    + apply fetchJsonAttempt_trace.
    + subst second. rewrite fetchJsonAttempt_trace. subst first.
      rewrite fetchJsonAttempt_trace. by rewrite <-app_assoc.
Qed.

Lemma postGraphql_trace query variables st :
  ∃ posts, posts ≠ [] ∧ posts `prefix_of` GRAPHQL_ENDPOINTS ∧
    trace (postGraphql net query variables st).2 =
      trace st ++ ((λ ep, POST ep {| query := query; variables := variables |}) <$> posts).
Proof.
  destruct (postGraphql_from_footprint query variables GRAPHQL_ENDPOINTS None st)
    as [(pre & ep & rest & d & Heq & _ & Htr)|(err & _ & Htr & _)].
  - exists (pre ++ [ep]). split_and!; [by destruct pre| |done].
    exists rest. by rewrite <-app_assoc.
  - by exists GRAPHQL_ENDPOINTS.
Qed.

Lemma fetchJsonByTxId_trace txId st :
  ∃ gets, gets ≠ [] ∧ gets `prefix_of` GATEWAYS ∧
    trace (fetchJsonByTxId net txId st).2 =
      trace st ++ ((λ gw, GET (gw +:+ "/" +:+ ToString (Some txId))) <$> gets).
Proof.
  destruct (fetchJsonByTxId_from_footprint txId GATEWAYS None st)
    as [(pre & gw & rest & d & Heq & _ & Htr)|(err & _ & Htr & _)].
  - exists (pre ++ [gw]). split_and!; [by destruct pre| |done].
    exists rest. by rewrite <-app_assoc.
  - by exists GATEWAYS.
Qed.

Lemma checkTx_tx_id txId tags payload :
  TxReport.tx_id (checkTx txId tags payload) = Some txId.
Proof.
  unfold checkTx.
  by destruct (if bool_decide (tagFirst tags "Entity" = Some "SelfHead") then _ else _).
Qed.

(** X16.  Whatever the network does, [verifyTx] sends the metadata query to a
    prefix of the query endpoints that is not empty, and then requests the
    document from a prefix of the gateways. It requests no document exactly
    when it reports that the transaction was not found, and a report that it
    returns is ok exactly when it has no error. *)
Theorem verifyTx_fetches_only_what_the_index_found (txId : json) (st : State W) :
  let r := verifyTx net txId st in
  let meta ep :=
    POST ep {| query := TX_META_QUERY; variables := JObj [("ids", JArr [txId])] |} in
  let doc gw := GET (gw +:+ "/" +:+ ToString (Some txId)) in
  ∃ posts gets,
    trace r.2 = trace st ++ (meta <$> posts) ++ (doc <$> gets) ∧
    posts ≠ [] ∧ posts `prefix_of` GRAPHQL_ENDPOINTS ∧ gets `prefix_of` GATEWAYS ∧
    ∀ report, r.1 = inr report →
      (TxReport.ok report = true ↔ TxReport.errors report = []) ∧
      (gets = [] ↔ report = txNotFound txId) ∧
      (gets ≠ [] ↔ TxReport.tx_id report = Some txId).
Proof.
  intros r meta doc. subst r. unfold verifyTx, getTxMeta. rewrite run_bind.
  destruct (postGraphql_trace TX_META_QUERY (JObj [("ids", JArr [txId])]) st)
    as (posts & Hne & Hpre & Htr).
  fold meta in Htr.
  destruct (postGraphql net TX_META_QUERY _ st) as [[e|metas] st1].
  - exists posts, []. simpl in *. rewrite app_nil_r. split_and!; [done..| |done].
    apply prefix_nil.
  - destruct (head metas) as [m|].
    + rewrite run_bind.
      destruct (fetchJsonByTxId_trace txId st1) as (gets & Hgne & Hgpre & Hgtr).
      fold doc in Hgtr.
      destruct (fetchJsonByTxId net txId st1) as [[e|payload] st2].
      * exists posts, gets. simpl in *. rewrite Hgtr, Htr, <-app_assoc.
        by split_and!.
      * exists posts, gets. simpl in *. rewrite Hgtr, Htr, <-app_assoc.
        split_and!; [done..|]. intros report [= <-]. split_and!.
        -- apply checkTx_ok.
        -- split; [done|]. intros Heq. apply (f_equal TxReport.tx_id) in Heq.
           by rewrite checkTx_tx_id in Heq.
        -- by rewrite checkTx_tx_id.
    + exists posts, []. simpl in *. rewrite app_nil_r. split_and!; [done..|apply prefix_nil|].
      intros report [= <-]. split_and!; [done|done|].
      split; [done|]. done.
Qed.
End VerifyFootprint.

Section FetchFacts.
Import Tags Js Async.

Lemma orNull_is_Some v : is_Some (Fetch.orNull v) ↔ ∃ s, v = Some s ∧ s ≠ "".
Proof.
  unfold Fetch.orNull, truthy_string. destruct v as [s|]; simpl.
  - case_bool_decide; split.
    + intros _. by exists s.
    + done.
    + by intros [? ?].
    + intros (? & [= <-] & ?). done.
  - split; [by intros [? ?]|by intros (? & ? & _)].
Qed.

(** X17.  On the same tags, [tagCheck] of the fetch script finds a transaction
    discoverable exactly when the namespace test of the verify script passes
    and the first Entity tag is not empty. A transaction that the checks of
    [verifyTx] pass is discoverable, and for an entity other than SelfHead and
    SelfSnapshot the two verdicts are the same. *)
Theorem tagCheck_agrees_with_verifyTx (tags : list ArweaveTag) (txId payload : json) :
  let check := Fetch.tagCheck (Fetch.tagsToMap tags) in
  let report := Verify.checkTx txId (Verify.tagsToMap tags) payload in
  let entity := Verify.tagFirst (Verify.tagsToMap tags) "Entity" in
  (Fetch.TagCheck.discoverable check = true ↔
     Verify.hasAfterlifeNamespace (Verify.tagsToMap tags) = true ∧
     ∃ e, entity = Some e ∧ e ≠ "") ∧
  (Verify.TxReport.ok report = true → Fetch.TagCheck.discoverable check = true) ∧
  (entity ≠ Some "SelfHead" → entity ≠ Some "SelfSnapshot" →
     Verify.TxReport.ok report = Fetch.TagCheck.discoverable check).
Proof.
  intros check report entity.
  assert (Hdisc : Fetch.TagCheck.discoverable check =
                  Verify.hasAfterlifeNamespace (Verify.tagsToMap tags)
                  && truthy_string (default "" entity)).
  { subst check entity. unfold Fetch.tagCheck, Verify.hasAfterlifeNamespace.
    cbn [Fetch.TagCheck.discoverable].
    change (Fetch.tagFirst (Fetch.tagsToMap tags)) with (Verify.tagFirst (Verify.tagsToMap tags)).
    f_equal. unfold Fetch.orNull, truthy_string.
    destruct (Verify.tagFirst (Verify.tagsToMap tags) "Entity") as [e|]; simpl.
    - destruct (bool_decide (e ≠ "")).
      + apply bool_decide_eq_true. by eexists.
      + apply bool_decide_eq_false. by intros [? ?].
    - done. }
  assert (Herrors : Verify.TxReport.errors report = [] →
                    Verify.hasAfterlifeNamespace (Verify.tagsToMap tags) = true ∧
                    truthy_string (default "" entity) = true).
  { subst report entity. unfold Verify.checkTx.
    destruct (Verify.hasAfterlifeNamespace (Verify.tagsToMap tags)); cbn [negb].
    - destruct (truthy_string (default "" (Verify.tagFirst (Verify.tagsToMap tags) "Entity")));
        cbn [negb]; [done|].
      repeat case_bool_decide; cbn; try done; by intros ?%app_eq_nil.
    - destruct (truthy_string (default "" (Verify.tagFirst (Verify.tagsToMap tags) "Entity")));
        cbn [negb]; repeat case_bool_decide; cbn; try done. }
  split_and!.
  - rewrite Hdisc, andb_true_iff. unfold truthy_string.
    rewrite bool_decide_eq_true.
    destruct entity as [e|]; simpl; split; try tauto.
    + intros [? ?]. split; [done|]. by exists e.
    + intros [? (? & [= <-] & ?)]. done.
    + intros [_ (? & ? & _)]. done.
  - intros Hok%checkTx_ok. rewrite Hdisc. destruct (Herrors Hok) as [-> ->]. done.
  - intros Hhead Hsnap. rewrite Hdisc. subst report. unfold Verify.checkTx.
    fold entity. rewrite !(bool_decide_false (entity = Some "SelfHead")) by done.
    rewrite !(bool_decide_false (entity = Some "SelfSnapshot")) by done.
    destruct (Verify.hasAfterlifeNamespace (Verify.tagsToMap tags));
      destruct (truthy_string (default "" entity)); cbn [negb];
      by case_bool_decide.
Qed.
End FetchFacts.

Section FetchLoop.
Import Js Async Fetch.
Context {W : Type} (net : Network W TxData).
Implicit Types (st : State W).

Lemma ideaEntry_returns byId item st :
  ∃ entry st',
    ideaEntry net byId item st = (inr entry, st') ∧
    match entry with
    | None => truthy (prop (Some item) "tx_id") = false
    | Some idea =>
        truthy (prop (Some item) "tx_id") = true ∧
        prop (Some item) "tx_id" = Some (Idea.tx_id idea) ∧
        Idea.idea_id idea = default JNull (prop (Some item) "idea_id") ∧
        match fetchJsonByTxId net (Idea.tx_id idea) st with
        | (inr doc, st1) => Idea.payload idea = doc ∧ st' = st1
        | (inl _, st1) => Idea.payload idea = JNull ∧ st' = st1
        end
    end.
Proof.
  unfold ideaEntry. destruct (truthy (prop (Some item) "tx_id")) eqn:Htruthy; cbn [negb].
  - rewrite run_bind. unfold try_catch.
    assert (∃ tx, prop (Some item) "tx_id" = Some tx) as [tx Htx].
    { destruct (prop (Some item) "tx_id"); [by eexists|done]. }
    rewrite Htx. change (default JNull (Some tx)) with tx.
    destruct (fetchJsonByTxId net tx st) as [[e|doc] st1] eqn:Hfetch.
    + eexists _, _. split; [reflexivity|].
      cbn [Idea.tx_id Idea.payload Idea.idea_id]. rewrite Hfetch. done.
    + eexists _, _. split; [reflexivity|].
      cbn [Idea.tx_id Idea.payload Idea.idea_id]. rewrite Hfetch. done.
  - by exists None, st.
Qed.

Lemma ideaEntries_returns byId selected : ∀ ideas st,
  ∃ entries st',
    ideaEntries net byId ideas selected st = (inr (ideas ++ entries), st') ∧
    Some <$> (Idea.tx_id <$> entries) =
      filter (λ v, truthy v = true) ((λ item, prop (Some item) "tx_id") <$> selected).
Proof.
  induction selected as [|item rest IH]; intros ideas st.
  - exists [], st. by rewrite app_nil_r.
  - cbn [ideaEntries]. rewrite run_bind.
    destruct (ideaEntry_returns byId item st) as (entry & st1 & -> & Hentry).
    destruct (IH (ideas ++ option_list entry) st1) as (entries & st2 & -> & Hids).
    exists (option_list entry ++ entries), st2. rewrite app_assoc. split; [done|].
    csimpl. rewrite filter_cons. destruct entry as [idea|].
    + destruct Hentry as (Htruthy & Htx & _). rewrite decide_True by done.
      change (option_list (Some idea)) with [idea]. by rewrite <-Hids, Htx.
    + rewrite decide_False by (by rewrite Hentry). done.
Qed.

(** X18.  In the fetch script the loop over the selected ideas never raises,
    and it lists, in order, exactly the ideas whose [tx_id] is truthy; the
    entry of an idea has its [tx_id] and, as payload, the document fetched, or
    null when no gateway has served it. The block that collects the ideas
    raises only when its metadata query does. *)
Theorem fetch_lists_every_idea_whatever_the_gateways_do :
  (∀ byId selected st,
     ∃ ideas st',
       ideaEntries net byId [] selected st = (inr ideas, st') ∧
       Some <$> (Idea.tx_id <$> ideas) =
         filter (λ v, truthy v = true) ((λ item, prop (Some item) "tx_id") <$> selected)) ∧
  (∀ byId item st,
     truthy (prop (Some item) "tx_id") = true →
     ∃ idea st',
       ideaEntry net byId item st = (inr (Some idea), st') ∧
       prop (Some item) "tx_id" = Some (Idea.tx_id idea) ∧
       match (fetchJsonByTxId net (Idea.tx_id idea) st).1 with
       | inr doc => Idea.payload idea = doc
       | inl _ => Idea.payload idea = JNull
       end) ∧
  (∀ includeIdeas ideasLimit snapshotJson st err st',
     collectIdeas net includeIdeas ideasLimit snapshotJson st = (inl err, st') →
     ∃ txIds, getTxMeta net txIds st = (inl err, st')).
Proof.
  split_and!.
  - intros byId selected st. apply (ideaEntries_returns byId selected [] st).
  - intros byId item st Htruthy.
    destruct (ideaEntry_returns byId item st) as ([idea|] & st' & Hrun & Hentry);
      [|congruence].
    destruct Hentry as (_ & Htx & _ & Hpayload).
    exists idea, st'. split_and!; [done..|].
    by destruct (fetchJsonByTxId net (Idea.tx_id idea) st) as [[e|doc] st1];
      destruct Hpayload.
  - intros includeIdeas ideasLimit snapshotJson st err st'. unfold collectIdeas.
    destruct (as_array (prop (Some snapshotJson) "ideas")) as [ideas|]; [|done].
    destruct includeIdeas; [|done].
    case_bool_decide; [|done]. rewrite run_bind.
    destruct (getTxMeta net _ st) as [[e|nodes] st1] eqn:Hmeta.
    + intros [= <- <-]. eauto.
    + destruct (ideaEntries_returns (indexById nodes)
                  (take (Z.to_nat (0 `max` default 0%Z ideasLimit)) ideas) [] st1)
        as (entries & st2 & -> & _). done.
Qed.
End FetchLoop.

Section PublishFacts.
Import Js Async Publish.

Lemma blank_false v : blank v = false ↔ ∃ s, v = Some (JStr s) ∧ trim s ≠ "".
Proof.
  unfold blank, as_string, truthy_string. destruct v as [[]|]; simpl;
    try (split; [done|by intros (? & ? & _)]).
  rewrite negb_false_iff, bool_decide_eq_true. naive_solver.
Qed.

Lemma checkIdea_inr seen idea seen' :
  checkIdea seen idea = inr seen' ↔
  ∃ idea_id,
    prop (Some idea) "idea_id" = Some (JStr idea_id) ∧ trim idea_id ≠ "" ∧
    (idea_id ∉ seen) ∧
    (truthy (prop (Some idea) "tx_id") = true ∨ nullish (prop (Some idea) "content") = false) ∧
    seen' = {[ idea_id ]} ∪ seen.
Proof.
  unfold checkIdea.
  destruct (Verify.notAnObject (Some idea)) eqn:Hobj.
  { split; [done|]. intros (id & Hid & _). unfold prop in Hid.
    destruct idea; try done. }
  destruct (blank (prop (Some idea) "idea_id")) eqn:Hblank.
  { split; [done|]. intros (id & Hid & Hne & _).
    assert (blank (prop (Some idea) "idea_id") = false) by (apply blank_false; eauto).
    congruence. }
  apply blank_false in Hblank as (id & Hid & Hne). rewrite Hid.
  change (ToString (Some (JStr id))) with id.
  unfold Verify.has. destruct (bool_decide (id ∈ seen)) eqn:Hseen.
  { apply bool_decide_eq_true in Hseen. split; [done|].
    intros (? & [= <-] & _ & ? & _). done. }
  apply bool_decide_eq_false in Hseen.
  destruct (truthy (prop (Some idea) "tx_id")); destruct (nullish (prop (Some idea) "content"));
    cbn [negb andb]; split; try done;
    try (intros [= <-]; exists id; split_and!; auto; done);
    try (intros (? & [= <-] & _ & _ & _ & ->); done).
  intros (? & _ & _ & _ & [?|?] & _); done.
Qed.

Lemma checkIdeas_inr ideas : ∀ seen seen',
  checkIdeas seen ideas = inr seen' ↔
  ∃ idea_ids,
    Forall2 (λ idea idea_id,
               prop (Some idea) "idea_id" = Some (JStr idea_id) ∧ trim idea_id ≠ "" ∧
               (truthy (prop (Some idea) "tx_id") = true
                ∨ nullish (prop (Some idea) "content") = false))
            ideas idea_ids ∧
    NoDup idea_ids ∧ (∀ idea_id, idea_id ∈ idea_ids → idea_id ∉ seen) ∧
    seen' = list_to_set idea_ids ∪ seen.
Proof.
  induction ideas as [|idea ideas IH]; intros seen seen'.
  - simpl. split.
    + intros [= <-]. exists []. split_and!; [constructor|constructor|set_solver|set_solver].
    + intros (ids & Hall & _ & _ & ->). inversion Hall. subst. f_equal. set_solver.
  - cbn [checkIdeas]. destruct (checkIdea seen idea) as [err|seen1] eqn:Hidea.
    + split; [done|]. intros (ids & Hall & Hnd & Hfresh & ->).
      inversion Hall as [|? id ? ids' (Hid & Hne & Htx) Hrest]; subst.
      assert (checkIdea seen idea = inr ({[ id ]} ∪ seen)).
      { apply checkIdea_inr. exists id. split_and!; try done. apply Hfresh. left. }
      congruence.
    + apply checkIdea_inr in Hidea as (id & Hid & Hne & Hfresh & Htx & ->).
      rewrite IH. split.
      * intros (ids & Hall & Hnd & Hfresh' & ->). exists (id :: ids). split_and!.
        -- by constructor.
        -- constructor; [|done]. intros Hin. specialize (Hfresh' _ Hin). set_solver.
        -- intros x [->|Hx]%elem_of_cons; [done|]. specialize (Hfresh' _ Hx). set_solver.
        -- set_solver.
      * intros (ids & Hall & Hnd & Hfresh' & ->).
        inversion Hall as [|? id' ? ids' (Hid' & _) Hrest]; subst.
        assert (id' = id) as -> by congruence.
        apply NoDup_cons in Hnd as [Hnin Hnd].
        exists ids'. split_and!; [done|done| |set_solver].
        intros x Hx. assert (x ∉ seen) by (apply Hfresh'; by right).
        assert (x ≠ id) by (by intros ->). set_solver.
Qed.

Lemma checkEdge_None seen edge :
  checkEdge seen edge = None ↔
  Verify.notAnObject (Some edge) = false ∧
  Verify.has seen (prop (Some edge) "from_idea_id") = true ∧
  Verify.has seen (prop (Some edge) "to_idea_id") = true ∧
  Verify.has EDGE_TYPES (prop (Some edge) "type") = true.
Proof.
  unfold checkEdge. destruct (Verify.notAnObject (Some edge)); [naive_solver|].
  destruct (Verify.has seen (prop (Some edge) "from_idea_id"));
    destruct (Verify.has seen (prop (Some edge) "to_idea_id"));
    destruct (Verify.has EDGE_TYPES (prop (Some edge) "type")); simpl; naive_solver.
Qed.

Lemma checkEdges_None seen edges :
  checkEdges seen edges = None ↔ ∀ edge, edge ∈ edges → checkEdge seen edge = None.
Proof.
  induction edges as [|e edges IH]; simpl.
  - split; [|done]. by intros _ ? ?%elem_of_nil.
  - destruct (checkEdge seen e) eqn:He.
    + split; [done|]. intros Hall. specialize (Hall e (list_elem_of_here _ _)). congruence.
    + rewrite IH. split.
      * intros Hall e' [->|?]%elem_of_cons; auto.
      * intros Hall e' Hin. apply Hall. by right.
Qed.

Lemma validateInput_None_iff (input : json) :
  validateInput input = None ↔
  Schema.isRecord (Some input) = true ∧
  (∃ self_id, prop (Some input) "self_id" = Some (JStr self_id) ∧ trim self_id ≠ "") ∧
  (∃ name, prop (Some input) "name" = Some (JStr name) ∧ trim name ≠ "") ∧
  ∃ ideas idea_ids,
    prop (Some input) "ideas" = Some (JArr ideas) ∧ ideas ≠ [] ∧
    Forall2 (λ idea idea_id,
               prop (Some idea) "idea_id" = Some (JStr idea_id) ∧ trim idea_id ≠ "" ∧
               (truthy (prop (Some idea) "tx_id") = true
                ∨ nullish (prop (Some idea) "content") = false))
            ideas idea_ids ∧
    NoDup idea_ids ∧
    ∀ edges edge, prop (Some input) "edges" = Some (JArr edges) → edge ∈ edges →
      ∃ from_id to_id ty,
        prop (Some edge) "from_idea_id" = Some (JStr from_id) ∧ from_id ∈ idea_ids ∧
        prop (Some edge) "to_idea_id" = Some (JStr to_id) ∧ to_id ∈ idea_ids ∧
        prop (Some edge) "type" = Some (JStr ty) ∧ ty ∈ EDGE_TYPES.
Proof.
  assert (Harr : ∀ v l, as_array v = Some l ↔ v = Some (JArr l)).
  { intros v l. unfold as_array. destruct v as [[]|]; naive_solver. }
  unfold validateInput. rewrite isRecord_notAnObject.
  destruct (Verify.notAnObject (Some input)); cbn [negb]; [by split; [|intros [? _]]|].
  destruct (blank (prop (Some input) "self_id")) eqn:Hself.
  { split; [done|]. intros (_ & ?%blank_false & _). congruence. }
  destruct (blank (prop (Some input) "name")) eqn:Hname.
  { split; [done|]. intros (_ & _ & ?%blank_false & _). congruence. }
  apply blank_false in Hself, Hname.
  destruct (as_array (prop (Some input) "ideas")) as [[|idea ideas]|] eqn:Hideas.
  - apply Harr in Hideas. split; [done|].
    intros (_ & _ & _ & ? & ? & Heq & ? & _). rewrite Hideas in Heq. by injection Heq as <-.
  - apply Harr in Hideas.
    destruct (checkIdeas ∅ (idea :: ideas)) as [err|seen] eqn:Hcheck.
    + split; [done|]. intros (_ & _ & _ & ideas' & ids & Heq & _ & Hall & Hnd & _).
      rewrite Hideas in Heq. injection Heq as <-.
      assert (checkIdeas ∅ (idea :: ideas) = inr (list_to_set ids ∪ ∅)).
      { apply checkIdeas_inr. exists ids. split_and!; [done..| |done]. set_solver. }
      congruence.
    + apply checkIdeas_inr in Hcheck as (ids & Hall & Hnd & _ & ->).
      assert (Hedge : ∀ edge, checkEdge (list_to_set ids ∪ ∅) edge = None ↔
                ∃ from_id to_id ty,
                  prop (Some edge) "from_idea_id" = Some (JStr from_id) ∧ from_id ∈ ids ∧
                  prop (Some edge) "to_idea_id" = Some (JStr to_id) ∧ to_id ∈ ids ∧
                  prop (Some edge) "type" = Some (JStr ty) ∧ ty ∈ EDGE_TYPES).
      { intros edge. rewrite checkEdge_None, !has_Some. split.
        - intros (_ & (a & Ha & Hain) & (b & Hb & Hbin) & (c & Hc & Hcin)).
          exists a, b, c. split_and!; try done; set_solver.
        - intros (a & b & c & Ha & Hain & Hb & Hbin & Hc & Hcin). split_and!.
          + unfold prop in Ha. by destruct edge.
          + exists a. split; [done|]. set_solver.
          + exists b. split; [done|]. set_solver.
          + by exists c. }
      split.
      * intros Hedges. split_and!; [done..|].
        exists (idea :: ideas), ids. split_and!; [done..|].
        intros edges edge Hraw%Harr Hin. rewrite Hraw in Hedges.
        apply Hedge. by apply (proj1 (checkEdges_None _ _) Hedges).
      * intros (_ & _ & _ & ideas' & ids' & Heq & _ & Hall' & _ & Hedges).
        rewrite Hideas in Heq. injection Heq as <-.
        assert (ids' = ids) as ->.
        { clear -Hall Hall'. revert ids' Hall'.
          induction Hall as [|???? [? _]]; intros ids' Hall'; inversion Hall' as [|???? [? _]];
            subst; [done|]. f_equal; [congruence|auto]. }
        destruct (as_array (prop (Some input) "edges")) as [edges|] eqn:Hraw; [|done].
        apply checkEdges_None. intros edge Hin. apply Hedge.
        apply (Hedges edges); [by apply Harr|done].
  - split; [done|]. intros (_ & _ & _ & ? & ? & Heq%Harr & _). congruence.
Qed.

(** X19.  [validateInput] accepts exactly the inputs that are objects with
    strings [self_id] and [name] that are not blank, an array [ideas] that is
    not empty and holds objects with a string [idea_id] that is not blank and
    a truthy [tx_id] or a [content] that is not null, the idea ids being
    pairwise distinct, and, when [edges] is an array, only edges whose
    endpoints are idea ids of the input and whose type is one of the five edge
    types. *)
Theorem validateInput_accepts_iff (input : json) :
  validateInput input = None ↔
  Schema.isRecord (Some input) = true ∧
  (∃ self_id, prop (Some input) "self_id" = Some (JStr self_id) ∧ trim self_id ≠ "") ∧
  (∃ name, prop (Some input) "name" = Some (JStr name) ∧ trim name ≠ "") ∧
  ∃ ideas idea_ids,
    prop (Some input) "ideas" = Some (JArr ideas) ∧ ideas ≠ [] ∧
    Forall2 (λ idea idea_id,
               prop (Some idea) "idea_id" = Some (JStr idea_id) ∧ trim idea_id ≠ "" ∧
               (truthy (prop (Some idea) "tx_id") = true
                ∨ nullish (prop (Some idea) "content") = false))
            ideas idea_ids ∧
    NoDup idea_ids ∧
    ∀ edges edge, prop (Some input) "edges" = Some (JArr edges) → edge ∈ edges →
      ∃ from_id to_id ty,
        prop (Some edge) "from_idea_id" = Some (JStr from_id) ∧ from_id ∈ idea_ids ∧
        prop (Some edge) "to_idea_id" = Some (JStr to_id) ∧ to_id ∈ idea_ids ∧
        prop (Some edge) "type" = Some (JStr ty) ∧ ty ∈ EDGE_TYPES.
Proof. apply validateInput_None_iff. Qed.
End PublishFacts.

Section PublishThenVerify.
Import Js Async Publish.

Lemma trim_nonempty s : trim s ≠ "" → s ≠ "".
Proof. intros Hne ->. apply Hne. reflexivity. Qed.

Lemma uploadIdea_idea_id {W} (host : Host W) dryRun idea (st : State W) uploaded st' :
  uploadIdea host dryRun idea st = (inr uploaded, st') →
  idea_id uploaded = prop (Some idea) "idea_id" ∧ truthy (Some (tx_id uploaded)) = true.
Proof.
  unfold uploadIdea. destruct (truthy (prop (Some idea) "tx_id")) eqn:Htx.
  - intros [= <- _]. cbn. split; [done|].
    by destruct (prop (Some idea) "tx_id").
  - intros (_ & st1 & _ & Hrest)%bind_inr. destruct dryRun.
    + injection Hrest as <- _. cbn. split; [done|].
      unfold truthy, truthy_string. apply bool_decide_eq_true. done.
    + apply bind_inr in Hrest as (result & st2 & _ & Hrest).
      destruct (nullish (Some result)); [done|].
      destruct (truthy (prop (Some result) "tx_id")) eqn:Hres; cbn [negb] in Hrest; [|done].
      injection Hrest as <- _. cbn. split; [done|].
      by destruct (prop (Some result) "tx_id").
Qed.

Lemma uploadIdeas_idea_ids {W} (host : Host W) dryRun ideas :
  ∀ acc (st : State W) uploaded st',
  uploadIdeas host dryRun acc ideas st = (inr uploaded, st') →
  ∃ new, uploaded = acc ++ new ∧
    Forall2 (λ idea u, idea_id u = prop (Some idea) "idea_id"
                       ∧ truthy (Some (tx_id u)) = true) ideas new.
Proof.
  induction ideas as [|idea ideas IH]; intros acc st uploaded st'.
  - intros [= <- _]. exists []. by rewrite app_nil_r.
  - cbn [uploadIdeas]. intros (u & st1 & Hu & Hrest)%bind_inr.
    destruct (IH _ _ _ _ Hrest) as (new & -> & Hall).
    exists (u :: new). rewrite <-app_assoc. split; [done|].
    constructor; [|done]. by eapply uploadIdea_idea_id.
Qed.

Lemma field_Some key v : field key (Some v) = [(key, v)].
Proof. done. Qed.

(** X20.  What [publish] builds from an input that [validateInput] accepts
    passes the verification: when the upload loop comes to its end and every
    transaction id it has collected is a string, the snapshot document has no
    error for [validateSnapshotPayload] and carries the [self_id] of the
    input, and the head document, made for a snapshot transaction id that is
    not empty, has no error for [validateHeadPayload] and is parsed by
    [parseSelfHead] into a head with that [snapshot_tx] and the [self_id] and
    [name] of the input. *)
Theorem published_documents_pass_verification {W} (host : Host W) (dryRun : bool)
    (input : json) (ideas : list json) (st st' : State W)
    (uploadedIdeas : list UploadedIdea)
    (parentSnapshotTx : json) (created_at snapshotTx updated_at : string) :
  validateInput input = None →
  prop (Some input) "ideas" = Some (JArr ideas) →
  uploadIdeas host dryRun [] ideas st = (inr uploadedIdeas, st') →
  Forall (λ u, typeof_string (Some (tx_id u)) = true) uploadedIdeas →
  snapshotTx ≠ "" →
  let snapshot := snapshotPayload input uploadedIdeas parentSnapshotTx created_at in
  let head := headPayload input (JStr snapshotTx) updated_at in
  Verify.validateSnapshotPayload snapshot = [] ∧
  prop (Some snapshot) "self_id" = prop (Some input) "self_id" ∧
  Verify.validateHeadPayload head = [] ∧
  ∃ v, Schema.parseSelfHead head = Schema.Ok v ∧
       Schema.Head.snapshot_tx v = snapshotTx ∧
       prop (Some input) "self_id" = Some (JStr (Schema.Head.self_id v)) ∧
       prop (Some input) "name" = Some (JStr (Schema.Head.name v)).
Proof.
  intros (Hrec & (self_id & Hself & Hselfne) & (name & Hname & Hnamene)
          & ideas' & idea_ids & Hideas' & Hne & Hall & Hnd & Hedges)%validateInput_None_iff
         Hideas Hupload Hstrings Htx snapshot head.
  rewrite Hideas in Hideas'. injection Hideas' as <-.
  apply trim_nonempty in Hselfne, Hnamene.
  destruct (uploadIdeas_idea_ids _ _ _ _ _ _ _ Hupload) as (new & Hnew & Hids).
  simpl in Hnew. subst new.
  set (E := match as_array (prop (Some input) "edges") with
             | Some edges => JArr edges
             | None => JArr []
             end).
  assert (Hsnap : ∀ key, key ∈ ["schema"; "self_id"; "ideas"; "edges"] →
            prop (Some snapshot) key =
              assoc key [("schema", JStr "afterlife.snapshot@1");
                         ("self_id", JStr self_id);
                         ("ideas",
                          JArr ((λ it, JObj (field "idea_id" (idea_id it)
                                               ++ [("tx_id", tx_id it)]))
                                  <$> uploadedIdeas));
                         ("edges", E)]).
  { intros key Hkey. subst snapshot. unfold snapshotPayload. rewrite Hself. fold E.
    repeat (apply elem_of_cons in Hkey as [->|Hkey]; [reflexivity|]).
    by apply elem_of_nil in Hkey. }
  assert (Hhead : ∀ key, key ∈ ["schema"; "self_id"; "name"; "snapshot_tx"] →
            prop (Some head) key =
              assoc key [("schema", JStr "afterlife.selfhead@1");
                         ("self_id", JStr self_id);
                         ("name", JStr name);
                         ("snapshot_tx", JStr snapshotTx)]).
  { intros key Hkey. subst head. unfold headPayload. rewrite Hself, Hname.
    destruct (stringOrUndefined (prop (Some input) "description"));
      repeat (apply elem_of_cons in Hkey as [->|Hkey]; [reflexivity|]);
      by apply elem_of_nil in Hkey. }
  assert (Helem : ∀ (k : string) l, k ∈ k :: l) by (intros; left).
  split_and!.
  - apply validateSnapshotPayload_nil_iff. split_and!.
    + done.
    + rewrite Hsnap by set_solver. reflexivity.
    + exists self_id. rewrite Hsnap by set_solver. reflexivity.
    + exists ((λ it, JObj (field "idea_id" (idea_id it) ++ [("tx_id", tx_id it)]))
                <$> uploadedIdeas), idea_ids.
      split_and!.
      * rewrite Hsnap by set_solver. reflexivity.
      * intros Hnil%fmap_nil_inv. subst. inversion Hids. by subst.
      * clear -Hall Hids Hstrings. revert uploadedIdeas Hids Hstrings.
        induction Hall as [|idea id ideas ids (Hid & _) Hrest IH];
          intros [|u us] Hids Hstrings; inversion Hids as [|? ? ? ? [Hu _] Hus]; subst;
          [constructor|].
        apply Forall_cons in Hstrings as [Hstr Hstrings].
        csimpl. constructor; [|by apply IH].
        rewrite Hu, Hid. split; [reflexivity|].
        destruct (tx_id u) as [| | |tx| |]; try done. by exists tx.
      * done.
      * intros edges edge Hraw Hin. rewrite Hsnap in Hraw by set_solver.
        injection Hraw as HE. subst E.
        destruct (as_array (prop (Some input) "edges")) as [edges'|] eqn:Harr.
        -- injection HE as ->. apply (Hedges edges); [|done].
           unfold as_array in Harr.
           by destruct (prop (Some input) "edges") as [[]|]; simplify_eq.
        -- injection HE as <-. by apply elem_of_nil in Hin.
  - rewrite Hsnap by set_solver. by rewrite Hself.
  - apply validateHeadPayload_nil. unfold Schema.getString.
    rewrite !Hhead by set_solver. by split_and!.
  - eexists. split; [|split_and!].
    + apply parseSelfHead_Ok. split_and!; [done|..].
      * unfold Schema.getString. rewrite Hhead by set_solver. reflexivity.
      * exists self_id, name, snapshotTx. unfold Schema.getString at 1 2 3.
        rewrite (Hhead "self_id"), (Hhead "name"), (Hhead "snapshot_tx") by set_solver.
        split_and!; try (by apply nonEmpty_Some).
        reflexivity.
    + done.
    + done.
    + done.
Qed.
End PublishThenVerify.

Section PublishThenVerifyCases.
Import Js Async Arweave Schema Verify Examples.

Lemma published_documents_pass_verification_witness :
  ∃ uploadedIdeas st',
    Publish.uploadIdeas savingHost false [] 
      [ideaRef "mission" "IDEA1";
       JObj [("idea_id", JStr "vision"); ("content", JObj [("text", JStr "see far")])]]
      start = (inr uploadedIdeas, st') ∧
    validateSnapshotPayload
      (Publish.snapshotPayload publishInput uploadedIdeas JNull "2026-01-01T00:00:00.000Z")
    = [].
Proof.
  eexists _, _. split; [vm_compute; reflexivity|].
  refine (proj1 (published_documents_pass_verification savingHost false publishInput _
                   start _ _ JNull "2026-01-01T00:00:00.000Z" "SNAPTX"
                   "2026-01-01T00:00:01.000Z" _ _ _ _ _)).
  - vm_compute; reflexivity.
  - reflexivity.
  - vm_compute; reflexivity.
  - repeat constructor.
  - discriminate.
Defined.

End PublishThenVerifyCases.

Section InsertionOrder.
Import Tags.

(** Keys of a map filled by [set] in the order of a list. *)
Lemma keys_foldl_set {A V} (key : A → string) (val : Js.Map V → A → V) (l : list A) :
  ∀ m : Js.Map V,
  Js.keys (foldl (λ m a, Js.set (key a) (val m a) m) m l) =
    Js.keys m ++ filter (λ n, n ∉ Js.keys m) (firstOccurrences (key <$> l)).
Proof.
  induction l as [|a l IH]; intros m.
  - simpl. by rewrite app_nil_r.
  - cbn [foldl]. rewrite IH. rewrite (keys_set_fresh m (key a)).
    csimpl. rewrite filter_cons.
    destruct (decide (key a ∈ Js.keys m)) as [Hin|Hnin].
    + destruct (decide (key a ∉ Js.keys m)) as [?|_]; [done|].
      f_equal. rewrite list_filter_filter. apply list_filter_iff.
      intros x. simpl. split; [intros Hx; split; [done|by intros ->] | by intros [? _]].
    + destruct (decide (key a ∉ Js.keys m)) as [_|?]; [|done]. rewrite <-app_assoc.
      f_equal. simpl. f_equal.
      rewrite list_filter_filter. apply list_filter_iff.
      intros x. simpl. rewrite elem_of_app, list_elem_of_singleton. tauto.
Qed.

Lemma get_foldl_set_last {A V} (key : A → string) (val : A → V) (l : list A) k :
  ∀ m : Js.Map V,
  Js.get k (foldl (λ m a, Js.set (key a) (val a) m) m l) =
    match last (filter (λ a, key a = k) l) with
    | Some a => Some (val a)
    | None => Js.get k m
    end.
Proof.
  induction l as [|a l IH]; intros m; [done|].
  cbn [foldl]. rewrite IH, filter_cons.
  destruct (decide (key a = k)) as [<-|Hne].
  - rewrite last_cons. destruct (last (filter _ l)); [done|]. apply get_set_eq.
  - destruct (last (filter _ l)); [done|]. by apply get_set_ne.
Qed.

Lemma fmap_values_keys {V} (key : V → string) (m : Js.Map V) :
  (∀ k v, Js.get k m = Some v → key v = k) → NoDup (Js.keys m) →
  key <$> Js.values m = Js.keys m.
Proof.
  unfold Js.values, Js.keys. induction m as [|[k v] m IH]; intros Hid Hnd; [done|].
  csimpl in *. apply NoDup_cons in Hnd as [Hk Hnd]. f_equal.
  - apply Hid. by rewrite decide_True.
  - apply IH; [|done]. intros k' v' Hg. apply Hid.
    rewrite decide_False; [done|]. intros ->.
    apply Hk, list_elem_of_fmap. exists (k, v'). split; [done|]. by apply get_Some_elem.
Qed.

Lemma elem_of_values_get {V} (m : Js.Map V) v :
  NoDup (Js.keys m) → v ∈ Js.values m ↔ ∃ k, Js.get k m = Some v.
Proof.
  intros Hnd. unfold Js.values. rewrite list_elem_of_fmap. split.
  - intros ([k v'] & -> & Hin). exists k. by apply elem_get_Some.
  - intros [k Hg]. exists (k, v). split; [done|]. by apply get_Some_elem.
Qed.

Lemma setValues_firstOccurrences items :
  TurboFetch.setValues items = firstOccurrences items.
Proof.
  unfold TurboFetch.setValues.
  assert (∀ seen, foldl (λ set item, if bool_decide (item ∈ set) then set else set ++ [item])
                        seen items
                  = seen ++ filter (λ n, n ∉ seen) (firstOccurrences items)) as Hgen.
  { induction items as [|x items IH]; intros seen.
    - simpl. by rewrite app_nil_r.
    - cbn [foldl]. rewrite IH. simpl. rewrite filter_cons.
      case_bool_decide as Hin.
      + destruct (decide (x ∉ seen)) as [?|_]; [done|].
        f_equal. rewrite list_filter_filter. apply list_filter_iff.
        intros y. simpl. split; [intros Hy; split; [done|by intros ->] | by intros [? _]].
      + destruct (decide (x ∉ seen)) as [_|?]; [|done]. rewrite <-app_assoc.
        f_equal. simpl. f_equal.
        rewrite list_filter_filter. apply list_filter_iff.
        intros y. simpl. rewrite elem_of_app, list_elem_of_singleton. tauto. }
  rewrite Hgen. simpl. apply filter_all. intros ? _. apply not_elem_of_nil.
Qed.

(** X21.  [mergeTags] returns one tag for each name, the names in the order in
    which they first occur in the base tags followed by the extra tags, and
    the tag of a name has the value of the last tag of that name: an extra tag
    overrides a base tag of its name, so that every extra tag is in the result
    when the names of the extra tags are distinct. *)
Theorem mergeTags_last_value_at_first_place (baseTags extraTags : list ArweaveTag) :
  let merged := Common.mergeTags baseTags extraTags in
  name <$> merged = firstOccurrences (name <$> (baseTags ++ extraTags)) ∧
  NoDup (name <$> merged) ∧
  (∀ n v, {| name := n; value := v |} ∈ merged ↔
          last (valuesOf n (baseTags ++ extraTags)) = Some v) ∧
  (∀ t, t ∈ extraTags → NoDup (name <$> extraTags) → t ∈ merged).
Proof.
  intros merged. subst merged. unfold Common.mergeTags.
  set (all := baseTags ++ extraTags).
  set (m := foldl (λ (merged : Js.Map ArweaveTag) tag,
                     Js.set (name tag) {| name := name tag; value := value tag |} merged)
                  [] all).
  assert (Hkeys : Js.keys m = firstOccurrences (name <$> all)).
  { subst m. rewrite (keys_foldl_set name (λ _ t, {| name := name t; value := value t |})).
    simpl. apply filter_all. intros ? _. apply not_elem_of_nil. }
  assert (Hnd : NoDup (Js.keys m)) by (rewrite Hkeys; apply firstOccurrences_NoDup).
  assert (Hget : ∀ k, Js.get k m =
                      match last (filter (λ t, name t = k) all) with
                      | Some t => Some {| name := name t; value := value t |}
                      | None => None
                      end).
  { intros k. subst m.
    by rewrite (get_foldl_set_last name (λ t, {| name := name t; value := value t |})). }
  assert (Hentry : ∀ k t, Js.get k m = Some t → name t = k).
  { intros k t. rewrite Hget. destruct (last _) as [t'|] eqn:Hlast; [|done].
    intros [= <-]. apply last_Some_elem_of, list_elem_of_filter in Hlast. by destruct Hlast. }
  assert (Hnames : name <$> Js.values m = Js.keys m)
    by (by apply fmap_values_keys).
  assert (Hmem : ∀ n v, {| name := n; value := v |} ∈ Js.values m ↔
                        last (valuesOf n all) = Some v).
  { intros n v. rewrite elem_of_values_get by done. unfold valuesOf. rewrite fmap_last.
    split.
    - intros [k Hk]. pose proof (Hentry _ _ Hk) as Hname. simpl in Hname. subst k.
      rewrite Hget in Hk. destruct (last _) as [t'|]; [|done].
      simpl. by injection Hk as _ <-.
    - intros Hlast. exists n. rewrite Hget.
      destruct (last (filter (λ t, name t = n) all)) as [t'|] eqn:Ht; [|done].
      injection Hlast as <-. f_equal.
      apply last_Some_elem_of, list_elem_of_filter in Ht as [<- _]. done. }
  split_and!.
  - by rewrite Hnames.
  - by rewrite Hnames.
  - done.
  - intros [n v] Hin Hnd'. apply Hmem. subst all. unfold valuesOf.
    rewrite filter_app, fmap_app.
    assert (filter (λ t, name t = n) extraTags = [ {| name := n; value := v |} ]) as ->.
    { clear -Hin Hnd'. induction extraTags as [|t ts IH]; [by apply elem_of_nil in Hin|].
      csimpl in Hnd'. apply NoDup_cons in Hnd' as [Ht Hnd'].
      rewrite filter_cons. apply elem_of_cons in Hin as [<-|Hin].
      - rewrite decide_True by done. f_equal.
        apply elem_of_nil_inv. intros t' [Hn Hin']%list_elem_of_filter.
        apply Ht. simpl. rewrite <-Hn. apply list_elem_of_fmap. by exists t'.
      - rewrite decide_False; [by apply IH|]. intros Hn. apply Ht. rewrite Hn.
        apply list_elem_of_fmap. by exists {| name := n; value := v |}. }
    simpl. by rewrite last_snoc.
Qed.

(** X22.  [uniqueGateways] puts the primary gateway first, without one
    trailing slash, and after it https://arweave.net and https://ar-io.dev
    except the one that is equal to it: the result has no repetition and two
    or three entries. *)
Theorem uniqueGateways_primary_first_no_repeat (primary : string) :
  let p := Arweave.stripTrailingSlash primary in
  TurboFetch.uniqueGateways primary =
    p :: filter (λ g, g ≠ p) ["https://arweave.net"; "https://ar-io.dev"] ∧
  NoDup (TurboFetch.uniqueGateways primary) ∧
  (2 ≤ length (TurboFetch.uniqueGateways primary) ≤ 3)%nat.
Proof.
  intros p. unfold TurboFetch.uniqueGateways. rewrite setValues_firstOccurrences.
  assert (firstOccurrences
            (Arweave.stripTrailingSlash <$> [primary; "https://arweave.net"; "https://ar-io.dev"])
          = p :: filter (λ g, g ≠ p) ["https://arweave.net"; "https://ar-io.dev"]) as ->.
  { cbn [fmap list_fmap firstOccurrences].
    change (Arweave.stripTrailingSlash "https://arweave.net") with "https://arweave.net".
    change (Arweave.stripTrailingSlash "https://ar-io.dev") with "https://ar-io.dev".
    by fold p. }
  split_and!.
  - done.
  - constructor.
    + rewrite list_elem_of_filter. tauto.
    + apply NoDup_filter. repeat constructor; set_solver.
  - rewrite !filter_cons, filter_nil.
    repeat case_decide; simpl; try lia; exfalso;
      repeat match goal with H : ¬ (_ ≠ _) |- _ => apply dec_stable in H end;
      congruence.
  - rewrite !filter_cons, filter_nil. repeat case_decide; simpl; lia.
Qed.
End InsertionOrder.

Section ChunkFacts.
Import Save.
Local Open Scope Z_scope.

Lemma subarray_inside {A} (buffer : list A) (b e : Z) :
  0 ≤ b ≤ e → e ≤ Z.of_nat (length buffer) →
  subarray buffer b e = take (Z.to_nat (e - b)) (drop (Z.to_nat b) buffer).
Proof.
  intros Hb He. unfold subarray.
  destruct (Z.ltb_spec b 0) as [?|_]; [lia|].
  destruct (Z.ltb_spec e 0) as [?|_]; [lia|].
  by rewrite !Z.min_l by lia.
Qed.

Lemma take_take_drop_Z {A} (buffer : list A) (b e : Z) :
  0 ≤ b ≤ e →
  take (Z.to_nat b) buffer ++ take (Z.to_nat (e - b)) (drop (Z.to_nat b) buffer)
  = take (Z.to_nat e) buffer.
Proof.
  intros Hbe. replace (Z.to_nat e) with (Z.to_nat b + Z.to_nat (e - b))%nat by lia.
  by rewrite take_take_drop.
Qed.

(** The loop of [chunkOrFail] with a positive chunk size, from an offset
    that the chunks made so far cover. *)
Lemma chunkLoop_positive {A} (buffer : list A) (chunkSize : Z) :
  0 < chunkSize →
  ∀ (fuel : nat) (offset : Z) (chunks : list (list A)),
  0 ≤ offset →
  Z.max 0 (Z.of_nat (length buffer) - offset) < Z.of_nat fuel →
  concat chunks = take (Z.to_nat offset) buffer →
  Forall (λ c, c ≠ [] ∧ Z.of_nat (length c) ≤ chunkSize) chunks →
  ∃ chunks', chunkLoop fuel buffer chunkSize offset chunks = Some chunks' ∧
    concat chunks' = buffer ∧
    Forall (λ c, c ≠ [] ∧ Z.of_nat (length c) ≤ chunkSize) chunks' ∧
    Z.of_nat (length chunks') =
      Z.of_nat (length chunks) +
      (Z.max 0 (Z.of_nat (length buffer) - offset) + chunkSize - 1) / chunkSize.
Proof.
  intros Hpos. induction fuel as [|fuel IH]; intros offset chunks Hoff Hfuel Hcat Hall; [lia|].
  cbn [chunkLoop]. destruct (Z.ltb_spec offset (Z.of_nat (length buffer))) as [Hlt|Hge].
  - set (e := Z.min (offset + chunkSize) (Z.of_nat (length buffer))).
    assert (offset < e ∧ e ≤ Z.of_nat (length buffer) ∧ e - offset ≤ chunkSize) as (He1 & He2 & He3)
      by (unfold e; lia).
    rewrite (subarray_inside buffer offset e) by lia.
    destruct (IH (offset + chunkSize)
                (chunks ++ [take (Z.to_nat (e - offset)) (drop (Z.to_nat offset) buffer)]))
      as (chunks' & -> & Hc & Hf & Hn).
    + lia.
    + lia.
    + rewrite concat_app, Hcat. cbn [concat]. rewrite app_nil_r.
      rewrite take_take_drop_Z by lia.
      destruct (Z.le_ge_cases (offset + chunkSize) (Z.of_nat (length buffer))) as [Hle|Hgt].
      * by replace e with (offset + chunkSize) by (unfold e; lia).
      * rewrite !take_ge; [done| |]; lia.
    + apply Forall_app. split; [done|]. apply Forall_singleton.
      assert (length (take (Z.to_nat (e - offset)) (drop (Z.to_nat offset) buffer))
              = Z.to_nat (e - offset)) as Hlen.
      { rewrite length_take, length_drop. lia. }
      split; [|lia]. intros Hnil. rewrite Hnil in Hlen. simpl in Hlen. lia.
    + eexists. split; [done|]. split; [done|]. split; [done|].
      rewrite Hn, length_app. cbn [length].
      rewrite (Z.max_r 0 (Z.of_nat (length buffer) - offset)) by lia.
      destruct (Z.le_ge_cases (offset + chunkSize) (Z.of_nat (length buffer))) as [Hle|Hgt].
      * rewrite Z.max_r by lia.
        replace (Z.of_nat (length buffer) - offset + chunkSize - 1)
          with (Z.of_nat (length buffer) - (offset + chunkSize) + chunkSize - 1 + 1 * chunkSize)
          by lia.
        rewrite Z.div_add by lia. lia.
      * rewrite Z.max_l by lia.
        rewrite (Z.div_small (0 + chunkSize - 1)) by lia.
        replace (Z.of_nat (length buffer) - offset + chunkSize - 1)
          with (Z.of_nat (length buffer) - offset - 1 + 1 * chunkSize) by lia.
        rewrite Z.div_add by lia. rewrite Z.div_small by lia. lia.
  - eexists. split; [done|]. split; [|split; [done|]].
    + rewrite Hcat. apply take_ge. lia.
    + rewrite Z.max_l by lia. rewrite Z.div_small by lia. lia.
Qed.

(** The loop of [chunkOrFail] with a chunk size that is not positive: the
    offset never reaches the length of a buffer that is not empty. *)
Lemma chunkLoop_stuck {A} (buffer : list A) (chunkSize : Z) :
  chunkSize ≤ 0 →
  ∀ (fuel : nat) (offset : Z) (chunks : list (list A)),
  offset < Z.of_nat (length buffer) →
  chunkLoop fuel buffer chunkSize offset chunks = None.
Proof.
  intros Hneg. induction fuel as [|fuel IH]; intros offset chunks Hlt; [done|].
  cbn [chunkLoop]. destruct (Z.ltb_spec offset (Z.of_nat (length buffer))) as [_|?]; [|lia].
  apply IH. lia.
Qed.

(** X23.  With a positive [maxBytes], [chunkOrFail] comes to its end (any
    number of iterations above the length of the buffer is enough) and returns
    the buffer cut into ceil (length / maxBytes) chunks, none empty and none
    longer than [maxBytes], whose concatenation is the buffer. *)
Theorem chunkOrFail_partitions_the_buffer {A} (buffer : list A) (maxBytes : Z) (fuel : nat) :
  0 < maxBytes → (length buffer < fuel)%nat →
  ∃ chunks, chunkOrFail fuel buffer maxBytes = Some chunks ∧
    concat chunks = buffer ∧
    Forall (λ c, c ≠ [] ∧ Z.of_nat (length c) ≤ maxBytes) chunks ∧
    Z.of_nat (length chunks) = (Z.of_nat (length buffer) + maxBytes - 1) / maxBytes.
Proof.
  intros Hpos Hfuel. unfold chunkOrFail.
  destruct (chunkLoop_positive buffer maxBytes Hpos fuel 0 [])
    as (chunks & Hrun & Hcat & Hall & Hn); [lia|lia|done|done|].
  exists chunks. split; [done|]. split; [done|]. split; [done|].
  rewrite Hn. cbn [length]. rewrite Z.sub_0_r, Z.max_r by lia. lia.
Qed.

(** X24.  With a [maxBytes] that is zero or negative, the loop of
    [chunkOrFail] never comes to its end on a buffer that is not empty: no
    number of iterations is enough. *)
Theorem chunkOrFail_never_returns_without_progress {A} (buffer : list A) (maxBytes : Z) :
  maxBytes ≤ 0 → buffer ≠ [] →
  ∀ fuel, chunkOrFail fuel buffer maxBytes = None.
Proof.
  intros Hneg Hne fuel. unfold chunkOrFail. apply chunkLoop_stuck; [done|].
  destruct buffer; [done|]. cbn [length]. lia.
Qed.

End ChunkFacts.

Section ChunkFactsCases.
Import Js Async Arweave Schema Verify Examples.

Lemma chunkOrFail_partitions_the_buffer_witness :
  ∃ chunks, Save.chunkOrFail 6 [1; 2; 3; 4; 5]%Z 2 = Some chunks ∧
    concat chunks = [1; 2; 3; 4; 5]%Z ∧
    Forall (λ c, c ≠ [] ∧ (Z.of_nat (length c) ≤ 2)%Z) chunks ∧
    Z.of_nat (length chunks) = ((Z.of_nat (length [1; 2; 3; 4; 5]%Z) + 2 - 1) / 2)%Z.
Proof.
  apply (chunkOrFail_partitions_the_buffer [1; 2; 3; 4; 5]%Z 2 6); [reflexivity|].
  cbn [length]. lia.
Defined.

Lemma chunkOrFail_never_returns_without_progress_witness :
  Save.chunkOrFail 1000 [1; 2; 3]%Z 0 = None.
Proof.
  apply (chunkOrFail_never_returns_without_progress [1; 2; 3]%Z 0); [|discriminate].
  intros H; discriminate H.
Defined.

End ChunkFactsCases.

Section EscapeFacts.
Import Site.

Lemma escapeChar_cases c :
  (c = "&"%char ∧ escapeChar c = "&amp;") ∨
  (c = "<"%char ∧ escapeChar c = "&lt;") ∨
  (c = ">"%char ∧ escapeChar c = "&gt;") ∨
  (c = Ascii.ascii_of_nat 34 ∧ escapeChar c = "&quot;") ∨
  (c = "'"%char ∧ escapeChar c = "&#39;") ∨
  (c ≠ "&"%char ∧ c ≠ "<"%char ∧ c ≠ ">"%char ∧ c ≠ Ascii.ascii_of_nat 34 ∧
   c ≠ "'"%char ∧ escapeChar c = String c "").
Proof.
  unfold escapeChar. repeat case_decide; subst; tauto.
Qed.

Lemma escapeHtml_no_markup s c :
  In c (String.list_ascii_of_string (escapeHtml s)) →
  c ≠ "<"%char ∧ c ≠ ">"%char ∧ c ≠ Ascii.ascii_of_nat 34 ∧ c ≠ "'"%char.
Proof.
  induction s as [|a s IH]; [done|].
  cbn [escapeHtml].
  destruct (escapeChar_cases a) as [[_ ->]|[[_ ->]|[[_ ->]|[[_ ->]|[[_ ->]|(?&?&?&?&?& ->)]]]]];
    cbn; intros Hin;
    repeat (destruct Hin as [<-|Hin]; [by repeat split|]); by apply IH.
Qed.

Lemma escapeHtml_inj s1 : ∀ s2, escapeHtml s1 = escapeHtml s2 → s1 = s2.
Proof.
  induction s1 as [|a s1 IH]; intros [|b s2]; cbn [escapeHtml].
  - done.
  - destruct (escapeChar_cases b) as [[_ ->]|[[_ ->]|[[_ ->]|[[_ ->]|[[_ ->]|(?&?&?&?&?& ->)]]]]];
      by cbn.
  - destruct (escapeChar_cases a) as [[_ ->]|[[_ ->]|[[_ ->]|[[_ ->]|[[_ ->]|(?&?&?&?&?& ->)]]]]];
      by cbn.
  - destruct (escapeChar_cases a) as [[-> ->]|[[-> ->]|[[-> ->]|[[-> ->]|[[-> ->]|(?&?&?&?&?& ->)]]]]];
    destruct (escapeChar_cases b) as [[-> ->]|[[-> ->]|[[-> ->]|[[-> ->]|[[-> ->]|(?&?&?&?&?& ->)]]]]];
      cbn; intros Heq; try discriminate Heq;
      try (injection Heq as Heq; f_equal; by apply IH);
      try (injection Heq as -> Heq; by f_equal; apply IH);
      try (injection Heq as Hc Heq; congruence).
Qed.

(** X25.  The text that [escapeHtml] returns holds no angle bracket, no double
    quote and no apostrophe, and escaping loses nothing: two texts with the
    same escaped form are the same text. *)
Theorem escapeHtml_removes_markup_and_is_injective (s : string) :
  (∀ c, In c (String.list_ascii_of_string (escapeHtml s)) →
        c ≠ "<"%char ∧ c ≠ ">"%char ∧ c ≠ Ascii.ascii_of_nat 34 ∧ c ≠ "'"%char) ∧
  (∀ s', escapeHtml s = escapeHtml s' → s = s').
Proof.
  split; [apply escapeHtml_no_markup | apply escapeHtml_inj].
Qed.

End EscapeFacts.
